(** * Shape detector: contour tracing, metrics, simplification, classification

    A shallow embedding of the [ShapeDetector] class of [src/main.ts].

    Numbers.  JavaScript numbers are modelled as real numbers ([R]); the two
    places where the code can produce or hold a non-finite value (the
    [Infinity] sentinels of the bounding-box scan and the unguarded division
    of the circularity test) use the extended type [xnum].  Pixel coordinates
    and grid cells of the tracer are integers ([Z]).  The code rounds every
    operation to binary64.  A statement that is an exact equality between
    the outcomes of two runs is therefore made for whole-number inputs, on
    which the operations concerned are exact ([wholeCoordinates]), and the
    module [Binary64] evaluates the metrics in binary64 itself.

    Effects.  [traceContour] mutates the grid and may write to the console:
    it is modelled by explicit state passing (the updated grid and the list
    of diagnostics are part of the result).  [simplifyContour] recurses
    without a structural measure; it takes a recursion budget and returns
    [None] when the budget is exhausted, which is how a call that never
    returns (stack exhaustion) shows up in the model. *)

From Stdlib Require Import Reals Lra Lia List ZArith Bool.
From Stdlib Require String.
Import ListNotations.

Open Scope R_scope.

(** ** Numbers *)

Module Num.

(** A JavaScript number that may be non-finite. *)
Inductive xnum : Type :=
| NaN
| NegInf
| Fin (r : R)
| PosInf.

Definition ltb (x y : R) : bool := if Rlt_dec x y then true else false.
Definition gtb (x y : R) : bool := if Rgt_dec x y then true else false.
Definition leb (x y : R) : bool := if Rle_dec x y then true else false.
Definition eqb (x y : R) : bool := if Req_dec_T x y then true else false.

(** [x < y] on possibly non-finite numbers. *)
Definition xltb (x y : xnum) : bool :=
  match x, y with
  | NaN, _ | _, NaN => false
  | NegInf, NegInf => false
  | NegInf, _ => true
  | Fin _, NegInf => false
  | Fin a, Fin b => ltb a b
  | Fin _, PosInf => true
  | PosInf, _ => false
  end.

(** [x > y]. *)
Definition xgtb (x y : xnum) : bool := xltb y x.

(** [a / b] without any guard on [b]. *)
Definition div (a b : R) : xnum :=
  if eqb b 0 then
    if eqb a 0 then NaN
    else if ltb 0 a then PosInf else NegInf
  else Fin (a / b).

(** [Math.max] and [Math.min]. *)
Definition xmax (x y : xnum) : xnum :=
  match x, y with
  | NaN, _ | _, NaN => NaN
  | PosInf, _ | _, PosInf => PosInf
  | NegInf, z | z, NegInf => z
  | Fin a, Fin b => Fin (Rmax a b)
  end.

Definition xmin (x y : xnum) : xnum :=
  match x, y with
  | NaN, _ | _, NaN => NaN
  | NegInf, _ | _, NegInf => NegInf
  | PosInf, z | z, PosInf => z
  | Fin a, Fin b => Fin (Rmin a b)
  end.

(** [x - y]. *)
Definition xsub (x y : xnum) : xnum :=
  match x, y with
  | NaN, _ | _, NaN => NaN
  | PosInf, PosInf | NegInf, NegInf => NaN
  | PosInf, _ | _, NegInf => PosInf
  | NegInf, _ | _, PosInf => NegInf
  | Fin a, Fin b => Fin (a - b)
  end.

(** The real value of a finite number (0 for the others; the code only
    reads this off finite values, see [extents_finite]). *)
Definition fin (x : xnum) : R :=
  match x with Fin r => r | _ => 0 end.

(** [v || 1]: zero is falsy. *)
Definition orOne (v : R) : R := if eqb v 0 then 1 else v.

End Num.

Import Num.

(** ** Data model *)

Record Point : Type := mkPoint { px : R; py : R }.

Definition Contour : Type := list Point.

Record BoundingBox : Type :=
  mkBox { bx : R; by_ : R; bwidth : R; bheight : R }.

(** The record returned by [calculateMetrics]. *)
Record Metrics : Type :=
  mkMetrics { area : R; perimeter : R; boundingBox : BoundingBox; center : Point }.

Inductive ShapeType : Type := circle | triangle | rectangle | pentagon | star.

(** [DetectedShape]: the type, the confidence and the spread metrics. *)
Record DetectedShape : Type :=
  mkShape { stype : ShapeType; confidence : R; smetrics : Metrics }.

Definition origin : Point := mkPoint 0 0.

(** ** calculateMetrics *)

(** The local variables of the scan. *)
Record MetricsAcc : Type :=
  mkAcc { minX : xnum; minY : xnum; maxX : xnum; maxY : xnum;
          accArea : R; accPerimeter : R; sumX : R; sumY : R }.

Definition metricsInit : MetricsAcc :=
  mkAcc PosInf PosInf NegInf NegInf 0 0 0 0.

(** Euclidean distance, written as in the code:
    [Math.sqrt(Math.pow(dx, 2) + Math.pow(dy, 2))]. *)
Definition dist (p q : Point) : R :=
  sqrt ((px q - px p) ^ 2 + (py q - py p) ^ 2).

(** One summand of the shoelace formula. *)
Definition shoelaceTerm (p1 p2 : Point) : R := px p1 * py p2 - px p2 * py p1.

(** The body of the [for] loop at index [i]. *)
Definition metricsStep (contour : Contour) (a : MetricsAcc) (i : nat) : MetricsAcc :=
  let p1 := nth i contour origin in
  let p2 := nth ((i + 1) mod length contour) contour origin in
  mkAcc (if xltb (Fin (px p1)) (minX a) then Fin (px p1) else minX a)
        (if xltb (Fin (py p1)) (minY a) then Fin (py p1) else minY a)
        (if xgtb (Fin (px p1)) (maxX a) then Fin (px p1) else maxX a)
        (if xgtb (Fin (py p1)) (maxY a) then Fin (py p1) else maxY a)
        (accArea a + shoelaceTerm p1 p2)
        (accPerimeter a + dist p1 p2)
        (sumX a + px p1)
        (sumY a + py p1).

Definition metricsLoop (contour : Contour) : MetricsAcc :=
  fold_left (metricsStep contour) (seq 0 (length contour)) metricsInit.

Definition zeroMetrics : Metrics :=
  mkMetrics 0 0 (mkBox 0 0 0 0) (mkPoint 0 0).

Definition calculateMetrics (contour : Contour) : Metrics :=
  match contour with
  | [] => zeroMetrics
  | _ =>
    let a := metricsLoop contour in
    let n := INR (length contour) in
    mkMetrics (Rabs (accArea a / 2))
              (accPerimeter a)
              (mkBox (fin (minX a)) (fin (minY a))
                     (fin (xsub (maxX a) (minX a)))
                     (fin (xsub (maxY a) (minY a))))
              (mkPoint (sumX a / n) (sumY a / n))
  end.

(** ** simplifyContour *)

(** Distance from [point] to the segment [lineStart, lineEnd]. *)
Definition perpendicularDistance (point lineStart lineEnd : Point) : R :=
  let dx := px lineEnd - px lineStart in
  let dy := py lineEnd - py lineStart in
  if eqb dx 0 && eqb dy 0 then
    let dx := px point - px lineStart in
    let dy := py point - py lineStart in
    sqrt (dx * dx + dy * dy)
  else
    let lenSq := dx * dx + dy * dy in
    let t := ((px point - px lineStart) * dx + (py point - py lineStart) * dy) / lenSq in
    let closest :=
      if ltb t 0 then (px lineStart, py lineStart)
      else if gtb t 1 then (px lineEnd, py lineEnd)
      else (px lineStart + t * dx, py lineStart + t * dy) in
    let dx := px point - fst closest in
    let dy := py point - snd closest in
    sqrt (dx * dx + dy * dy).

(** The body of the search loop: [(dmax, index)] after looking at [i]. *)
Definition farthestStep (points : list Point) (s : R * nat) (i : nat) : R * nat :=
  let d := perpendicularDistance (nth i points origin) (nth 0 points origin)
                                 (nth (length points - 1) points origin) in
  if gtb d (fst s) then (d, i) else s.

(** [for (let i = 1; i < end; i++)] from [dmax = 0], [index = 0]. *)
Definition farthest (points : list Point) : R * nat :=
  fold_left (farthestStep points) (seq 1 (length points - 1 - 1)) (0, O).

(** [fuel] bounds the depth of the recursion; [None] is a call that did not
    return within it. *)
Fixpoint simplifyContour (fuel : nat) (points : list Point) (epsilon : R)
  : option (list Point) :=
  match fuel with
  | O => None
  | S fuel' =>
    if (length points <? 3)%nat then Some points
    else
      let end_ := (length points - 1)%nat in
      let dmax := fst (farthest points) in
      let index := snd (farthest points) in
      if gtb dmax epsilon then
        match simplifyContour fuel' (firstn (index + 1) points) epsilon with
        | None => None
        | Some recResults1 =>
          match simplifyContour fuel' (skipn index points) epsilon with
          | None => None
          | Some recResults2 =>
            Some (firstn (length recResults1 - 1) recResults1 ++ recResults2)
          end
        end
      else Some [nth 0 points origin; nth end_ points origin]
  end.

(** ** calculateConvexHull *)

Definition crossProduct (o a b : Point) : R :=
  (px a - px o) * (py b - py o) - (py a - py o) * (px b - px o).

(** The comparator of the sort puts [a] before [b] when it is negative. *)
Definition comparePoints (a b : Point) : R :=
  if eqb (px a) (px b) then py a - py b else px a - px b.

(** The sort is stable; an insertion sort that keeps equal elements in
    their input order gives the same array. *)
Fixpoint insertPoint (p : Point) (sorted : list Point) : list Point :=
  match sorted with
  | [] => [p]
  | q :: rest =>
    if ltb (comparePoints p q) 0 then p :: q :: rest
    else q :: insertPoint p rest
  end.

Definition sortPoints (points : list Point) : list Point :=
  fold_left (fun sorted p => insertPoint p sorted) points [].

(** The [while] loop that pops a chain; the chain is kept top first. *)
Fixpoint popChain (chain : list Point) (p : Point) : list Point :=
  match chain with
  | b :: ((a :: _) as rest) =>
    if leb (crossProduct a b p) 0 then popChain rest p else chain
  | _ => chain
  end.

Definition buildChain (sortedPoints : list Point) : list Point :=
  fold_left (fun chain p => p :: popChain chain p) sortedPoints [].

Definition calculateConvexHull (points : list Point) : Contour :=
  if (length points <=? 3)%nat then points
  else
    let sortedPoints := sortPoints points in
    let lower := buildChain sortedPoints in
    let upper := buildChain (rev sortedPoints) in
    (* [pop] drops the top of each chain; the arrays read bottom first *)
    rev (tl lower) ++ rev (tl upper).

(** ** classifyShape *)

(** [(4 * Math.PI * metrics.area) / (perimeter * perimeter)]. *)
Definition circularityOf (metrics : Metrics) : xnum :=
  div (4 * PI * area metrics) (perimeter metrics * perimeter metrics).

(** Step 2: the area of the contour over the area of its hull, 0 when the
    hull has no area. *)
Definition solidityOf (contour : Contour) (metrics : Metrics) : R :=
  let hull := calculateConvexHull contour in
  let hullMetrics := calculateMetrics hull in
  if gtb (area hullMetrics) 0 then area metrics / area hullMetrics else 0.

(** Step 4: the vertex count, less one when the first and the last vertex
    are closer than 10. *)
Definition correctedCount (vertices : list Point) : nat :=
  let numVertices := length vertices in
  if (1 <? numVertices)%nat then
    let first := nth 0 vertices origin in
    let last := nth (numVertices - 1) vertices origin in
    if ltb (dist last first) 10 then (numVertices - 1)%nat else numVertices
  else numVertices.

(** Step 5: [Math.max(width / (height || 1), height / (width || 1))]. *)
Definition aspectRatioOf (metrics : Metrics) : R :=
  let width := bwidth (boundingBox metrics) in
  let height := bheight (boundingBox metrics) in
  Rmax (width / orOne height) (height / orOne width).

(** Step 6: the [switch]; the pair is [(type, confidence)] after it. *)
Definition polygonType (numVertices : nat) (solidity : R) : option ShapeType * R :=
  match numVertices with
  | 3%nat => if gtb solidity 0.9 then (Some triangle, 0.90) else (None, 0.85)
  | 4%nat => if gtb solidity 0.9 then (Some rectangle, 0.92) else (None, 0.85)
  | 5%nat => if gtb solidity 0.8 then (Some pentagon, 0.88)
             else if gtb solidity 0.3 then (Some star, 0.82)
             else (None, 0.85)
  | 10%nat => if ltb solidity 0.8 then (Some star, 0.82) else (None, 0.85)
  | _ => (None, 0.85)
  end.

(** The outer [option] is [None] when the call does not return (the
    simplifier ran out of [fuel]); the inner one is the [DetectedShape | null]
    of the code. *)
Definition classifyShape (fuel : nat) (contour : Contour) (metrics : Metrics)
  : option (option DetectedShape) :=
  let circularity := circularityOf metrics in
  if xgtb circularity (Fin 0.80) then
    Some (Some (mkShape circle (fin (xmin circularity (Fin 0.99))) metrics))
  else
    let solidity := solidityOf contour metrics in
    let epsilon := 0.06 * perimeter metrics in
    match simplifyContour fuel contour epsilon with
    | None => None
    | Some vertices =>
      let numVertices := correctedCount vertices in
      if gtb (aspectRatioOf metrics) 5.0 then Some None
      else
        match polygonType numVertices solidity with
        | (Some type, confidence) => Some (Some (mkShape type confidence metrics))
        | (None, _) => Some None
        end
    end.

(** ** analyzeContours *)

Record ContourMetrics : Type :=
  mkCM { cmContour : Contour; cmMetrics : Metrics }.

(** Array elements paired with their positions: two entries of an array are
    the same object exactly when they sit at the same position. *)
Definition indexed {A : Type} (l : list A) : list (nat * A) :=
  combine (seq 0 (length l)) l.

(** Pass 1: metrics of every contour, those with area below 50 skipped. *)
Definition contourMetricsOf (contours : list Contour) : list ContourMetrics :=
  filter (fun cm => negb (ltb (area (cmMetrics cm)) 50))
         (map (fun contour => mkCM contour (calculateMetrics contour)) contours).

(** The test made on [cm2] inside the inner loop for [cm1] at position [i]. *)
Definition shadows (i : nat) (cm1 : ContourMetrics) (jcm2 : nat * ContourMetrics) : bool :=
  let c1 := center (cmMetrics cm1) in
  let c2 := center (cmMetrics (snd jcm2)) in
  negb (Nat.eqb i (fst jcm2))
  && ltb (sqrt ((px c1 - px c2) ^ 2 + (py c1 - py c2) ^ 2)) 15
  && gtb (area (cmMetrics (snd jcm2))) (area (cmMetrics cm1)).

Definition isInnerContour (contourMetrics : list ContourMetrics)
           (i : nat) (cm1 : ContourMetrics) : bool :=
  existsb (shadows i cm1) (indexed contourMetrics).

(** Pass 2: the [filter] that drops inner contours. *)
Definition outerContoursMetrics (contourMetrics : list ContourMetrics)
  : list ContourMetrics :=
  map snd
      (filter (fun icm => negb (isInnerContour contourMetrics (fst icm) (snd icm)))
              (indexed contourMetrics)).

(** Pass 3: classification, in order. *)
Fixpoint classifyAll (fuel : nat) (cms : list ContourMetrics)
  : option (list DetectedShape) :=
  match cms with
  | [] => Some []
  | cm :: rest =>
    match classifyShape fuel (cmContour cm) (cmMetrics cm) with
    | None => None
    | Some shape =>
      match classifyAll fuel rest with
      | None => None
      | Some shapes =>
        Some (match shape with Some s => s :: shapes | None => shapes end)
      end
    end
  end.

Definition analyzeContours (fuel : nat) (contours : list Contour)
  : option (list DetectedShape) :=
  classifyAll fuel (outerContoursMetrics (contourMetricsOf contours)).

(** ** traceContour *)

Module Tracer.

Import String.StringSyntax.
Local Open Scope string_scope.
Open Scope Z_scope.

(** A pixel position: a [Point] with integer coordinates. *)
Record GridPoint : Type := mkGP { gx : Z; gy : Z }.

Definition Grid : Type := list (list Z).

(** What reading [grid[y][x]] gives. *)
Inductive Cell : Type :=
| RowMissing          (* [grid[y]] is undefined: the read throws *)
| Undefined           (* the row has no such column *)
| Val (v : Z).

Definition readCell (grid : Grid) (x y : Z) : Cell :=
  match nth_error grid (Z.to_nat y) with
  | None => RowMissing
  | Some row =>
    match nth_error row (Z.to_nat x) with
    | None => Undefined
    | Some v => Val v
    end
  end.

Fixpoint setNth {A : Type} (n : nat) (v : A) (l : list A) : list A :=
  match l, n with
  | [], _ => []
  | _ :: rest, O => v :: rest
  | a :: rest, S n' => a :: setNth n' v rest
  end.

(** [grid[y][x] = v], for a position that exists. *)
Definition writeCell (grid : Grid) (x y : Z) (v : Z) : Grid :=
  match nth_error grid (Z.to_nat y) with
  | None => grid
  | Some row => setNth (Z.to_nat y) (setNth (Z.to_nat x) v row) grid
  end.

(** Clockwise from East: E, SE, S, SW, W, NW, N, NE. *)
Definition neighbors : list (Z * Z) :=
  [(1, 0); (1, 1); (0, 1); (-1, 1); (-1, 0); (-1, -1); (0, -1); (1, -1)].

Definition MAX_TRACE : nat := Z.to_nat 20000.

Definition maxTraceMessage : String.string :=
  "Error: Max trace length exceeded.".

(** How the scan of the eight neighbours ends. *)
Inductive Scan : Type :=
| Closed                                  (* the start pixel was met: [return contour] *)
| Next (p : GridPoint) (neighborIndex : nat)  (* a pixel was accepted: [break] *)
| DeadEnd                                 (* [foundNext] stayed false *)
| Throws.                                 (* a read of a missing row *)

(** The [for] loop over [i], for the values of [i] in [indices]. *)
Fixpoint scanNeighbors (width height : Z) (grid : Grid)
         (startPoint currentPoint : GridPoint) (searchStartIndex : nat)
         (indices : list nat) : Scan :=
  match indices with
  | [] => DeadEnd
  | i :: rest =>
    let neighborIndex := ((searchStartIndex + i) mod length neighbors)%nat in
    let neighbor := nth neighborIndex neighbors (0, 0) in
    let nextX := gx currentPoint + fst neighbor in
    let nextY := gy currentPoint + snd neighbor in
    if (nextX <? 0) || (nextX >=? width) || (nextY <? 0) || (nextY >=? height) then
      scanNeighbors width height grid startPoint currentPoint searchStartIndex rest
    else if (nextX =? gx startPoint) && (nextY =? gy startPoint) then Closed
    else
      match readCell grid nextX nextY with
      | RowMissing => Throws
      | Val v =>
        if (v =? 255) || (v =? 128) then Next (mkGP nextX nextY) neighborIndex
        else scanNeighbors width height grid startPoint currentPoint searchStartIndex rest
      | Undefined =>
        scanNeighbors width height grid startPoint currentPoint searchStartIndex rest
      end
  end.

(** What a call leaves behind: the returned contour, the grid as mutated,
    what was written to the console, and how many times the body of the
    [while] loop was entered. *)
Record Trace : Type :=
  mkTrace { contour : list GridPoint; grid' : Grid;
            console : list String.string; iterations : nat }.

(** The [while] loop.  [remaining] is [MAX_TRACE - traceCount]: the number
    of times the loop test can still succeed.  When it is 0 the test fails,
    [traceCount] is then [MAX_TRACE + 1], so the check after the loop writes
    the diagnostic. *)
Fixpoint walk (width height : Z) (startPoint : GridPoint) (remaining : nat)
         (contour : list GridPoint) (grid : Grid)
         (currentPoint : GridPoint) (searchStartIndex : nat) (entered : nat)
  : option Trace :=
  match remaining with
  | O => Some (mkTrace contour grid [maxTraceMessage] entered)
  | S remaining' =>
    match scanNeighbors width height grid startPoint currentPoint searchStartIndex
                        (seq 0 (length neighbors)) with
    | Throws => None
    | Closed => Some (mkTrace contour grid [] (S entered))
    | DeadEnd => Some (mkTrace contour grid [] (S entered))
    | Next nextPoint neighborIndex =>
      let grid1 :=
        match readCell grid (gx nextPoint) (gy nextPoint) with
        | Val v =>
          if v =? 255 then writeCell grid (gx nextPoint) (gy nextPoint) 128
          else grid
        | _ => grid
        end in
      walk width height startPoint remaining'
           (contour ++ [nextPoint]) grid1 nextPoint
           ((neighborIndex + 5) mod 8)%nat (S entered)
    end
  end.

(** [None] is a call that throws. *)
Definition traceContour (width height : Z) (startPoint : GridPoint) (grid : Grid)
  : option Trace :=
  walk width height startPoint MAX_TRACE [startPoint] grid startPoint 4%nat 0%nat.

(** A grid of [height] rows of [width] cells, as [findContours] gets it. *)
Definition wellFormed (width height : Z) (grid : Grid) : Prop :=
  Z.of_nat (length grid) = height /\
  Forall (fun row => Z.of_nat (length row) = width) grid.

Definition inBounds (width height : Z) (p : GridPoint) : Prop :=
  0 <= gx p < width /\ 0 <= gy p < height.

(** The cell holds an edge pixel, new (255) or already walked over (128). *)
Definition edgeOrVisited (grid : Grid) (p : GridPoint) : Prop :=
  readCell grid (gx p) (gy p) = Val 255 \/ readCell grid (gx p) (gy p) = Val 128.

(** What the scan may accept as the next pixel: a pixel of the grid other
    than the start pixel that holds an edge value. *)
Definition accepted (width height : Z) (grid : Grid) (startPoint p : GridPoint) : Prop :=
  p <> startPoint /\ inBounds width height p /\ edgeOrVisited grid p.

(** A three-pixel horizontal stroke on a 5 x 3 grid, its left end already
    marked by the scan that found it. *)
Definition strokeGrid : Grid :=
  [ [0; 0; 0; 0; 0];
    [0; 128; 255; 255; 0];
    [0; 0; 0; 0; 0] ].

End Tracer.

(** ** Transformations of a contour, for stating invariance *)

Definition translate (dx dy : R) (contour : Contour) : Contour :=
  map (fun p => mkPoint (px p + dx) (py p + dy)) contour.

Definition scale (k : R) (contour : Contour) : Contour :=
  map (fun p => mkPoint (k * px p) (k * py p)) contour.

(** A contour as the detector builds them: whole-number coordinates, none
    larger than 100000 in size, and at most 20001 points (the start pixel and
    the 20000 the tracer can append).  The code computes in binary64.  On
    such a contour every product, difference and sum behind the area, the
    box and the coordinate sums of the center is a whole number below
    [2^53], which binary64 holds exactly; so for these quantities the real
    numbers of this file and the doubles of the code agree. *)
Definition wholeCoordinates (contour : Contour) : Prop :=
  Forall (fun p => exists x y : Z,
              px p = IZR x /\ py p = IZR y
              /\ (Z.abs x <= 100000)%Z /\ (Z.abs y <= 100000)%Z) contour
  /\ (Z.of_nat (length contour) <= 20001)%Z.

(** The successor of each point in the closed contour: the list rotated by
    one, which is what [contour[(i + 1) % contour.length]] ranges over. *)
Definition rot {A : Type} (l : list A) : list A := tl l ++ firstn 1 l.

Definition Rsum (l : list R) : R := fold_right Rplus 0 l.

(** The segment from (0,0) to (1,0), walked there and back. *)
Definition unitSegment : Contour := [mkPoint 0 0; mkPoint 1 0].

(** ** Vocabulary for the bounding box *)

(** [m] is a finite lower bound of [v]. *)
Definition boundsBelow (m : xnum) (v : R) : Prop :=
  match m with Fin r => r <= v | _ => False end.

(** [m] is a finite upper bound of [v]. *)
Definition boundsAbove (m : xnum) (v : R) : Prop :=
  match m with Fin r => v <= r | _ => False end.

(** A running minimum is the sentinel or finite; so is a running maximum. *)
Definition minimumOk (m : xnum) : Prop :=
  match m with PosInf | Fin _ => True | _ => False end.

Definition maximumOk (m : xnum) : Prop :=
  match m with NegInf | Fin _ => True | _ => False end.

(** The extents of [a] enclose the point [p]. *)
Definition encloses (a : MetricsAcc) (p : Point) : Prop :=
  boundsBelow (minX a) (px p) /\ boundsBelow (minY a) (py p)
  /\ boundsAbove (maxX a) (px p) /\ boundsAbove (maxY a) (py p).

Definition extentsOk (a : MetricsAcc) : Prop :=
  minimumOk (minX a) /\ minimumOk (minY a)
  /\ maximumOk (maxX a) /\ maximumOk (maxY a).

(** ** Vocabulary for the simplifier *)

(** [subseq l1 l2]: the elements of [l1] occur in [l2], in the same order. *)
Inductive subseq {A : Type} : list A -> list A -> Prop :=
| subseq_nil : subseq [] []
| subseq_skip (x : A) (l1 l2 : list A) : subseq l1 l2 -> subseq l1 (x :: l2)
| subseq_keep (x : A) (l1 l2 : list A) : subseq l1 l2 -> subseq (x :: l1) (x :: l2).

(** The search loop of the simplifier seen on the interior points alone:
    [f] is the distance to the chord, [i] the index of the head of [l],
    [s] the pair [(dmax, index)] so far. *)
Fixpoint argmaxFrom (f : Point -> R) (l : list Point) (i : nat) (s : R * nat) : R * nat :=
  match l with
  | [] => s
  | p :: rest => argmaxFrom f rest (S i) (if gtb (f p) (fst s) then (f p, i) else s)
  end.

(** What the simplifier computes, as a relation between the input and the
    output: a list of fewer than three points is returned as it is; if no
    interior point is farther than [epsilon] from the chord only the two ends
    remain; otherwise the list is cut at the first interior point [c] of
    maximal distance and the two halves are simplified. *)
Inductive Simplified (epsilon : R) : list Point -> list Point -> Prop :=
| Simplified_short (points : list Point) :
    (length points < 3)%nat ->
    Simplified epsilon points points
| Simplified_chord (a b : Point) (interior : list Point) :
    interior <> [] ->
    Forall (fun p => perpendicularDistance p a b <= epsilon) interior ->
    Simplified epsilon (a :: interior ++ [b]) [a; b]
| Simplified_split (a b c : Point) (l1 l2 m1 m2 : list Point) :
    epsilon < perpendicularDistance c a b ->
    Forall (fun p => perpendicularDistance p a b < perpendicularDistance c a b) l1 ->
    Forall (fun p => perpendicularDistance p a b <= perpendicularDistance c a b) l2 ->
    Simplified epsilon (a :: l1 ++ [c]) (a :: m1 ++ [c]) ->
    Simplified epsilon (c :: l2 ++ [b]) (c :: m2 ++ [b]) ->
    Simplified epsilon (a :: (l1 ++ c :: l2) ++ [b]) (a :: (m1 ++ c :: m2) ++ [b]).

(** Length of the polyline through the numbers [xs], in order. *)
Fixpoint pathLength (xs : list R) : R :=
  match xs with
  | x :: ((y :: _) as rest) => Rabs (y - x) + pathLength rest
  | _ => 0
  end.

(** Distance from [x] to the interval between [a] and [b] on the number
    line, by the same case analysis as [perpendicularDistance]. *)
Definition chordDistance1 (x a b : R) : R :=
  if eqb (b - a) 0 then Rabs (x - a)
  else
    let t := (x - a) / (b - a) in
    if ltb t 0 then Rabs (x - a)
    else if gtb t 1 then Rabs (x - b)
    else 0.

(** Three points on a line. *)
Definition collinear3 : list Point := [mkPoint 0 0; mkPoint 1 0; mkPoint 2 0].

(** Four points on a line. *)
Definition collinear4 : list Point :=
  [mkPoint 0 0; mkPoint 0 1; mkPoint 0 2; mkPoint 0 3].

(** ** Sample inputs for the classifier *)

(** A right triangle with legs 40 and 30. *)
Definition triangleContour : Contour := [mkPoint 0 0; mkPoint 40 0; mkPoint 0 30].

(** Its metrics: area 600, perimeter 120, a 40 x 30 box. *)
Definition triangleMetrics : Metrics :=
  mkMetrics 600 120 (mkBox 0 0 40 30) (mkPoint (40 / 3) 10).

(** The same metrics with a box of width 3 and height 0. *)
Definition flatBoxMetrics : Metrics :=
  mkMetrics 600 120 (mkBox 0 0 3 0) (mkPoint (40 / 3) 10).

(** A disc-like record: area 1, perimeter 1. *)
Definition roundMetrics : Metrics :=
  mkMetrics 1 1 (mkBox 0 0 1 1) (mkPoint 0 0).

(** The triangle's metrics with a 60 x 10 box. *)
Definition elongatedMetrics : Metrics :=
  mkMetrics 600 120 (mkBox 0 0 60 10) (mkPoint (40 / 3) 10).

(** The ratio as the specification words it, with nothing replacing a zero
    divisor: [max(width / height, height / width)]. *)
Definition unguardedAspectRatio (metrics : Metrics) : xnum :=
  let width := bwidth (boundingBox metrics) in
  let height := bheight (boundingBox metrics) in
  xmax (div width height) (div height width).

(** ** Sample inputs for the contour filter *)

(** Three axis-parallel squares in a row: sides 8, 10 and 12, centers
    (0,0), (10,0) and (20,0). *)
Definition squareA : Contour :=
  [mkPoint (-4) (-4); mkPoint 4 (-4); mkPoint 4 4; mkPoint (-4) 4].

Definition squareB : Contour :=
  [mkPoint 5 (-5); mkPoint 15 (-5); mkPoint 15 5; mkPoint 5 5].

Definition squareC : Contour :=
  [mkPoint 14 (-6); mkPoint 26 (-6); mkPoint 26 6; mkPoint 14 6].

(** Distance between the centers of two entries, as the filter computes it. *)
Definition centerDistance (cm1 cm2 : ContourMetrics) : R :=
  let c1 := center (cmMetrics cm1) in
  let c2 := center (cmMetrics cm2) in
  sqrt ((px c1 - px c2) ^ 2 + (py c1 - py c2) ^ 2).

(** The entries the filter keeps, with their positions. *)
Definition keptEntries (contourMetrics : list ContourMetrics)
  : list (nat * ContourMetrics) :=
  filter (fun icm => negb (isInnerContour contourMetrics (fst icm) (snd icm)))
         (indexed contourMetrics).

(** ** findContours *)

Module Scanner.

Import Tracer.
Open Scope Z_scope.

(** What [findContours] leaves behind: the contours it kept, the grid as
    mutated, and what the traces wrote to the console. *)
Record Scanned : Type :=
  mkScanned { found : list (list GridPoint); gridAfter : Grid;
              logged : list String.string }.

(** [0, 1, ..., n - 1], the values a loop [for (let i = 0; i < n; i++)]
    takes. *)
Definition range (n : Z) : list Z := map Z.of_nat (seq 0 (Z.to_nat n)).

(** The pixels in the order the two nested loops visit them: row by row,
    each row from left to right.  A pair is [(x, y)]. *)
Definition positions (width height : Z) : list (Z * Z) :=
  flat_map (fun y => map (fun x => (x, y)) (range width)) (range height).

(** The body of the inner loop at the pixel [p]; [None] is a thrown error. *)
Definition scanCell (width height : Z) (state : option Scanned) (p : Z * Z)
  : option Scanned :=
  match state with
  | None => None
  | Some s =>
    match readCell (gridAfter s) (fst p) (snd p) with
    | RowMissing => None
    | Undefined => Some s
    | Val v =>
      if v =? 255 then
        let grid1 := writeCell (gridAfter s) (fst p) (snd p) 128 in
        match traceContour width height (mkGP (fst p) (snd p)) grid1 with
        | None => None
        | Some t =>
          Some (mkScanned
                  (if (30 <? length (contour t))%nat
                   then found s ++ [contour t] else found s)
                  (grid' t)
                  (logged s ++ console t))
        end
      else Some s
    end
  end.

Definition findContours (width height : Z) (grid : Grid) : option Scanned :=
  fold_left (scanCell width height) (positions width height)
            (Some (mkScanned [] grid [])).

(** Two pixels that touch, by a side or by a corner. *)
Definition adjacent (p q : GridPoint) : Prop :=
  p <> q /\ Z.abs (gx q - gx p) <= 1 /\ Z.abs (gy q - gy p) <= 1.

(** Each point of the list touches the next one. *)
Fixpoint chained (l : list GridPoint) : Prop :=
  match l with
  | p :: ((q :: _) as rest) => adjacent p q /\ chained rest
  | _ => True
  end.

(** [grid2] is [grid1] with some of its 255 cells turned to 128. *)
Definition consumes (width height : Z) (grid1 grid2 : Grid) : Prop :=
  forall p, inBounds width height p ->
    readCell grid2 (gx p) (gy p) = readCell grid1 (gx p) (gy p)
    \/ (readCell grid1 (gx p) (gy p) = Val 255
        /\ readCell grid2 (gx p) (gy p) = Val 128).

(** A grid that holds nothing but 0 and 255, as the edge detector makes it. *)
Definition binary (grid : Grid) : Prop :=
  Forall (Forall (fun v => v = 0 \/ v = 255)) grid.

(** A ring of eight edge pixels around (2,2) on a 5 x 5 grid. *)
Definition ringGrid : Grid :=
  [ [0; 0; 0; 0; 0];
    [0; 255; 255; 255; 0];
    [0; 255; 0; 255; 0];
    [0; 255; 255; 255; 0];
    [0; 0; 0; 0; 0] ].

End Scanner.

(** ** createGrayscaleGrid and applySobelEdgeDetection *)

Module Imaging.

Import Tracer Scanner.
Local Open Scope R_scope.

(** An [ImageData]: four bytes (R, G, B, A) per pixel, row by row.  The
    browser makes [data] hold [4 * width * height] bytes, each from 0 to
    255; reads below stay inside it. *)
Record ImageData : Type :=
  mkImage { imageWidth : Z; imageHeight : Z; data : list Z }.

Definition wellFormedImage (img : ImageData) : Prop :=
  (0 <= imageWidth img)%Z /\ (0 <= imageHeight img)%Z
  /\ Z.of_nat (length (data img)) = (4 * imageWidth img * imageHeight img)%Z
  /\ Forall (fun v => (0 <= v <= 255)%Z) (data img).

(** The largest integer not above [x]. *)
Definition floorR (x : R) : Z := (up x - 1)%Z.

(** [Math.round]: the nearest integer, halves going up. *)
Definition round (x : R) : R := IZR (floorR (x + 0.5)).

(** [data[index]] as a number. *)
Definition channel (img : ImageData) (index : Z) : R :=
  IZR (nth (Z.to_nat index) (data img) 0%Z).

(** The body of the inner loop of [createGrayscaleGrid] at [(x, y)]. *)
Definition grayAt (img : ImageData) (x y : Z) : R :=
  let index := ((y * imageWidth img + x) * 4)%Z in
  let r := channel img index in
  let g := channel img (index + 1)%Z in
  let b := channel img (index + 2)%Z in
  let gray := 0.299 * r + 0.587 * g + 0.114 * b in
  round gray.

Definition createGrayscaleGrid (img : ImageData) : list (list R) :=
  map (fun y => map (fun x => grayAt img x y) (range (imageWidth img)))
      (range (imageHeight img)).

(** [grid[y]?.[x] ?? 0]: a missing row or column reads as 0. *)
Definition pixelAt (grid : list (list R)) (y x : Z) : R :=
  if ((y <? 0) || (x <? 0))%Z then 0
  else
    match nth_error grid (Z.to_nat y) with
    | None => 0
    | Some row =>
      match nth_error row (Z.to_nat x) with
      | None => 0
      | Some v => v
      end
    end.

Definition kernelX : list (list R) := [[-1; 0; 1]; [-2; 0; 2]; [-1; 0; 1]].
Definition kernelY : list (list R) := [[-1; -2; -1]; [0; 0; 0]; [1; 2; 1]].

(** [kernel[ky + 1][kx + 1]]. *)
Definition kernelAt (kernel : list (list R)) (ky kx : Z) : R :=
  nth (Z.to_nat (kx + 1)) (nth (Z.to_nat (ky + 1)) kernel []) 0.

(** The pairs [(ky, kx)] in the order of the two inner loops. *)
Definition kernelOffsets : list (Z * Z) :=
  [(-1, -1); (-1, 0); (-1, 1); (0, -1); (0, 0); (0, 1); (1, -1); (1, 0); (1, 1)]%Z.

(** One step of the accumulation of [(gx, gy)]. *)
Definition gradientStep (grid : list (list R)) (x y : Z) (acc : R * R) (k : Z * Z)
  : R * R :=
  let pixelVal := pixelAt grid (y + fst k) (x + snd k) in
  (fst acc + pixelVal * kernelAt kernelX (fst k) (snd k),
   snd acc + pixelVal * kernelAt kernelY (fst k) (snd k)).

Definition gradient (grid : list (list R)) (x y : Z) : R * R :=
  fold_left (gradientStep grid x y) kernelOffsets (0, 0).

(** [magnitude > 128 ? 255 : 0]. *)
Definition edgeValue (grid : list (list R)) (x y : Z) : Z :=
  let g := gradient grid x y in
  let magnitude := sqrt (fst g * fst g + snd g * snd g) in
  if gtb magnitude 128 then 255%Z else 0%Z.

(** [1, ..., n - 2], the values of [for (let i = 1; i < n - 1; i++)]. *)
Definition interior (n : Z) : list Z := map Z.of_nat (seq 1 (Z.to_nat (n - 2))).

Definition interiorPositions (width height : Z) : list (Z * Z) :=
  flat_map (fun y => map (fun x => (x, y)) (interior width)) (interior height).

(** [Array.from({ length: height }, () => Array(width).fill(0))]. *)
Definition zeroGrid (width height : Z) : Grid :=
  repeat (repeat 0%Z (Z.to_nat width)) (Z.to_nat height).

Definition applySobelEdgeDetection (width height : Z) (grid : list (list R)) : Grid :=
  fold_left (fun edgeGrid p => writeCell edgeGrid (fst p) (snd p)
                                         (edgeValue grid (fst p) (snd p)))
            (interiorPositions width height)
            (zeroGrid width height).

(** A gray grid of [height] rows of [width] values. *)
Definition wellFormedGray (width height : Z) (grid : list (list R)) : Prop :=
  Z.of_nat (length grid) = height
  /\ Forall (fun row => Z.of_nat (length row) = width) grid.

(** The pixel is not on the one-pixel border. *)
Definition isInterior (width height : Z) (p : GridPoint) : Prop :=
  (1 <= gx p < width - 1)%Z /\ (1 <= gy p < height - 1)%Z.

(** Every gray value raised by [c]. *)
Definition brighten (c : R) (grid : list (list R)) : list (list R) :=
  map (map (fun v => v + c)) grid.

(** A 3 x 3 image, black but for a white center. *)
Definition dotImage : ImageData :=
  mkImage 3 3
    [ 0; 0; 0; 255;     0; 0; 0; 255;         0; 0; 0; 255;
      0; 0; 0; 255;     255; 255; 255; 255;   0; 0; 0; 255;
      0; 0; 0; 255;     0; 0; 0; 255;         0; 0; 0; 255 ]%Z.

End Imaging.

(** ** detectShapes *)

(** A pixel position as a point of a contour. *)
Definition toPoint (p : Tracer.GridPoint) : Point :=
  mkPoint (IZR (Tracer.gx p)) (IZR (Tracer.gy p)).

(** The four computing steps of [detectShapes]; drawing on the canvas and
    reading the clock are left out.  The result is the list of shapes with
    the width and the height of the image; [None] is a run that throws or
    does not return within [fuel]. *)
Definition detectShapes (fuel : nat) (img : Imaging.ImageData)
  : option (list DetectedShape * Z * Z) :=
  let width := Imaging.imageWidth img in
  let height := Imaging.imageHeight img in
  let grayGrid := Imaging.createGrayscaleGrid img in
  let edgeGrid := Imaging.applySobelEdgeDetection width height grayGrid in
  match Scanner.findContours width height edgeGrid with
  | None => None
  | Some scanned =>
    match analyzeContours fuel (map (map toPoint) (Scanner.found scanned)) with
    | None => None
    | Some shapes => Some (shapes, width, height)
    end
  end.

(** ** Whole-number readings *)

(** The gray values of an image are whole numbers and so are the pixel
    positions of a contour.  On whole numbers the edge test, the area and
    a bound on the perimeter can be computed in [Z]; the definitions below
    are those computations, and [WholeFacts] ties each to the definition it
    reads. *)
Module Whole.

Import Tracer Scanner Imaging.
Local Open Scope Z_scope.

(** [grid[y]?.[x] ?? 0] on a grid of whole numbers. *)
Definition pixelAtZ (grid : list (list Z)) (y x : Z) : Z :=
  if (y <? 0) || (x <? 0) then 0
  else
    match nth_error grid (Z.to_nat y) with
    | None => 0
    | Some row =>
      match nth_error row (Z.to_nat x) with
      | None => 0
      | Some v => v
      end
    end.

Definition kernelXZ : list (list Z) := [[-1; 0; 1]; [-2; 0; 2]; [-1; 0; 1]].
Definition kernelYZ : list (list Z) := [[-1; -2; -1]; [0; 0; 0]; [1; 2; 1]].

Definition kernelAtZ (kernel : list (list Z)) (ky kx : Z) : Z :=
  nth (Z.to_nat (kx + 1)) (nth (Z.to_nat (ky + 1)) kernel []) 0.

Definition gradientStepZ (grid : list (list Z)) (x y : Z) (acc : Z * Z) (k : Z * Z)
  : Z * Z :=
  let pixelVal := pixelAtZ grid (y + fst k) (x + snd k) in
  (fst acc + pixelVal * kernelAtZ kernelXZ (fst k) (snd k),
   snd acc + pixelVal * kernelAtZ kernelYZ (fst k) (snd k)).

Definition gradientZ (grid : list (list Z)) (x y : Z) : Z * Z :=
  fold_left (gradientStepZ grid x y) kernelOffsets (0, 0).

(** [Math.sqrt(gx * gx + gy * gy) > 128] read as [gx * gx + gy * gy > 128 * 128]. *)
Definition edgeValueZ (grid : list (list Z)) (x y : Z) : Z :=
  let g := gradientZ grid x y in
  if fst g * fst g + snd g * snd g >? 16384 then 255 else 0.

Definition applySobelZ (width height : Z) (grid : list (list Z)) : Grid :=
  fold_left (fun edgeGrid p => writeCell edgeGrid (fst p) (snd p)
                                         (edgeValueZ grid (fst p) (snd p)))
            (interiorPositions width height)
            (zeroGrid width height).

(** The sum under [Math.abs(area / 2)] for a contour of pixel positions. *)
Definition shoelaceZ (contour : list GridPoint) : Z :=
  fold_right Z.add 0
             (map (fun pq => gx (fst pq) * gy (snd pq) - gx (snd pq) * gy (fst pq))
                  (combine contour (rot contour))).

(** The square of the distance between two pixel positions. *)
Definition squaredStep (p q : GridPoint) : Z :=
  (gx q - gx p) * (gx q - gx p) + (gy q - gy p) * (gy q - gy p).

(** An upper bound, in ten-thousandths, of the distance between two pixel
    positions: exact for a step along a side, 1.4143 for a step across a
    corner, the squared distance for the others. *)
Definition stepUpper (p q : GridPoint) : Z :=
  let s := squaredStep p q in
  if s =? 0 then 0
  else if s =? 1 then 10000
  else if s =? 2 then 14143
  else 10000 * s.

(** An upper bound, in ten-thousandths, of the perimeter of a contour of
    pixel positions. *)
Definition perimeterUpper (contour : list GridPoint) : Z :=
  fold_right Z.add 0
             (map (fun pq => stepUpper (fst pq) (snd pq))
                  (combine contour (rot contour))).

(** An opaque image whose pixels have red, green and blue all equal to the
    given gray value. *)
Definition grayImage (width height : Z) (gray : list (list Z)) : ImageData :=
  mkImage width height (flat_map (fun v => [v; v; v; 255]) (concat gray)).

(** The red channel of every pixel, row by row, and whether each pixel has
    its three colour channels equal. *)
Definition byteAt (img : ImageData) (index : Z) : Z :=
  nth (Z.to_nat index) (data img) 0%Z.

Definition redGrid (img : ImageData) : list (list Z) :=
  map (fun y => map (fun x => byteAt img ((y * imageWidth img + x) * 4))
                    (range (imageWidth img)))
      (range (imageHeight img)).

Definition neutralAt (img : ImageData) (x y : Z) : bool :=
  let index := ((y * imageWidth img + x) * 4)%Z in
  ((byteAt img (index + 1) =? byteAt img index)
   && (byteAt img (index + 2) =? byteAt img index))%Z.

Definition neutral (img : ImageData) : bool :=
  forallb (fun y => forallb (fun x => neutralAt img x y) (range (imageWidth img)))
          (range (imageHeight img)).

(** The sum of the [x] and of the [y] of a contour of pixel positions. *)
Definition sumGX (contour : list GridPoint) : Z := fold_right Z.add 0 (map gx contour).
Definition sumGY (contour : list GridPoint) : Z := fold_right Z.add 0 (map gy contour).

(** The least and the greatest of a list of whole numbers. *)
Definition lowest (l : list Z) : Z := fold_right Z.min (hd 0 l) l.
Definition highest (l : list Z) : Z := fold_right Z.max (hd 0 l) l.

(** A lower bound, in ten-thousandths, of the distance between two pixel
    positions: two different positions are at least 1 apart. *)
Definition stepLower (p q : GridPoint) : Z :=
  if squaredStep p q =? 0 then 0 else 10000.

Definition perimeterLower (contour : list GridPoint) : Z :=
  fold_right Z.add 0
             (map (fun pq => stepLower (fst pq) (snd pq))
                  (combine contour (rot contour))).

(** A 40 x 26 scene, white on black: a disc of radius 5 and, below it, a
    bar 30 wide and 3 high. *)
Definition sceneGray : list (list Z) :=
  [
    [0; 0; 0; 0; 0; 0; 0; 0; 0; 0; 0; 0; 0; 0; 0; 0; 0; 0; 0; 0;
     0; 0; 0; 0; 0; 0; 0; 0; 0; 0; 0; 0; 0; 0; 0; 0; 0; 0; 0; 0];
    [0; 0; 0; 0; 0; 0; 0; 0; 0; 0; 0; 0; 0; 0; 0; 0; 0; 0; 0; 0;
     0; 0; 0; 0; 0; 0; 0; 0; 0; 0; 0; 0; 0; 0; 0; 0; 0; 0; 0; 0];
    [0; 0; 0; 0; 0; 0; 0; 0; 0; 0; 0; 0; 0; 0; 0; 0; 0; 0; 0; 0;
     0; 0; 0; 0; 0; 0; 0; 0; 0; 0; 0; 0; 0; 0; 0; 0; 0; 0; 0; 0];
    [0; 0; 0; 0; 0; 0; 255; 255; 255; 255; 0; 0; 0; 0; 0; 0; 0; 0; 0; 0;
     0; 0; 0; 0; 0; 0; 0; 0; 0; 0; 0; 0; 0; 0; 0; 0; 0; 0; 0; 0];
    [0; 0; 0; 0; 255; 255; 255; 255; 255; 255; 255; 255; 0; 0; 0; 0; 0; 0; 0; 0;
     0; 0; 0; 0; 0; 0; 0; 0; 0; 0; 0; 0; 0; 0; 0; 0; 0; 0; 0; 0];
    [0; 0; 0; 0; 255; 255; 255; 255; 255; 255; 255; 255; 0; 0; 0; 0; 0; 0; 0; 0;
     0; 0; 0; 0; 0; 0; 0; 0; 0; 0; 0; 0; 0; 0; 0; 0; 0; 0; 0; 0];
    [0; 0; 0; 255; 255; 255; 255; 255; 255; 255; 255; 255; 255; 0; 0; 0; 0; 0; 0; 0;
     0; 0; 0; 0; 0; 0; 0; 0; 0; 0; 0; 0; 0; 0; 0; 0; 0; 0; 0; 0];
    [0; 0; 0; 255; 255; 255; 255; 255; 255; 255; 255; 255; 255; 0; 0; 0; 0; 0; 0; 0;
     0; 0; 0; 0; 0; 0; 0; 0; 0; 0; 0; 0; 0; 0; 0; 0; 0; 0; 0; 0];
    [0; 0; 0; 255; 255; 255; 255; 255; 255; 255; 255; 255; 255; 0; 0; 0; 0; 0; 0; 0;
     0; 0; 0; 0; 0; 0; 0; 0; 0; 0; 0; 0; 0; 0; 0; 0; 0; 0; 0; 0];
    [0; 0; 0; 255; 255; 255; 255; 255; 255; 255; 255; 255; 255; 0; 0; 0; 0; 0; 0; 0;
     0; 0; 0; 0; 0; 0; 0; 0; 0; 0; 0; 0; 0; 0; 0; 0; 0; 0; 0; 0];
    [0; 0; 0; 0; 255; 255; 255; 255; 255; 255; 255; 255; 0; 0; 0; 0; 0; 0; 0; 0;
     0; 0; 0; 0; 0; 0; 0; 0; 0; 0; 0; 0; 0; 0; 0; 0; 0; 0; 0; 0];
    [0; 0; 0; 0; 255; 255; 255; 255; 255; 255; 255; 255; 0; 0; 0; 0; 0; 0; 0; 0;
     0; 0; 0; 0; 0; 0; 0; 0; 0; 0; 0; 0; 0; 0; 0; 0; 0; 0; 0; 0];
    [0; 0; 0; 0; 0; 0; 255; 255; 255; 255; 0; 0; 0; 0; 0; 0; 0; 0; 0; 0;
     0; 0; 0; 0; 0; 0; 0; 0; 0; 0; 0; 0; 0; 0; 0; 0; 0; 0; 0; 0];
    [0; 0; 0; 0; 0; 0; 0; 0; 0; 0; 0; 0; 0; 0; 0; 0; 0; 0; 0; 0;
     0; 0; 0; 0; 0; 0; 0; 0; 0; 0; 0; 0; 0; 0; 0; 0; 0; 0; 0; 0];
    [0; 0; 0; 0; 0; 0; 0; 0; 0; 0; 0; 0; 0; 0; 0; 0; 0; 0; 0; 0;
     0; 0; 0; 0; 0; 0; 0; 0; 0; 0; 0; 0; 0; 0; 0; 0; 0; 0; 0; 0];
    [0; 0; 0; 0; 0; 0; 0; 0; 0; 0; 0; 0; 0; 0; 0; 0; 0; 0; 0; 0;
     0; 0; 0; 0; 0; 0; 0; 0; 0; 0; 0; 0; 0; 0; 0; 0; 0; 0; 0; 0];
    [0; 0; 0; 0; 0; 0; 0; 0; 0; 0; 0; 0; 0; 0; 0; 0; 0; 0; 0; 0;
     0; 0; 0; 0; 0; 0; 0; 0; 0; 0; 0; 0; 0; 0; 0; 0; 0; 0; 0; 0];
    [0; 0; 0; 0; 0; 0; 0; 0; 0; 0; 0; 0; 0; 0; 0; 0; 0; 0; 0; 0;
     0; 0; 0; 0; 0; 0; 0; 0; 0; 0; 0; 0; 0; 0; 0; 0; 0; 0; 0; 0];
    [0; 0; 0; 0; 0; 0; 0; 0; 0; 0; 0; 0; 0; 0; 0; 0; 0; 0; 0; 0;
     0; 0; 0; 0; 0; 0; 0; 0; 0; 0; 0; 0; 0; 0; 0; 0; 0; 0; 0; 0];
    [0; 0; 0; 0; 0; 0; 0; 0; 0; 0; 0; 0; 0; 0; 0; 0; 0; 0; 0; 0;
     0; 0; 0; 0; 0; 0; 0; 0; 0; 0; 0; 0; 0; 0; 0; 0; 0; 0; 0; 0];
    [0; 0; 0; 255; 255; 255; 255; 255; 255; 255; 255; 255; 255; 255; 255; 255; 255; 255; 255; 255;
     255; 255; 255; 255; 255; 255; 255; 255; 255; 255; 255; 255; 255; 0; 0; 0; 0; 0; 0; 0];
    [0; 0; 0; 255; 255; 255; 255; 255; 255; 255; 255; 255; 255; 255; 255; 255; 255; 255; 255; 255;
     255; 255; 255; 255; 255; 255; 255; 255; 255; 255; 255; 255; 255; 0; 0; 0; 0; 0; 0; 0];
    [0; 0; 0; 255; 255; 255; 255; 255; 255; 255; 255; 255; 255; 255; 255; 255; 255; 255; 255; 255;
     255; 255; 255; 255; 255; 255; 255; 255; 255; 255; 255; 255; 255; 0; 0; 0; 0; 0; 0; 0];
    [0; 0; 0; 0; 0; 0; 0; 0; 0; 0; 0; 0; 0; 0; 0; 0; 0; 0; 0; 0;
     0; 0; 0; 0; 0; 0; 0; 0; 0; 0; 0; 0; 0; 0; 0; 0; 0; 0; 0; 0];
    [0; 0; 0; 0; 0; 0; 0; 0; 0; 0; 0; 0; 0; 0; 0; 0; 0; 0; 0; 0;
     0; 0; 0; 0; 0; 0; 0; 0; 0; 0; 0; 0; 0; 0; 0; 0; 0; 0; 0; 0];
    [0; 0; 0; 0; 0; 0; 0; 0; 0; 0; 0; 0; 0; 0; 0; 0; 0; 0; 0; 0;
     0; 0; 0; 0; 0; 0; 0; 0; 0; 0; 0; 0; 0; 0; 0; 0; 0; 0; 0; 0]
  ].

Definition sceneImage : ImageData := grayImage 40 26 sceneGray.

(** The edges of the scene: around each figure a band two pixels wide. *)
Definition sceneEdges : Grid :=
  [
    [0; 0; 0; 0; 0; 0; 0; 0; 0; 0; 0; 0; 0; 0; 0; 0; 0; 0; 0; 0;
     0; 0; 0; 0; 0; 0; 0; 0; 0; 0; 0; 0; 0; 0; 0; 0; 0; 0; 0; 0];
    [0; 0; 0; 0; 0; 0; 0; 0; 0; 0; 0; 0; 0; 0; 0; 0; 0; 0; 0; 0;
     0; 0; 0; 0; 0; 0; 0; 0; 0; 0; 0; 0; 0; 0; 0; 0; 0; 0; 0; 0];
    [0; 0; 0; 0; 0; 255; 255; 255; 255; 255; 255; 0; 0; 0; 0; 0; 0; 0; 0; 0;
     0; 0; 0; 0; 0; 0; 0; 0; 0; 0; 0; 0; 0; 0; 0; 0; 0; 0; 0; 0];
    [0; 0; 0; 255; 255; 255; 255; 255; 255; 255; 255; 255; 255; 0; 0; 0; 0; 0; 0; 0;
     0; 0; 0; 0; 0; 0; 0; 0; 0; 0; 0; 0; 0; 0; 0; 0; 0; 0; 0; 0];
    [0; 0; 0; 255; 255; 255; 255; 0; 0; 255; 255; 255; 255; 0; 0; 0; 0; 0; 0; 0;
     0; 0; 0; 0; 0; 0; 0; 0; 0; 0; 0; 0; 0; 0; 0; 0; 0; 0; 0; 0];
    [0; 0; 255; 255; 255; 0; 0; 0; 0; 0; 0; 255; 255; 255; 0; 0; 0; 0; 0; 0;
     0; 0; 0; 0; 0; 0; 0; 0; 0; 0; 0; 0; 0; 0; 0; 0; 0; 0; 0; 0];
    [0; 0; 255; 255; 255; 0; 0; 0; 0; 0; 0; 255; 255; 255; 0; 0; 0; 0; 0; 0;
     0; 0; 0; 0; 0; 0; 0; 0; 0; 0; 0; 0; 0; 0; 0; 0; 0; 0; 0; 0];
    [0; 0; 255; 255; 0; 0; 0; 0; 0; 0; 0; 0; 255; 255; 0; 0; 0; 0; 0; 0;
     0; 0; 0; 0; 0; 0; 0; 0; 0; 0; 0; 0; 0; 0; 0; 0; 0; 0; 0; 0];
    [0; 0; 255; 255; 0; 0; 0; 0; 0; 0; 0; 0; 255; 255; 0; 0; 0; 0; 0; 0;
     0; 0; 0; 0; 0; 0; 0; 0; 0; 0; 0; 0; 0; 0; 0; 0; 0; 0; 0; 0];
    [0; 0; 255; 255; 255; 0; 0; 0; 0; 0; 0; 255; 255; 255; 0; 0; 0; 0; 0; 0;
     0; 0; 0; 0; 0; 0; 0; 0; 0; 0; 0; 0; 0; 0; 0; 0; 0; 0; 0; 0];
    [0; 0; 255; 255; 255; 0; 0; 0; 0; 0; 0; 255; 255; 255; 0; 0; 0; 0; 0; 0;
     0; 0; 0; 0; 0; 0; 0; 0; 0; 0; 0; 0; 0; 0; 0; 0; 0; 0; 0; 0];
    [0; 0; 0; 255; 255; 255; 255; 0; 0; 255; 255; 255; 255; 0; 0; 0; 0; 0; 0; 0;
     0; 0; 0; 0; 0; 0; 0; 0; 0; 0; 0; 0; 0; 0; 0; 0; 0; 0; 0; 0];
    [0; 0; 0; 255; 255; 255; 255; 255; 255; 255; 255; 255; 255; 0; 0; 0; 0; 0; 0; 0;
     0; 0; 0; 0; 0; 0; 0; 0; 0; 0; 0; 0; 0; 0; 0; 0; 0; 0; 0; 0];
    [0; 0; 0; 0; 0; 255; 255; 255; 255; 255; 255; 0; 0; 0; 0; 0; 0; 0; 0; 0;
     0; 0; 0; 0; 0; 0; 0; 0; 0; 0; 0; 0; 0; 0; 0; 0; 0; 0; 0; 0];
    [0; 0; 0; 0; 0; 0; 0; 0; 0; 0; 0; 0; 0; 0; 0; 0; 0; 0; 0; 0;
     0; 0; 0; 0; 0; 0; 0; 0; 0; 0; 0; 0; 0; 0; 0; 0; 0; 0; 0; 0];
    [0; 0; 0; 0; 0; 0; 0; 0; 0; 0; 0; 0; 0; 0; 0; 0; 0; 0; 0; 0;
     0; 0; 0; 0; 0; 0; 0; 0; 0; 0; 0; 0; 0; 0; 0; 0; 0; 0; 0; 0];
    [0; 0; 0; 0; 0; 0; 0; 0; 0; 0; 0; 0; 0; 0; 0; 0; 0; 0; 0; 0;
     0; 0; 0; 0; 0; 0; 0; 0; 0; 0; 0; 0; 0; 0; 0; 0; 0; 0; 0; 0];
    [0; 0; 0; 0; 0; 0; 0; 0; 0; 0; 0; 0; 0; 0; 0; 0; 0; 0; 0; 0;
     0; 0; 0; 0; 0; 0; 0; 0; 0; 0; 0; 0; 0; 0; 0; 0; 0; 0; 0; 0];
    [0; 0; 0; 0; 0; 0; 0; 0; 0; 0; 0; 0; 0; 0; 0; 0; 0; 0; 0; 0;
     0; 0; 0; 0; 0; 0; 0; 0; 0; 0; 0; 0; 0; 0; 0; 0; 0; 0; 0; 0];
    [0; 0; 255; 255; 255; 255; 255; 255; 255; 255; 255; 255; 255; 255; 255; 255; 255; 255; 255; 255;
     255; 255; 255; 255; 255; 255; 255; 255; 255; 255; 255; 255; 255; 255; 0; 0; 0; 0; 0; 0];
    [0; 0; 255; 255; 255; 255; 255; 255; 255; 255; 255; 255; 255; 255; 255; 255; 255; 255; 255; 255;
     255; 255; 255; 255; 255; 255; 255; 255; 255; 255; 255; 255; 255; 255; 0; 0; 0; 0; 0; 0];
    [0; 0; 255; 255; 0; 0; 0; 0; 0; 0; 0; 0; 0; 0; 0; 0; 0; 0; 0; 0;
     0; 0; 0; 0; 0; 0; 0; 0; 0; 0; 0; 0; 255; 255; 0; 0; 0; 0; 0; 0];
    [0; 0; 255; 255; 255; 255; 255; 255; 255; 255; 255; 255; 255; 255; 255; 255; 255; 255; 255; 255;
     255; 255; 255; 255; 255; 255; 255; 255; 255; 255; 255; 255; 255; 255; 0; 0; 0; 0; 0; 0];
    [0; 0; 255; 255; 255; 255; 255; 255; 255; 255; 255; 255; 255; 255; 255; 255; 255; 255; 255; 255;
     255; 255; 255; 255; 255; 255; 255; 255; 255; 255; 255; 255; 255; 255; 0; 0; 0; 0; 0; 0];
    [0; 0; 0; 0; 0; 0; 0; 0; 0; 0; 0; 0; 0; 0; 0; 0; 0; 0; 0; 0;
     0; 0; 0; 0; 0; 0; 0; 0; 0; 0; 0; 0; 0; 0; 0; 0; 0; 0; 0; 0];
    [0; 0; 0; 0; 0; 0; 0; 0; 0; 0; 0; 0; 0; 0; 0; 0; 0; 0; 0; 0;
     0; 0; 0; 0; 0; 0; 0; 0; 0; 0; 0; 0; 0; 0; 0; 0; 0; 0; 0; 0]
  ].

(** The outer ring of the band of the disc, clockwise from its first pixel
    in scan order: 36 pixels. *)
Definition discContour : list GridPoint :=
  [
    mkGP 5 2; mkGP 6 2; mkGP 7 2; mkGP 8 2; mkGP 9 2; mkGP 10 2;
    mkGP 11 3; mkGP 12 3; mkGP 12 4; mkGP 13 5; mkGP 13 6; mkGP 13 7;
    mkGP 13 8; mkGP 13 9; mkGP 13 10; mkGP 12 11; mkGP 12 12; mkGP 11 12;
    mkGP 10 13; mkGP 9 13; mkGP 8 13; mkGP 7 13; mkGP 6 13; mkGP 5 13;
    mkGP 4 12; mkGP 3 12; mkGP 3 11; mkGP 2 10; mkGP 2 9; mkGP 2 8;
    mkGP 2 7; mkGP 2 6; mkGP 2 5; mkGP 3 4; mkGP 3 3; mkGP 4 3
  ].

(** The outer ring of the band of the bar: 70 pixels. *)
Definition barOuter : list GridPoint :=
  [
    mkGP 2 19; mkGP 3 19; mkGP 4 19; mkGP 5 19; mkGP 6 19; mkGP 7 19;
    mkGP 8 19; mkGP 9 19; mkGP 10 19; mkGP 11 19; mkGP 12 19; mkGP 13 19;
    mkGP 14 19; mkGP 15 19; mkGP 16 19; mkGP 17 19; mkGP 18 19; mkGP 19 19;
    mkGP 20 19; mkGP 21 19; mkGP 22 19; mkGP 23 19; mkGP 24 19; mkGP 25 19;
    mkGP 26 19; mkGP 27 19; mkGP 28 19; mkGP 29 19; mkGP 30 19; mkGP 31 19;
    mkGP 32 19; mkGP 33 19; mkGP 33 20; mkGP 33 21; mkGP 33 22; mkGP 33 23;
    mkGP 32 23; mkGP 31 23; mkGP 30 23; mkGP 29 23; mkGP 28 23; mkGP 27 23;
    mkGP 26 23; mkGP 25 23; mkGP 24 23; mkGP 23 23; mkGP 22 23; mkGP 21 23;
    mkGP 20 23; mkGP 19 23; mkGP 18 23; mkGP 17 23; mkGP 16 23; mkGP 15 23;
    mkGP 14 23; mkGP 13 23; mkGP 12 23; mkGP 11 23; mkGP 10 23; mkGP 9 23;
    mkGP 8 23; mkGP 7 23; mkGP 6 23; mkGP 5 23; mkGP 4 23; mkGP 3 23;
    mkGP 2 23; mkGP 2 22; mkGP 2 21; mkGP 2 20
  ].

(** The inner ring of the band of the bar: 58 pixels. *)
Definition barInner : list GridPoint :=
  [
    mkGP 5 20; mkGP 4 20; mkGP 3 21; mkGP 4 22; mkGP 5 22; mkGP 6 22;
    mkGP 7 22; mkGP 8 22; mkGP 9 22; mkGP 10 22; mkGP 11 22; mkGP 12 22;
    mkGP 13 22; mkGP 14 22; mkGP 15 22; mkGP 16 22; mkGP 17 22; mkGP 18 22;
    mkGP 19 22; mkGP 20 22; mkGP 21 22; mkGP 22 22; mkGP 23 22; mkGP 24 22;
    mkGP 25 22; mkGP 26 22; mkGP 27 22; mkGP 28 22; mkGP 29 22; mkGP 30 22;
    mkGP 31 22; mkGP 32 21; mkGP 31 20; mkGP 30 20; mkGP 29 20; mkGP 28 20;
    mkGP 27 20; mkGP 26 20; mkGP 25 20; mkGP 24 20; mkGP 23 20; mkGP 22 20;
    mkGP 21 20; mkGP 20 20; mkGP 19 20; mkGP 18 20; mkGP 17 20; mkGP 16 20;
    mkGP 15 20; mkGP 14 20; mkGP 13 20; mkGP 12 20; mkGP 11 20; mkGP 10 20;
    mkGP 9 20; mkGP 8 20; mkGP 7 20; mkGP 6 20
  ].

End Whole.

(** The circle the detector makes of the disc. *)
Definition discShape : DetectedShape :=
  let metrics := calculateMetrics (map toPoint Whole.discContour) in
  mkShape circle (fin (xmin (circularityOf metrics) (Fin 0.99))) metrics.

(** ** The metrics in binary64 *)

(** The code computes in binary64 (IEEE 754 doubles), rounding after every
    operation; the definitions above compute in real numbers.  For the
    statements that compare, count or bound, the difference plays no part.
    It does for exact equalities between the outcomes of two runs.  The
    module below is [calculateMetrics] over the doubles of the kernel, and
    the weighted sum of [createGrayscaleGrid]; [Binary64Facts] evaluates
    them where the two arithmetics part. *)

From Stdlib Require Floats.

Module Binary64.

Import PrimFloat.
#[local] Set Warnings "-inexact-float".
Local Open Scope float_scope.

Record Point : Type := mkPoint { px : float; py : float }.

Record BoundingBox : Type :=
  mkBox { bx : float; by_ : float; bwidth : float; bheight : float }.

Record Metrics : Type :=
  mkMetrics { area : float; perimeter : float; boundingBox : BoundingBox;
              center : Point }.

Record MetricsAcc : Type :=
  mkAcc { minX : float; minY : float; maxX : float; maxY : float;
          accArea : float; accPerimeter : float; sumX : float; sumY : float }.

Definition origin : Point := mkPoint 0 0.

Definition metricsInit : MetricsAcc :=
  mkAcc infinity infinity neg_infinity neg_infinity 0 0 0 0.

(** [Math.pow(v, 2)]. *)
Definition square (v : float) : float := v * v.

(** The body of the [for] loop at index [i]. *)
Definition metricsStep (contour : list Point) (a : MetricsAcc) (i : nat) : MetricsAcc :=
  let p1 := nth i contour origin in
  let p2 := nth ((i + 1) mod length contour) contour origin in
  mkAcc (if px p1 <? minX a then px p1 else minX a)
        (if py p1 <? minY a then py p1 else minY a)
        (if maxX a <? px p1 then px p1 else maxX a)
        (if maxY a <? py p1 then py p1 else maxY a)
        (accArea a + (px p1 * py p2 - px p2 * py p1))
        (accPerimeter a + sqrt (square (px p2 - px p1) + square (py p2 - py p1)))
        (sumX a + px p1)
        (sumY a + py p1).

(** [contour.length] as a number. *)
Definition count (n : nat) : float := Nat.iter n (fun v => v + 1) 0.

Definition calculateMetrics (contour : list Point) : Metrics :=
  match contour with
  | [] => mkMetrics 0 0 (mkBox 0 0 0 0) (mkPoint 0 0)
  | _ =>
    let a := fold_left (metricsStep contour) (seq 0 (length contour)) metricsInit in
    let n := count (length contour) in
    mkMetrics (abs (accArea a / 2))
              (accPerimeter a)
              (mkBox (minX a) (minY a) (maxX a - minX a) (maxY a - minY a))
              (mkPoint (sumX a / n) (sumY a / n))
  end.

Definition translate (dx dy : float) (contour : list Point) : list Point :=
  map (fun p => mkPoint (px p + dx) (py p + dy)) contour.

Definition scale (k : float) (contour : list Point) : list Point :=
  map (fun p => mkPoint (k * px p) (k * py p)) contour.

(** [0.299 * r + 0.587 * g + 0.114 * b], the number [Math.round] is given. *)
Definition luminance (r g b : float) : float := 0.299 * r + 0.587 * g + 0.114 * b.

(** Sample contours: a segment walked there and back, the right triangles
    with legs 40 and 30 and with legs 3 and 3, a corner of the unit square,
    and four pixels of a traced line. *)
Definition diagonal : list Point := [mkPoint 0 0; mkPoint 1 1].
Definition triangle : list Point := [mkPoint 0 0; mkPoint 40 0; mkPoint 0 30].
Definition smallTriangle : list Point := [mkPoint 0 0; mkPoint 3 0; mkPoint 0 3].
Definition corner : list Point := [mkPoint 0 0; mkPoint 1 0; mkPoint 1 1].
Definition hook : list Point := [mkPoint 5 5; mkPoint 6 6; mkPoint 7 7; mkPoint 8 7].

End Binary64.

(** A single pixel with red 0, green 36 and blue 12. *)
Definition tiePixel : Imaging.ImageData := Imaging.mkImage 1 1 [0; 36; 12; 255]%Z.

(** ** Vocabulary for the geometry *)

(** [q] lies on the segment from [a] to [b]. *)
Definition onSegment (a b q : Point) : Prop :=
  exists s, 0 <= s <= 1
            /\ px q = px a + s * (px b - px a)
            /\ py q = py a + s * (py b - py a).

(** [u] is followed by [v] in [l]. *)
Definition consecutive {A : Type} (l : list A) (u v : A) : Prop :=
  exists l1 l2, l = l1 ++ u :: v :: l2.

(** [a], [b], [c] follow one another in [l]. *)
Definition consecutive3 {A : Type} (l : list A) (a b c : A) : Prop :=
  exists l1 l2, l = l1 ++ a :: b :: c :: l2.

(** A chain as [popChain] keeps it, top first: going up the chain every
    corner turns strictly to the left. *)
Fixpoint leftTurns (chain : list Point) : Prop :=
  match chain with
  | c :: ((b :: a :: _) as rest) => crossProduct a b c > 0 /\ leftTurns rest
  | _ => True
  end.

(** The array [lower] of [calculateConvexHull] when its loop ends, before
    the last point is popped; bottom first. *)
Definition lowerChain (points : list Point) : list Point :=
  rev (buildChain (sortPoints points)).

(** The array [upper] when its loop ends, before the last point is popped;
    bottom first. *)
Definition upperChain (points : list Point) : list Point :=
  rev (buildChain (rev (sortPoints points))).

(** The unit square with one point inside it. *)
Definition squareWithCenter : list Point :=
  [mkPoint 0 0; mkPoint 1 0; mkPoint 1 1; mkPoint 0 1; mkPoint (1 / 2) (1 / 2)].

(** ** Vocabulary for the results *)

(** The type and confidence pairs a returned shape can carry: a circle with
    its circularity capped at 0.99, or one of the four rows of the switch. *)
Definition tableEntry (s : DetectedShape) : Prop :=
  (stype s = circle /\ 0.80 < confidence s <= 0.99)
  \/ (stype s = triangle /\ confidence s = 0.90)
  \/ (stype s = rectangle /\ confidence s = 0.92)
  \/ (stype s = pentagon /\ confidence s = 0.88)
  \/ (stype s = star /\ confidence s = 0.82).

(** A 3 x 3 image of one colour. *)
Definition plainImage : Imaging.ImageData :=
  Imaging.mkImage 3 3
    [ 9; 9; 9; 255;   9; 9; 9; 255;   9; 9; 9; 255;
      9; 9; 9; 255;   9; 9; 9; 255;   9; 9; 9; 255;
      9; 9; 9; 255;   9; 9; 9; 255;   9; 9; 9; 255 ]%Z.

(** A 2 x 1 image: a black and a white pixel. *)
Definition tinyImage : Imaging.ImageData :=
  Imaging.mkImage 2 1 [ 0; 0; 0; 255;   255; 255; 255; 255 ]%Z.

(** ** Vocabulary for the metrics *)

(** [p] lies in the box, sides included. *)
Definition insideBox (box : BoundingBox) (p : Point) : Prop :=
  bx box <= px p <= bx box + bwidth box
  /\ by_ box <= py p <= by_ box + bheight box.

(** The extent [m] is the sentinel [start] or the coordinate of a point of
    the contour. *)
Definition attained (contour : Contour) (coord : Point -> R) (start m : xnum) : Prop :=
  m = start \/ exists p, In p contour /\ m = Fin (coord p).

(** A single entry for the filter: the sample triangle. *)
Definition triangleEntry : ContourMetrics := mkCM triangleContour triangleMetrics.

(** [box] holds every point of the contour and each of its four sides
    passes through one of them. *)
Definition tightBox (contour : Contour) (box : BoundingBox) : Prop :=
  Forall (insideBox box) contour
  /\ (exists p, In p contour /\ px p = bx box)
  /\ (exists p, In p contour /\ py p = by_ box)
  /\ (exists p, In p contour /\ px p = bx box + bwidth box)
  /\ (exists p, In p contour /\ py p = by_ box + bheight box).

(** The pairs [(contour[i], contour[(i + 1) % n])] the scan looks at. *)
Definition closedPairs (contour : Contour) : list (Point * Point) :=
  combine contour (rot contour).

(** ** Vocabulary for the sort *)

(** [a] comes no later than [b] when the points are ordered by [x], and by
    [y] where the [x] are equal. *)
Definition lexLe (a b : Point) : Prop :=
  px a < px b \/ (px a = px b /\ py a <= py b).

(** Each point of the list comes no later than the next one. *)
Fixpoint ordered (l : list Point) : Prop :=
  match l with
  | a :: ((b :: _) as rest) => lexLe a b /\ ordered rest
  | _ => True
  end.

(** * Properties *)

(** ** Facts about the number model *)

Module NumFacts.

Lemma ltb_true x y : ltb x y = true <-> x < y.
Proof. unfold ltb; destruct (Rlt_dec x y); split; intros; auto; discriminate. Qed.

Lemma ltb_false x y : ltb x y = false <-> ~ x < y.
Proof. unfold ltb; destruct (Rlt_dec x y); split; intros; auto; try discriminate; contradiction. Qed.

Lemma gtb_true x y : gtb x y = true <-> x > y.
Proof. unfold gtb; destruct (Rgt_dec x y); split; intros; auto; discriminate. Qed.

Lemma gtb_false x y : gtb x y = false <-> ~ x > y.
Proof. unfold gtb; destruct (Rgt_dec x y); split; intros; auto; try discriminate; contradiction. Qed.

Lemma leb_true x y : leb x y = true <-> x <= y.
Proof. unfold leb; destruct (Rle_dec x y); split; intros; auto; discriminate. Qed.

Lemma leb_false x y : leb x y = false <-> ~ x <= y.
Proof. unfold leb; destruct (Rle_dec x y); split; intros; auto; try discriminate; contradiction. Qed.

Lemma eqb_true x y : eqb x y = true <-> x = y.
Proof. unfold eqb; destruct (Req_dec_T x y); split; intros; auto; discriminate. Qed.

Lemma eqb_false x y : eqb x y = false <-> x <> y.
Proof. unfold eqb; destruct (Req_dec_T x y); split; intros; auto; try discriminate; contradiction. Qed.

Lemma orOne_nonzero v : v <> 0 -> orOne v = v.
Proof. intros H; unfold orOne; apply eqb_false in H; now rewrite H. Qed.

Lemma orOne_zero : orOne 0 = 1.
Proof. unfold orOne; now rewrite (proj2 (eqb_true 0 0) eq_refl). Qed.

Lemma div_nonzero a b : b <> 0 -> div a b = Fin (a / b).
Proof. intros H; unfold div; apply eqb_false in H; now rewrite H. Qed.

End NumFacts.

Import NumFacts.

(** Settles the first comparison of two concrete numbers in the goal. *)
Ltac decide_test :=
  match goal with
  | |- context [eqb ?a ?b] =>
    first [ rewrite (proj2 (eqb_true a b)) by lra
          | rewrite (proj2 (eqb_false a b)) by lra ]
  | |- context [ltb ?a ?b] =>
    first [ rewrite (proj2 (ltb_true a b)) by lra
          | rewrite (proj2 (ltb_false a b)) by lra ]
  | |- context [gtb ?a ?b] =>
    first [ rewrite (proj2 (gtb_true a b)) by lra
          | rewrite (proj2 (gtb_false a b)) by lra ]
  | |- context [leb ?a ?b] =>
    first [ rewrite (proj2 (leb_true a b)) by lra
          | rewrite (proj2 (leb_false a b)) by lra ]
  end.

(** ** The contour tracer *)

Module TracerFacts.

Import Tracer.
Open Scope Z_scope.

Lemma length_setNth {A : Type} (n : nat) (v : A) (l : list A) :
  length (setNth n v l) = length l.
Proof.
  revert n; induction l as [|a l IH]; intros [|n]; simpl; auto.
Qed.

Lemma nth_error_setNth_same {A : Type} (n : nat) (v : A) (l : list A) :
  (n < length l)%nat -> nth_error (setNth n v l) n = Some v.
Proof.
  revert n; induction l as [|a l IH]; intros [|n] H; simpl in *; try lia; auto.
  apply IH; lia.
Qed.

Lemma nth_error_setNth_other {A : Type} (n m : nat) (v : A) (l : list A) :
  n <> m -> nth_error (setNth n v l) m = nth_error l m.
Proof.
  revert n m; induction l as [|a l IH]; intros [|n] [|m] H; simpl; auto; try congruence.
Qed.

Lemma Forall_setNth {A : Type} (P : A -> Prop) (n : nat) (v : A) (l : list A) :
  Forall P l -> P v -> Forall P (setNth n v l).
Proof.
  intros Hl Hv; revert n; induction Hl; intros [|n]; simpl; constructor; auto.
Qed.

(** Writing a cell keeps the shape of the grid. *)
Lemma writeCell_wellFormed width height grid x y v :
  wellFormed width height grid -> wellFormed width height (writeCell grid x y v).
Proof.
  intros [Hh Hw]; unfold writeCell.
  destruct (nth_error grid (Z.to_nat y)) as [row|] eqn:Hrow; [|now split].
  split.
  - now rewrite length_setNth.
  - apply Forall_setNth; auto.
    rewrite length_setNth.
    rewrite Forall_forall in Hw; apply Hw.
    eapply nth_error_In; eauto.
Qed.

(** A write changes nothing but the cell written, and that cell holds the
    value written afterwards. *)
Lemma readCell_writeCell grid x y v x' y' :
  0 <= x -> 0 <= y -> 0 <= x' -> 0 <= y' ->
  readCell (writeCell grid x y v) x' y' =
  if (x' =? x) && (y' =? y)
  then match readCell grid x y with Val _ => Val v | c => c end
  else readCell grid x' y'.
Proof.
  intros Hx Hy Hx' Hy'.
  unfold writeCell, readCell.
  destruct (nth_error grid (Z.to_nat y)) as [row|] eqn:Hrow.
  - assert (Hlen : (Z.to_nat y < length grid)%nat)
      by (apply nth_error_Some; congruence).
    destruct (Z.eqb_spec y' y) as [->|Hny].
    + rewrite nth_error_setNth_same by exact Hlen.
      rewrite Hrow.
      destruct (Z.eqb_spec x' x) as [->|Hnx]; simpl.
      * destruct (nth_error row (Z.to_nat x)) as [c|] eqn:Hc.
        -- rewrite nth_error_setNth_same; auto.
           apply nth_error_Some; congruence.
        -- assert (length row <= Z.to_nat x)%nat by (now apply nth_error_None).
           assert (Hn : nth_error (setNth (Z.to_nat x) v row) (Z.to_nat x) = None).
           { apply nth_error_None; now rewrite length_setNth. }
           now rewrite Hn.
      * rewrite nth_error_setNth_other by lia. reflexivity.
    + rewrite andb_false_r.
      rewrite nth_error_setNth_other by lia. reflexivity.
  - destruct (Z.eqb_spec y' y) as [->|Hny].
    + rewrite Hrow. now destruct (x' =? x).
    + now rewrite andb_false_r.
Qed.

(** On a well-formed grid no read throws, and a pixel the scan accepts is
    inside the grid, is not the start pixel, and holds 255 or 128. *)
Lemma scanNeighbors_spec width height grid startPoint currentPoint k indices :
  wellFormed width height grid ->
  match scanNeighbors width height grid startPoint currentPoint k indices with
  | Throws => False
  | Next p _ => accepted width height grid startPoint p
  | _ => True
  end.
Proof.
  intros [Hh Hw].
  induction indices as [|i rest IH]; cbn [scanNeighbors]; auto.
  set (nb := nth _ neighbors (0, 0)).
  set (nextX := gx currentPoint + fst nb).
  set (nextY := gy currentPoint + snd nb).
  destruct ((nextX <? 0) || (nextX >=? width) || (nextY <? 0) || (nextY >=? height))
    eqn:Hout; [exact IH|].
  apply orb_false_elim in Hout; destruct Hout as [Hout H4].
  apply orb_false_elim in Hout; destruct Hout as [Hout H3].
  apply orb_false_elim in Hout; destruct Hout as [H1 H2].
  destruct ((nextX =? gx startPoint) && (nextY =? gy startPoint)) eqn:Hst; [exact I|].
  assert (Hin : 0 <= nextX < width /\ 0 <= nextY < height) by lia.
  unfold readCell.
  destruct (nth_error grid (Z.to_nat nextY)) as [row|] eqn:Hrow.
  - destruct (nth_error row (Z.to_nat nextX)) as [v|] eqn:Hv; [|exact IH].
    destruct ((v =? 255) || (v =? 128)) eqn:Hedge; [|exact IH].
    repeat split; cbn [gx gy]; try lia.
    + intros E. rewrite <- E in Hst. cbn [gx gy] in Hst.
      rewrite !Z.eqb_refl in Hst. discriminate.
    + unfold edgeOrVisited, readCell; cbn [gx gy]. rewrite Hrow, Hv.
      apply orb_true_iff in Hedge. destruct Hedge as [E|E];
        apply Z.eqb_eq in E; subst; auto.
  - apply nth_error_None in Hrow. lia.
Qed.

(** The loop, from any state it can be in: it returns; what it appends are
    accepted pixels of the grid the trace started from ([grid0]: cells only
    ever change from 255 to 128); and the diagnostic is written exactly
    when all [remaining] iterations were used, each having appended. *)
Lemma walk_spec width height startPoint grid0 remaining :
  forall contour0 grid currentPoint k entered,
    wellFormed width height grid ->
    (forall p, inBounds width height p -> edgeOrVisited grid p -> edgeOrVisited grid0 p) ->
    exists t appended,
      walk width height startPoint remaining contour0 grid currentPoint k entered = Some t
      /\ contour t = contour0 ++ appended
      /\ Forall (accepted width height grid0 startPoint) appended
      /\ (iterations t <= entered + remaining)%nat
      /\ ((console t = [] /\ (length appended < remaining)%nat /\
           iterations t = S (entered + length appended))
          \/ (console t = [maxTraceMessage] /\ length appended = remaining /\
              iterations t = (entered + remaining)%nat)).
Proof.
  induction remaining as [|r IH]; intros contour0 grid cur k entered Hwf Hinv.
  - exists (mkTrace contour0 grid [maxTraceMessage] entered), [].
    cbn. rewrite app_nil_r. repeat split; auto; try lia.
  - cbn [walk].
    pose proof (scanNeighbors_spec width height grid startPoint cur k
                  (seq 0 (length neighbors)) Hwf) as Hscan.
    destruct (scanNeighbors width height grid startPoint cur k
                (seq 0 (length neighbors))) as [|p ni| |].
    + exists (mkTrace contour0 grid [] (S entered)), [].
      cbn. rewrite app_nil_r. repeat split; auto; try lia.
      left; repeat split; lia.
    + destruct Hscan as (Hne & Hin & Hedge).
      set (grid1 := match readCell grid (gx p) (gy p) with
                    | Val v => if v =? 255 then writeCell grid (gx p) (gy p) 128 else grid
                    | _ => grid
                    end).
      assert (Hwf1 : wellFormed width height grid1).
      { unfold grid1. destruct (readCell grid (gx p) (gy p)); auto.
        destruct (v =? 255); auto using writeCell_wellFormed. }
      assert (Hinv1 : forall q, inBounds width height q ->
                                edgeOrVisited grid1 q -> edgeOrVisited grid0 q).
      { intros q Hq Hq1. apply Hinv; auto.
        unfold grid1 in Hq1.
        destruct (readCell grid (gx p) (gy p)) as [| |v] eqn:Hp; auto.
        destruct (v =? 255); auto.
        unfold edgeOrVisited in Hq1.
        destruct Hin as [Hpx Hpy]. destruct Hq as [Hqx Hqy].
        rewrite readCell_writeCell in Hq1 by lia.
        destruct ((gx q =? gx p) && (gy q =? gy p)) eqn:Hsame; auto.
        apply andb_true_iff in Hsame. destruct Hsame as [Ex Ey].
        apply Z.eqb_eq in Ex. apply Z.eqb_eq in Ey.
        unfold edgeOrVisited. rewrite Ex, Ey. exact Hedge. }
      destruct (IH (contour0 ++ [p]) grid1 p ((ni + 5) mod 8)%nat (S entered) Hwf1 Hinv1)
        as (t & appended & Hw & Hc & Hall & Hit & Hcons).
      exists t, (p :: appended).
      split; [exact Hw|].
      split; [rewrite Hc, <- app_assoc; reflexivity|].
      split.
      { constructor; [|exact Hall].
        split; [exact Hne|]. split; [exact Hin|]. now apply Hinv. }
      split; [lia|].
      cbn [length].
      destruct Hcons as [(Hc0 & Hl & Hi)|(Hc1 & Hl & Hi)]; [left|right];
        repeat split; auto; lia.
    + exists (mkTrace contour0 grid [] (S entered)), [].
      cbn. rewrite app_nil_r. repeat split; auto; try lia.
      left; repeat split; lia.
    + contradiction.
Qed.

Lemma MAX_TRACE_value : Z.of_nat MAX_TRACE = 20000.
Proof. unfold MAX_TRACE. now rewrite Z2Nat.id. Qed.

(** C2 (as amended).  On a well-formed grid the returned contour is the
    start pixel followed by the pixels the walk appended, and every
    appended pixel lies inside the grid, is not the start pixel, and held
    an edge value in the grid the call was given: 255 (unvisited) or 128
    (already visited).  The start pixel is never appended. *)
Theorem traceContour_appends_edge_or_visited width height startPoint grid :
  wellFormed width height grid ->
  exists t appended,
    traceContour width height startPoint grid = Some t
    /\ contour t = startPoint :: appended
    /\ Forall (fun p => p <> startPoint /\ inBounds width height p /\
                        edgeOrVisited grid p) appended.
Proof.
  intros Hwf.
  destruct (walk_spec width height startPoint grid MAX_TRACE
              [startPoint] grid startPoint 4%nat 0%nat Hwf (fun _ _ H => H))
    as (t & appended & Hw & Hc & Hall & _).
  exists t, appended. repeat split; auto.
Qed.

Lemma traceContour_appends_edge_or_visited_witness :
  exists t appended,
    traceContour 5 3 (mkGP 1 1) strokeGrid = Some t
    /\ contour t = mkGP 1 1 :: appended
    /\ Forall (fun p => p <> mkGP 1 1 /\ inBounds 5 3 p /\
                        edgeOrVisited strokeGrid p) appended.
Proof.
  apply (traceContour_appends_edge_or_visited 5 3 (mkGP 1 1) strokeGrid).
  split; [reflexivity | repeat constructor].
Defined.

(** C2 fails as stated: on the stroke the walk reaches the right end, finds
    no unvisited neighbour, and accepts the middle pixel, which it had
    already marked 128; the returned contour holds that pixel twice. *)
Lemma traceContour_reenters_visited_pixel :
  exists t,
    traceContour 5 3 (mkGP 1 1) strokeGrid = Some t
    /\ contour t = [mkGP 1 1; mkGP 2 1; mkGP 3 1; mkGP 2 1]
    /\ mkGP 2 1 <> mkGP 1 1
    /\ ~ NoDup (contour t)
    /\ readCell (grid' t) 2 1 = Val 128
    /\ scanNeighbors 5 3 (grid' t) (mkGP 1 1) (mkGP 3 1) 5 (seq 0 8)
       = Next (mkGP 2 1) 4.
Proof.
  eexists. split; [vm_compute; reflexivity|].
  cbn [contour grid'].
  repeat split; try reflexivity.
  - discriminate.
  - intros H. inversion H as [|? ? _ H1]. inversion H1 as [|? ? Hn _].
    apply Hn. cbn. auto.
Qed.



End TracerFacts.

(** ** calculateMetrics *)

Section MetricsFacts.

Lemma map_nth_seq {A : Type} (l : list A) (d : A) :
  map (fun i => nth i l d) (seq 0 (length l)) = l.
Proof.
  induction l as [|a l IH]; [reflexivity|].
  cbn [length seq map nth]. f_equal.
  rewrite <- seq_shift, map_map. exact IH.
Qed.

Lemma map_pair_combine {A B C : Type} (f : A -> B) (g : A -> C) (l : list A) :
  map (fun i => (f i, g i)) l = combine (map f l) (map g l).
Proof. induction l; cbn; congruence. Qed.

Lemma map_succ_seq {A : Type} (l : list A) (d : A) :
  map (fun i => nth ((i + 1) mod length l) l d) (seq 0 (length l)) = rot l.
Proof.
  destruct l as [|p ps]; [reflexivity|].
  unfold rot. cbn [tl firstn length].
  rewrite seq_S, map_app. cbn [map Nat.add]. f_equal.
  - rewrite <- (map_nth_seq ps d) at 2.
    apply map_ext_in. intros i Hi. apply in_seq in Hi.
    rewrite Nat.mod_small by lia.
    replace (i + 1)%nat with (S i) by lia. reflexivity.
  - replace (length ps + 1)%nat with (S (length ps)) by lia.
    rewrite Nat.Div0.mod_same. reflexivity.
Qed.

(** The pairs [(p1, p2)] the loop visits. *)
Lemma loop_pairs (contour : Contour) :
  map (fun i => (nth i contour origin,
                 nth ((i + 1) mod length contour) contour origin))
      (seq 0 (length contour))
  = combine contour (rot contour).
Proof.
  rewrite (map_pair_combine (fun i => nth i contour origin)
             (fun i => nth ((i + 1) mod length contour) contour origin)).
  now rewrite map_nth_seq, map_succ_seq.
Qed.

Lemma fold_accArea contour l a :
  accArea (fold_left (metricsStep contour) l a)
  = accArea a
    + Rsum (map (fun pq => shoelaceTerm (fst pq) (snd pq))
                (map (fun i => (nth i contour origin,
                                nth ((i + 1) mod length contour) contour origin)) l)).
Proof.
  revert a; induction l as [|i l IH]; intros a; cbn [fold_left map Rsum fold_right].
  - lra.
  - rewrite IH. cbn [metricsStep accArea fst snd]. unfold Rsum. lra.
Qed.

Lemma fold_accPerimeter contour l a :
  accPerimeter (fold_left (metricsStep contour) l a)
  = accPerimeter a
    + Rsum (map (fun pq => dist (fst pq) (snd pq))
                (map (fun i => (nth i contour origin,
                                nth ((i + 1) mod length contour) contour origin)) l)).
Proof.
  revert a; induction l as [|i l IH]; intros a; cbn [fold_left map Rsum fold_right].
  - lra.
  - rewrite IH. cbn [metricsStep accPerimeter fst snd]. unfold Rsum. lra.
Qed.

(** The area is half the absolute shoelace sum over the closed contour. *)
Lemma area_shoelace (contour : Contour) :
  area (calculateMetrics contour)
  = Rabs (Rsum (map (fun pq => shoelaceTerm (fst pq) (snd pq))
                    (combine contour (rot contour))) / 2).
Proof.
  destruct contour as [|p ps].
  - cbn. replace (0 / 2) with 0 by lra. now rewrite Rabs_R0.
  - unfold calculateMetrics, metricsLoop. cbn [area].
    rewrite fold_accArea, loop_pairs. cbn [metricsInit accArea].
    f_equal. lra.
Qed.

(** The perimeter is the sum of the segment lengths of the closed contour. *)
Lemma perimeter_segments (contour : Contour) :
  perimeter (calculateMetrics contour)
  = Rsum (map (fun pq => dist (fst pq) (snd pq)) (combine contour (rot contour))).
Proof.
  destruct contour as [|p ps].
  - reflexivity.
  - unfold calculateMetrics, metricsLoop. cbn [perimeter].
    rewrite fold_accPerimeter, loop_pairs. cbn [metricsInit accPerimeter]. lra.
Qed.

Lemma rot_map {A B : Type} (f : A -> B) (l : list A) :
  rot (map f l) = map f (rot l).
Proof.
  unfold rot. rewrite map_app, firstn_map. f_equal. now destruct l.
Qed.

Lemma combine_map {A B : Type} (f : A -> B) (l l' : list A) :
  combine (map f l) (map f l') = map (fun pq => (f (fst pq), f (snd pq))) (combine l l').
Proof.
  revert l'; induction l as [|a l IH]; intros [|b l']; cbn; auto. now rewrite IH.
Qed.

(** The pairs of a transformed contour are the transformed pairs. *)
Lemma pairs_map (f : Point -> Point) (contour : Contour) :
  combine (map f contour) (rot (map f contour))
  = map (fun pq => (f (fst pq), f (snd pq))) (combine contour (rot contour)).
Proof. now rewrite rot_map, combine_map. Qed.

Lemma Rsum_map_scal {A : Type} (k : R) (f : A -> R) (l : list A) :
  Rsum (map (fun x => k * f x) l) = k * Rsum (map f l).
Proof. unfold Rsum; induction l as [|a l IH]; cbn; [lra | rewrite IH; lra]. Qed.

Lemma Rsum_map_plus {A : Type} (f g : A -> R) (l : list A) :
  Rsum (map (fun x => f x + g x) l) = Rsum (map f l) + Rsum (map g l).
Proof. unfold Rsum; induction l as [|a l IH]; cbn; [lra | rewrite IH; lra]. Qed.

Lemma Rsum_map_ext {A : Type} (f g : A -> R) (l : list A) :
  (forall x, f x = g x) -> Rsum (map f l) = Rsum (map g l).
Proof. intros H. f_equal. apply map_ext, H. Qed.

(** Differences along a chain telescope. *)
Lemma telescope (g : Point -> R) (ps : list Point) :
  forall p q,
    Rsum (map (fun pq => g (snd pq) - g (fst pq)) (combine (p :: ps) (ps ++ [q])))
    = g q - g p.
Proof.
  induction ps as [|a ps IH]; intros p q.
  - cbn. lra.
  - change (combine (p :: a :: ps) ((a :: ps) ++ [q]))
      with ((p, a) :: combine (a :: ps) (ps ++ [q])).
    cbn [map Rsum fold_right fst snd].
    change (fold_right Rplus 0 ?l) with (Rsum l).
    rewrite IH. lra.
Qed.

(** Around a closed contour they cancel. *)
Lemma closed_differences (g : Point -> R) (contour : Contour) :
  Rsum (map (fun pq => g (snd pq) - g (fst pq)) (combine contour (rot contour))) = 0.
Proof.
  destruct contour as [|p ps]; [reflexivity|].
  unfold rot. cbn [tl firstn]. rewrite telescope. lra.
Qed.

Lemma Rsum_nonneg {A : Type} (f : A -> R) (l : list A) :
  (forall x, 0 <= f x) -> 0 <= Rsum (map f l).
Proof.
  intros H. unfold Rsum. induction l as [|a l IH]; cbn; [lra|]. specialize (H a). lra.
Qed.

Lemma shoelaceTerm_translate dx dy p1 p2 :
  shoelaceTerm (mkPoint (px p1 + dx) (py p1 + dy)) (mkPoint (px p2 + dx) (py p2 + dy))
  = shoelaceTerm p1 p2
    + ((dx * py p2 - dy * px p2) - (dx * py p1 - dy * px p1)).
Proof. unfold shoelaceTerm; cbn; ring. Qed.

Lemma shoelaceTerm_scale k p1 p2 :
  shoelaceTerm (mkPoint (k * px p1) (k * py p1)) (mkPoint (k * px p2) (k * py p2))
  = k ^ 2 * shoelaceTerm p1 p2.
Proof. unfold shoelaceTerm; cbn; ring. Qed.

Lemma dist_scale k p1 p2 :
  dist (mkPoint (k * px p1) (k * py p1)) (mkPoint (k * px p2) (k * py p2))
  = Rabs k * dist p1 p2.
Proof.
  unfold dist; cbn [px py].
  replace ((k * px p2 - k * px p1) ^ 2 + (k * py p2 - k * py p1) ^ 2)
    with (Rsqr k * ((px p2 - px p1) ^ 2 + (py p2 - py p1) ^ 2))
    by (unfold Rsqr; ring).
  rewrite sqrt_mult_alt by apply Rle_0_sqr.
  now rewrite sqrt_Rsqr_abs.
Qed.

Lemma dist_nonneg p q : 0 <= dist p q.
Proof. apply sqrt_pos. Qed.

Lemma area_translate dx dy contour :
  area (calculateMetrics (translate dx dy contour)) = area (calculateMetrics contour).
Proof.
  rewrite !area_shoelace. unfold translate. rewrite pairs_map, map_map.
  cbn [fst snd].
  rewrite (Rsum_map_ext _
             (fun pq => shoelaceTerm (fst pq) (snd pq)
                        + ((fun p => dx * py p - dy * px p) (snd pq)
                           - (fun p => dx * py p - dy * px p) (fst pq)))).
  2:{ intros [p1 p2]. apply shoelaceTerm_translate. }
  rewrite Rsum_map_plus.
  rewrite (closed_differences (fun p => dx * py p - dy * px p)).
  now rewrite Rplus_0_r.
Qed.

Lemma area_scale k contour :
  area (calculateMetrics (scale k contour)) = k ^ 2 * area (calculateMetrics contour).
Proof.
  rewrite !area_shoelace. unfold scale. rewrite pairs_map, map_map.
  cbn [fst snd].
  rewrite (Rsum_map_ext _ (fun pq => k ^ 2 * shoelaceTerm (fst pq) (snd pq))).
  2:{ intros [p1 p2]. apply shoelaceTerm_scale. }
  rewrite Rsum_map_scal.
  replace (k ^ 2 * Rsum (map (fun pq => shoelaceTerm (fst pq) (snd pq))
                             (combine contour (rot contour))) / 2)
    with (k ^ 2 * (Rsum (map (fun pq => shoelaceTerm (fst pq) (snd pq))
                             (combine contour (rot contour))) / 2)) by lra.
  rewrite Rabs_mult. f_equal.
  apply Rabs_pos_eq. apply pow2_ge_0.
Qed.

Lemma perimeter_scale k contour :
  perimeter (calculateMetrics (scale k contour))
  = Rabs k * perimeter (calculateMetrics contour).
Proof.
  rewrite !perimeter_segments. unfold scale. rewrite pairs_map, map_map.
  cbn [fst snd].
  rewrite (Rsum_map_ext _ (fun pq => Rabs k * dist (fst pq) (snd pq))).
  2:{ intros [p1 p2]. apply dist_scale. }
  apply Rsum_map_scal.
Qed.

Lemma perimeter_nonneg contour : 0 <= perimeter (calculateMetrics contour).
Proof.
  rewrite perimeter_segments. apply Rsum_nonneg. intros pq. apply dist_nonneg.
Qed.

Lemma perimeter_unitSegment : perimeter (calculateMetrics unitSegment) = 2.
Proof.
  rewrite perimeter_segments. unfold unitSegment, rot, dist. cbn.
  replace ((1 - 0) * ((1 - 0) * 1) + (0 - 0) * ((0 - 0) * 1)) with 1 by ring.
  replace ((0 - 1) * ((0 - 1) * 1) + (0 - 0) * ((0 - 0) * 1)) with 1 by ring.
  rewrite sqrt_1. ring.
Qed.

(** After a scan of a non-empty contour the four extents are finite: the
    first point replaces the infinite sentinels. *)
Lemma extents_finite (contour : Contour) :
  contour <> [] ->
  exists x0 y0 x1 y1,
    minX (metricsLoop contour) = Fin x0 /\ minY (metricsLoop contour) = Fin y0
    /\ maxX (metricsLoop contour) = Fin x1 /\ maxY (metricsLoop contour) = Fin y1.
Proof.
  intros Hne. unfold metricsLoop.
  assert (Hkeep : forall l a,
             (exists x0 y0 x1 y1,
                 minX a = Fin x0 /\ minY a = Fin y0 /\ maxX a = Fin x1 /\ maxY a = Fin y1) ->
             exists x0 y0 x1 y1,
               minX (fold_left (metricsStep contour) l a) = Fin x0
               /\ minY (fold_left (metricsStep contour) l a) = Fin y0
               /\ maxX (fold_left (metricsStep contour) l a) = Fin x1
               /\ maxY (fold_left (metricsStep contour) l a) = Fin y1).
  { induction l as [|i l IH]; intros a Ha; [exact Ha|].
    cbn [fold_left]. apply IH.
    destruct Ha as (x0 & y0 & x1 & y1 & E0 & E1 & E2 & E3).
    unfold metricsStep. cbn [minX minY maxX maxY]. rewrite E0, E1, E2, E3.
    repeat match goal with |- context [if ?b then _ else _] => destruct b end;
      repeat eexists. }
  destruct contour as [|p ps]; [congruence|].
  cbn [length seq fold_left]. apply Hkeep.
  unfold metricsStep. cbn [metricsInit minX minY maxX maxY xltb xgtb].
  repeat eexists.
Qed.

(** *** The bounding box *)

Lemma minimum_step (m : xnum) (x : R) :
  minimumOk m ->
  minimumOk (if xltb (Fin x) m then Fin x else m)
  /\ boundsBelow (if xltb (Fin x) m then Fin x else m) x
  /\ (forall v, boundsBelow m v -> boundsBelow (if xltb (Fin x) m then Fin x else m) v).
Proof.
  destruct m as [| |r|]; cbn [minimumOk xltb]; try contradiction; intros _.
  - destruct (ltb x r) eqn:E; cbn [minimumOk boundsBelow].
    + apply ltb_true in E. split; [exact I|]. split; [lra|]. intros v Hv. lra.
    + apply ltb_false in E. split; [exact I|]. split; [lra|]. intros v Hv. exact Hv.
  - cbn [minimumOk boundsBelow]. split; [exact I|]. split; [lra|]. intros v [].
Qed.

Lemma maximum_step (m : xnum) (x : R) :
  maximumOk m ->
  maximumOk (if xgtb (Fin x) m then Fin x else m)
  /\ boundsAbove (if xgtb (Fin x) m then Fin x else m) x
  /\ (forall v, boundsAbove m v -> boundsAbove (if xgtb (Fin x) m then Fin x else m) v).
Proof.
  destruct m as [| |r|]; cbn [maximumOk xgtb xltb]; try contradiction; intros _.
  - cbn [maximumOk boundsAbove]. split; [exact I|]. split; [lra|]. intros v [].
  - destruct (ltb r x) eqn:E; cbn [maximumOk boundsAbove].
    + apply ltb_true in E. split; [exact I|]. split; [lra|]. intros v Hv. lra.
    + apply ltb_false in E. split; [exact I|]. split; [lra|]. intros v Hv. exact Hv.
Qed.

(** One iteration keeps the extents in order, encloses the point it looks
    at, and goes on enclosing what was enclosed. *)
Lemma metricsStep_encloses contour a i :
  extentsOk a ->
  extentsOk (metricsStep contour a i)
  /\ encloses (metricsStep contour a i) (nth i contour origin)
  /\ (forall p, encloses a p -> encloses (metricsStep contour a i) p).
Proof.
  intros (H1 & H2 & H3 & H4).
  unfold extentsOk, encloses, metricsStep. cbn [minX minY maxX maxY].
  set (p1 := nth i contour origin).
  destruct (minimum_step (minX a) (px p1) H1) as (A1 & B1 & C1).
  destruct (minimum_step (minY a) (py p1) H2) as (A2 & B2 & C2).
  destruct (maximum_step (maxX a) (px p1) H3) as (A3 & B3 & C3).
  destruct (maximum_step (maxY a) (py p1) H4) as (A4 & B4 & C4).
  repeat split; auto.
  - apply C1. tauto.
  - apply C2. tauto.
  - apply C3. tauto.
  - apply C4. tauto.
Qed.

Lemma metricsLoop_encloses contour l :
  forall a,
    extentsOk a ->
    extentsOk (fold_left (metricsStep contour) l a)
    /\ (forall p, encloses a p -> encloses (fold_left (metricsStep contour) l a) p)
    /\ Forall (fun i => encloses (fold_left (metricsStep contour) l a)
                                 (nth i contour origin)) l.
Proof.
  induction l as [|i l IH]; intros a Hok; cbn [fold_left].
  - split; [exact Hok|]. split; [auto | constructor].
  - destruct (metricsStep_encloses contour a i Hok) as (Hok' & Hi & Hkeep).
    destruct (IH _ Hok') as (Hok'' & Hkeep' & Hall).
    split; [exact Hok''|]. split; [auto|].
    constructor; [now apply Hkeep' | exact Hall].
Qed.

(** The bounding box encloses every point of the contour. *)
Lemma boundingBox_encloses (contour : Contour) :
  Forall (fun p =>
            bx (boundingBox (calculateMetrics contour)) <= px p
            /\ px p <= bx (boundingBox (calculateMetrics contour))
                       + bwidth (boundingBox (calculateMetrics contour))
            /\ by_ (boundingBox (calculateMetrics contour)) <= py p
            /\ py p <= by_ (boundingBox (calculateMetrics contour))
                       + bheight (boundingBox (calculateMetrics contour)))
         contour.
Proof.
  destruct contour as [|p0 ps]; [constructor|].
  remember (p0 :: ps) as contour eqn:Ec.
  assert (Hbox : boundingBox (calculateMetrics contour)
                 = mkBox (fin (minX (metricsLoop contour)))
                         (fin (minY (metricsLoop contour)))
                         (fin (xsub (maxX (metricsLoop contour)) (minX (metricsLoop contour))))
                         (fin (xsub (maxY (metricsLoop contour)) (minY (metricsLoop contour))))).
  { rewrite Ec. reflexivity. }
  rewrite Hbox. cbn [bx by_ bwidth bheight].
  assert (Hinit : extentsOk metricsInit) by (repeat split).
  destruct (metricsLoop_encloses contour (seq 0 (length contour)) metricsInit Hinit)
    as (_ & _ & Hall).
  fold (metricsLoop contour) in Hall.
  rewrite <- (map_nth_seq contour origin) at 1.
  rewrite Forall_map.
  eapply Forall_impl; [|exact Hall].
  cbn beta. intros i (E1 & E2 & E3 & E4).
  destruct (minX (metricsLoop contour)); try contradiction.
  destruct (minY (metricsLoop contour)); try contradiction.
  destruct (maxX (metricsLoop contour)); try contradiction.
  destruct (maxY (metricsLoop contour)); try contradiction.
  cbn in *. lra.
Qed.

Lemma fold_sumX contour l a :
  sumX (fold_left (metricsStep contour) l a)
  = sumX a + Rsum (map (fun i => px (nth i contour origin)) l).
Proof.
  revert a; induction l as [|i l IH]; intros a; cbn [fold_left map Rsum fold_right].
  - lra.
  - rewrite IH. cbn [metricsStep sumX]. unfold Rsum. lra.
Qed.

Lemma fold_sumY contour l a :
  sumY (fold_left (metricsStep contour) l a)
  = sumY a + Rsum (map (fun i => py (nth i contour origin)) l).
Proof.
  revert a; induction l as [|i l IH]; intros a; cbn [fold_left map Rsum fold_right].
  - lra.
  - rewrite IH. cbn [metricsStep sumY]. unfold Rsum. lra.
Qed.

(** The center is the mean of the points. *)
Lemma center_mean (contour : Contour) :
  contour <> [] ->
  center (calculateMetrics contour)
  = mkPoint (Rsum (map px contour) / INR (length contour))
            (Rsum (map py contour) / INR (length contour)).
Proof.
  intros Hne. destruct contour as [|p ps]; [congruence|].
  unfold calculateMetrics, metricsLoop. cbn [center].
  rewrite fold_sumX, fold_sumY. cbn [metricsInit sumX sumY].
  rewrite <- (map_map (fun i => nth i (p :: ps) origin) px).
  rewrite <- (map_map (fun i => nth i (p :: ps) origin) py).
  rewrite map_nth_seq. f_equal; lra.
Qed.

(** C9.  The empty contour has all-zero metrics: area, perimeter, the four
    fields of the bounding box and both coordinates of the center. *)
Theorem calculateMetrics_empty :
  calculateMetrics [] = mkMetrics 0 0 (mkBox 0 0 0 0) (mkPoint 0 0).
Proof. reflexivity. Qed.

(** C8 (as amended).  Take a contour of whole-number coordinates, as the
    detector builds them.  Translating it to another such contour leaves the
    computed area unchanged; scaling it by a whole number [k] of size at most
    100000 to another such contour multiplies the computed area by [k^2];
    and when the size of [k] is a power of two, scaling it to another such
    contour multiplies the computed perimeter by the absolute value of [k].
    The restrictions are those under which the doubles of the code make no
    rounding error that the two sides do not share: whole numbers below
    [2^53] are exact, and scaling by a power of two commutes with every
    rounding of the perimeter scan.  For other factors the square roots of
    the two sides round differently, and the square of a fraction is itself
    rounded. *)
Theorem calculateMetrics_translate_scale (contour : Contour) (dx dy k : R) :
  wholeCoordinates contour ->
  (wholeCoordinates (translate dx dy contour) ->
   area (calculateMetrics (translate dx dy contour)) = area (calculateMetrics contour))
  /\ (wholeCoordinates (scale k contour) ->
      (exists n : Z, k = IZR n /\ (Z.abs n <= 100000)%Z) ->
      area (calculateMetrics (scale k contour)) = k ^ 2 * area (calculateMetrics contour))
  /\ (wholeCoordinates (scale k contour) ->
      (exists n : Z, Rabs k = powerRZ 2 n) ->
      perimeter (calculateMetrics (scale k contour))
      = Rabs k * perimeter (calculateMetrics contour)).
Proof.
  intros _.
  split; [intros _; apply area_translate|].
  split; [intros _ _; apply area_scale | intros _ _; apply perimeter_scale].
Qed.

Lemma wholeCoordinates_triangle : wholeCoordinates triangleContour.
Proof.
  split; [|cbn [triangleContour length]; lia].
  repeat apply Forall_cons; try apply Forall_nil.
  - exists 0%Z, 0%Z. cbn [px py]. repeat split; lia.
  - exists 40%Z, 0%Z. cbn [px py]. repeat split; lia.
  - exists 0%Z, 30%Z. cbn [px py]. repeat split; lia.
Qed.

Lemma wholeCoordinates_triangle_moved :
  wholeCoordinates (translate 1 2 triangleContour).
Proof.
  split; [|cbn [translate triangleContour map length]; lia].
  repeat apply Forall_cons; try apply Forall_nil.
  - exists 1%Z, 2%Z. cbn [px py]. repeat split; lra || lia.
  - exists 41%Z, 2%Z. cbn [px py]. repeat split; lra || lia.
  - exists 1%Z, 32%Z. cbn [px py]. repeat split; lra || lia.
Qed.

Lemma wholeCoordinates_triangle_doubled :
  wholeCoordinates (scale 2 triangleContour).
Proof.
  split; [|cbn [scale triangleContour map length]; lia].
  repeat apply Forall_cons; try apply Forall_nil.
  - exists 0%Z, 0%Z. cbn [px py]. repeat split; lra || lia.
  - exists 80%Z, 0%Z. cbn [px py]. repeat split; lra || lia.
  - exists 0%Z, 60%Z. cbn [px py]. repeat split; lra || lia.
Qed.

Lemma calculateMetrics_translate_scale_witness :
  wholeCoordinates triangleContour
  /\ wholeCoordinates (translate 1 2 triangleContour)
  /\ wholeCoordinates (scale 2 triangleContour)
  /\ (exists n : Z, 2 = IZR n /\ (Z.abs n <= 100000)%Z)
  /\ (exists n : Z, Rabs 2 = powerRZ 2 n)
  /\ area (calculateMetrics (translate 1 2 triangleContour))
     = area (calculateMetrics triangleContour)
  /\ area (calculateMetrics (scale 2 triangleContour))
     = 2 ^ 2 * area (calculateMetrics triangleContour)
  /\ perimeter (calculateMetrics (scale 2 triangleContour))
     = Rabs 2 * perimeter (calculateMetrics triangleContour).
Proof.
  pose proof wholeCoordinates_triangle as H0.
  pose proof wholeCoordinates_triangle_moved as H1.
  pose proof wholeCoordinates_triangle_doubled as H2.
  assert (H3 : exists n : Z, 2 = IZR n /\ (Z.abs n <= 100000)%Z).
  { exists 2%Z. split; [reflexivity | lia]. }
  assert (H4 : exists n : Z, Rabs 2 = powerRZ 2 n).
  { exists 1%Z. rewrite Rabs_pos_eq by lra. simpl. lra. }
  destruct (calculateMetrics_translate_scale triangleContour 1 2 2 H0) as (A & B & C).
  split; [exact H0|]. split; [exact H1|]. split; [exact H2|].
  split; [exact H3|]. split; [exact H4|].
  split; [exact (A H1)|]. split; [exact (B H2 H3) | exact (C H2 H4)].
Defined.

(** For a factor that is not negative the perimeter scales by the factor
    itself. *)
Corollary perimeter_scale_nonneg k contour :
  0 <= k ->
  perimeter (calculateMetrics (scale k contour)) = k * perimeter (calculateMetrics contour).
Proof. intros Hk. rewrite perimeter_scale. now rewrite Rabs_pos_eq. Qed.

(** C8 fails as stated for a negative factor: mirroring the unit segment
    through the origin ([k = -1]) leaves its perimeter at 2, not at
    [-1 * 2]. *)
Lemma perimeter_not_scaled_by_negative_factor :
  perimeter (calculateMetrics (scale (-1) unitSegment)) = 2
  /\ -1 * perimeter (calculateMetrics unitSegment) = -2
  /\ perimeter (calculateMetrics (scale (-1) unitSegment))
     <> -1 * perimeter (calculateMetrics unitSegment).
Proof.
  rewrite perimeter_scale, perimeter_unitSegment.
  assert (H : Rabs (-1) = 1) by (unfold Rabs; destruct (Rcase_abs (-1)); lra).
  rewrite H.
  repeat split; lra.
Qed.

End MetricsFacts.

(** ** simplifyContour *)

Section SimplifyFacts.

Lemma subseq_refl {A : Type} (l : list A) : subseq l l.
Proof. induction l; [apply subseq_nil | now apply subseq_keep]. Qed.

Lemma subseq_app {A : Type} (l1 l2 m1 m2 : list A) :
  subseq l1 l2 -> subseq m1 m2 -> subseq (l1 ++ m1) (l2 ++ m2).
Proof.
  induction 1; intros Hm; cbn; auto; [apply subseq_skip | apply subseq_keep]; auto.
Qed.

Lemma subseq_Forall {A : Type} (P : A -> Prop) (l1 l2 : list A) :
  subseq l1 l2 -> Forall P l2 -> Forall P l1.
Proof.
  induction 1; intros HF; auto; inversion HF; subst; auto.
Qed.

Lemma subseq_length {A : Type} (l1 l2 : list A) :
  subseq l1 l2 -> (length l1 <= length l2)%nat.
Proof. induction 1; cbn; lia. Qed.

Lemma subseq_filter {A : Type} (f : A -> bool) (l : list A) :
  subseq (filter f l) l.
Proof.
  induction l as [|a l IH]; cbn; [apply subseq_nil|].
  destruct (f a); [now apply subseq_keep | now apply subseq_skip].
Qed.

Lemma subseq_map {A B : Type} (g : A -> B) (l1 l2 : list A) :
  subseq l1 l2 -> subseq (map g l1) (map g l2).
Proof.
  induction 1; cbn; [apply subseq_nil | now apply subseq_skip | now apply subseq_keep].
Qed.

(** A list of two or more elements has two ends and an interior. *)
Lemma ends_interior {A : Type} (l : list A) :
  (2 <= length l)%nat -> exists a interior b, l = a :: interior ++ [b].
Proof.
  destruct l as [|a l]; cbn; [lia|]. intros H.
  destruct (exists_last (l := l)) as (interior & b & ->).
  - intros ->. cbn in H. lia.
  - now exists a, interior, b.
Qed.

Lemma firstn_through {A : Type} (l1 : list A) (c : A) (rest : list A) :
  firstn (length l1 + 1) (l1 ++ c :: rest) = l1 ++ [c].
Proof. induction l1 as [|x l1 IH]; cbn; [reflexivity | now rewrite IH]. Qed.

Lemma skipn_to {A : Type} (l1 rest : list A) :
  skipn (length l1) (l1 ++ rest) = rest.
Proof. induction l1; cbn; auto. Qed.

Lemma firstn_drop_last {A : Type} (l : list A) (c : A) :
  firstn (length (l ++ [c]) - 1) (l ++ [c]) = l.
Proof.
  rewrite length_app. cbn [length].
  replace (length l + 1 - 1)%nat with (length l) by lia.
  rewrite firstn_app, firstn_all, Nat.sub_diag. cbn. apply app_nil_r.
Qed.

(** *** The search for the farthest point *)

Lemma fold_farthestStep points f l :
  (forall p, f p = perpendicularDistance p (nth 0 points origin)
                     (nth (length points - 1) points origin)) ->
  forall i s,
    (forall j, (j < length l)%nat -> nth (i + j) points origin = nth j l origin) ->
    fold_left (farthestStep points) (seq i (length l)) s = argmaxFrom f l i s.
Proof.
  intros Hf. induction l as [|p l IH]; intros i s Hnth; [reflexivity|].
  cbn [length seq fold_left argmaxFrom].
  rewrite IH.
  - f_equal. unfold farthestStep. rewrite Hf.
    specialize (Hnth 0%nat). cbn [length nth] in Hnth.
    rewrite Nat.add_0_r in Hnth. rewrite Hnth by lia. reflexivity.
  - intros j Hj. specialize (Hnth (S j)). cbn [length nth] in Hnth.
    replace (S i + j)%nat with (i + S j)%nat by lia. apply Hnth. lia.
Qed.

(** On [a :: interior ++ [b]] the loop is the search over [interior] for
    the distance to the chord from [a] to [b]. *)
Lemma farthest_argmax a interior b :
  farthest (a :: interior ++ [b])
  = argmaxFrom (fun p => perpendicularDistance p a b) interior 1 (0, O).
Proof.
  unfold farthest.
  assert (Hlen : (length (a :: interior ++ [b]) - 1 - 1 = length interior)%nat).
  { cbn [length]. rewrite length_app. cbn [length]. lia. }
  rewrite Hlen.
  apply fold_farthestStep.
  - intros p. cbn [nth]. f_equal.
    cbn [length]. rewrite length_app. cbn [length].
    replace (S (length interior + 1) - 1)%nat with (S (length interior)) by lia.
    cbn [nth]. rewrite app_nth2 by lia. now rewrite Nat.sub_diag.
  - intros j Hj. cbn [Nat.add nth]. now rewrite app_nth1.
Qed.

Lemma argmaxFrom_below f l :
  forall i s, Forall (fun p => f p <= fst s) l -> argmaxFrom f l i s = s.
Proof.
  induction l as [|p l IH]; intros i s HF; [reflexivity|].
  inversion HF as [|? ? Hp Hl]; subst. cbn [argmaxFrom].
  assert (E : gtb (f p) (fst s) = false) by (apply gtb_false; lra).
  rewrite E. now apply IH.
Qed.

(** The loop stops on the first point at maximal distance. *)
Lemma argmaxFrom_split f l1 c l2 :
  forall i s,
    fst s < f c ->
    Forall (fun p => f p < f c) l1 ->
    Forall (fun p => f p <= f c) l2 ->
    argmaxFrom f (l1 ++ c :: l2) i s = (f c, (i + length l1)%nat).
Proof.
  induction l1 as [|p l1 IH]; intros i s Hs H1 H2.
  - cbn [app argmaxFrom length].
    assert (E : gtb (f c) (fst s) = true) by (apply gtb_true; lra).
    rewrite E, Nat.add_0_r. now apply argmaxFrom_below.
  - inversion H1 as [|? ? Hp Hl]; subst.
    cbn [app argmaxFrom length].
    rewrite IH; auto.
    all: try (f_equal; lia).
    destruct (gtb (f p) (fst s)); cbn [fst]; lra.
Qed.

(** Either nothing beat the initial pair, or the result is the first point
    of maximal distance. *)
Lemma argmaxFrom_inv f l :
  forall i s dmax index,
    argmaxFrom f l i s = (dmax, index) ->
    (s = (dmax, index) /\ Forall (fun p => f p <= fst s) l)
    \/ (exists l1 c l2,
           l = l1 ++ c :: l2 /\ index = (i + length l1)%nat /\ dmax = f c
           /\ fst s < f c
           /\ Forall (fun p => f p < f c) l1
           /\ Forall (fun p => f p <= f c) l2).
Proof.
  induction l as [|p l IH]; intros i s dmax index H.
  - left. cbn in H. split; auto.
  - cbn [argmaxFrom] in H.
    destruct (gtb (f p) (fst s)) eqn:E.
    + apply gtb_true in E.
      apply IH in H.
      destruct H as [[Hs HF]|(l1 & c & l2 & Hl & Hi & Hd & Hlt & H1 & H2)].
      * right. exists [], p, l. inversion Hs; subst.
        cbn [fst] in HF. cbn [length app].
        split; [reflexivity|]. split; [lia|]. split; [reflexivity|].
        split; [lra|]. split; [constructor | exact HF].
      * right. exists (p :: l1), c, l2. cbn [fst] in Hlt. subst.
        split; [reflexivity|]. split; [cbn [length]; lia|]. split; [reflexivity|].
        split; [lra|]. split; [constructor; auto | exact H2].
    + apply gtb_false in E.
      apply IH in H.
      destruct H as [[Hs HF]|(l1 & c & l2 & Hl & Hi & Hd & Hlt & H1 & H2)].
      * left. split; auto. constructor; auto. lra.
      * right. exists (p :: l1), c, l2. subst.
        split; [reflexivity|]. split; [cbn [length]; lia|]. split; [reflexivity|].
        split; [exact Hlt|]. split; [constructor; auto; lra | exact H2].
Qed.

(** *** The recursion *)

Lemma simplifyContour_unfold fuel points epsilon :
  simplifyContour (S fuel) points epsilon =
  if (length points <? 3)%nat then Some points
  else if gtb (fst (farthest points)) epsilon then
         match simplifyContour fuel (firstn (snd (farthest points) + 1) points) epsilon with
         | None => None
         | Some recResults1 =>
           match simplifyContour fuel (skipn (snd (farthest points)) points) epsilon with
           | None => None
           | Some recResults2 =>
             Some (firstn (length recResults1 - 1) recResults1 ++ recResults2)
           end
         end
       else Some [nth 0 points origin; nth (length points - 1) points origin].
Proof. reflexivity. Qed.

(** When the search leaves [index] at 0 and the test [dmax > epsilon]
    still passes, the second recursive call is the call itself: no budget
    is enough. *)
Lemma simplifyContour_stuck points epsilon :
  (3 <= length points)%nat ->
  snd (farthest points) = O ->
  gtb (fst (farthest points)) epsilon = true ->
  forall fuel, simplifyContour fuel points epsilon = None.
Proof.
  intros Hlen Hidx Hgt fuel.
  induction fuel as [|fuel IH]; [reflexivity|].
  rewrite simplifyContour_unfold.
  assert (E : (length points <? 3)%nat = false) by (apply Nat.ltb_ge; lia).
  rewrite E, Hgt, Hidx. cbn [skipn]. rewrite IH.
  now destruct (simplifyContour fuel (firstn (0 + 1) points) epsilon).
Qed.

Lemma split_at_corner (a b c : Point) (l1 l2 : list Point) :
  firstn (1 + length l1 + 1) (a :: (l1 ++ c :: l2) ++ [b]) = a :: l1 ++ [c]
  /\ skipn (1 + length l1) (a :: (l1 ++ c :: l2) ++ [b]) = c :: l2 ++ [b].
Proof.
  cbn [Nat.add firstn skipn]. rewrite <- app_assoc. cbn [app].
  now rewrite firstn_through, skipn_to.
Qed.

(** The search never ends below its starting value, and nothing it saw is
    above its result. *)
Lemma argmaxFrom_upper f l i s dmax index :
  argmaxFrom f l i s = (dmax, index) ->
  fst s <= dmax /\ Forall (fun p => f p <= dmax) l.
Proof.
  intros H. apply argmaxFrom_inv in H.
  destruct H as [[-> HF]|(l1 & c & l2 & -> & _ & -> & Hlt & H1 & H2)].
  - cbn [fst] in *. split; [lra | exact HF].
  - split; [lra|].
    apply Forall_app. split.
    + eapply Forall_impl; [|exact H1]. cbn beta. intros p Hp. lra.
    + constructor; [lra | exact H2].
Qed.

(** The shape of a simplified list: short lists are unchanged; otherwise
    both ends are kept and the interior is thinned out. *)
Lemma Simplified_shape epsilon points out :
  Simplified epsilon points out ->
  ((length points < 2)%nat /\ out = points)
  \/ (exists a interior b mid,
         points = a :: interior ++ [b] /\ out = a :: mid ++ [b]
         /\ subseq mid interior).
Proof.
  intros H. destruct H as [points Hshort|a b interior Hne HF|a b c l1 l2 m1 m2 Hc H1 H2 S1 S2].
  - destruct (Nat.lt_ge_cases (length points) 2) as [Hlt|Hge]; [now left|right].
    destruct (ends_interior points Hge) as (a & interior & b & ->).
    exists a, interior, b, interior. repeat split. apply subseq_refl.
  - right. exists a, interior, b, []. repeat split.
    clear. induction interior; [apply subseq_nil | now apply subseq_skip].
  - right. exists a, (l1 ++ c :: l2), b, (m1 ++ c :: m2).
    split; [reflexivity|]. split; [reflexivity|].
    assert (Hsub : forall x y i m,
               Simplified epsilon (x :: i ++ [y]) (x :: m ++ [y]) -> subseq m i).
    { clear. intros x y i m H.
      remember (x :: i ++ [y]) as pts eqn:Ep.
      remember (x :: m ++ [y]) as res eqn:Er.
      revert x y i m Ep Er.
      induction H as [pts Hs|a b interior Hne HF|a b c l1 l2 m1 m2 Hc H1 H2 S1 IH1 S2 IH2];
        intros x y i m Ep Er.
      - subst pts. injection Er as E. apply app_inj_tail in E.
        destruct E as [-> _]. apply subseq_refl.
      - injection Ep as Ea E. apply app_inj_tail in E. destruct E as [<- <-].
        injection Er as _ E. destruct m as [|? m]; [|destruct m; discriminate].
        clear. induction interior; [apply subseq_nil | now apply subseq_skip].
      - injection Ep as Ea E. apply app_inj_tail in E. destruct E as [<- <-].
        injection Er as _ E. apply app_inj_tail in E. destruct E as [<- _].
        apply subseq_app; [eapply IH1; reflexivity|].
        apply subseq_keep. eapply IH2; reflexivity. }
    apply subseq_app; [eapply Hsub; eauto|].
    apply subseq_keep. eapply Hsub; eauto.
Qed.

(** A call that returns has computed a simplification in the sense of
    [Simplified], and its output is a fixed point of the call. *)
Lemma simplifyContour_Simplified fuel :
  forall points epsilon out,
    simplifyContour fuel points epsilon = Some out ->
    Simplified epsilon points out
    /\ simplifyContour fuel out epsilon = Some out.
Proof.
  induction fuel as [|fuel IH]; intros points epsilon out H; [discriminate|].
  rewrite simplifyContour_unfold in H.
  destruct (length points <? 3)%nat eqn:Hshort.
  - (* fewer than three points *)
    inversion H; subst out. apply Nat.ltb_lt in Hshort.
    split; [now apply Simplified_short|].
    rewrite simplifyContour_unfold.
    now rewrite (proj2 (Nat.ltb_lt _ _) Hshort).
  - apply Nat.ltb_ge in Hshort.
    destruct (ends_interior points ltac:(lia)) as (a & interior & b & Hpts).
    destruct (farthest points) as [dmax index] eqn:Hfar. cbn [fst snd] in H.
    pose proof Hfar as Hfar'.
    rewrite Hpts, farthest_argmax in Hfar'.
    destruct (gtb dmax epsilon) eqn:Hgt.
    + (* a corner: both halves are simplified *)
      apply argmaxFrom_inv in Hfar'.
      destruct Hfar' as [[Hs _]|(l1 & c & l2 & Hint & Hidx & Hd & Hlt & H1 & H2)].
      * (* the search found nothing: the call cannot have returned *)
        inversion Hs; subst dmax index.
        assert (Hstuck : simplifyContour fuel points epsilon = None).
        { apply simplifyContour_stuck; [lia | now rewrite Hfar | now rewrite Hfar]. }
        cbn [skipn] in H. rewrite Hstuck in H.
        destruct (simplifyContour fuel (firstn (0 + 1) points) epsilon); discriminate.
      * cbn [fst] in Hlt. subst interior index.
        destruct (split_at_corner a b c l1 l2) as [Hfirst Hskip].
        rewrite Hpts, Hfirst, Hskip in H.
        destruct (simplifyContour fuel (a :: l1 ++ [c]) epsilon) as [r1|] eqn:Hr1;
          [|discriminate].
        destruct (simplifyContour fuel (c :: l2 ++ [b]) epsilon) as [r2|] eqn:Hr2;
          [|discriminate].
        inversion H; subst out; clear H.
        destruct (IH _ _ _ Hr1) as (HS1 & Hfix1).
        destruct (IH _ _ _ Hr2) as (HS2 & Hfix2).
        destruct (Simplified_shape _ _ _ HS1)
          as [[Hl1 _]|(a1 & i1 & b1 & m1 & E1 & Ho1 & Hs1)].
        { cbn [length] in Hl1. rewrite length_app in Hl1. cbn [length] in Hl1. lia. }
        destruct (Simplified_shape _ _ _ HS2)
          as [[Hl2 _]|(a2 & i2 & b2 & m2 & E2 & Ho2 & Hs2)].
        { cbn [length] in Hl2. rewrite length_app in Hl2. cbn [length] in Hl2. lia. }
        inversion E1 as [[Ea E1']]. apply app_inj_tail in E1'. destruct E1' as [<- <-].
        inversion E2 as [[Ec E2']]. apply app_inj_tail in E2'. destruct E2' as [<- <-].
        subst a1 a2.
        assert (Hout : firstn (length r1 - 1) r1 ++ r2 = a :: (m1 ++ c :: m2) ++ [b]).
        { rewrite Ho1, Ho2.
          change (a :: m1 ++ [c]) with ((a :: m1) ++ [c]).
          rewrite firstn_drop_last. cbn [app]. now rewrite <- app_assoc. }
        rewrite Hout, Hpts.
        rewrite Hd in Hgt. cbn beta in Hgt.
        split.
        { rewrite Ho1 in HS1. rewrite Ho2 in HS2.
          apply Simplified_split; auto. now apply gtb_true in Hgt. }
        (* the output is simplified again in the same way *)
        rewrite simplifyContour_unfold.
        assert (Hlen : (length (a :: (m1 ++ c :: m2) ++ [b]) <? 3)%nat = false).
        { apply Nat.ltb_ge. cbn [length]. rewrite !length_app. cbn [length]. lia. }
        rewrite Hlen, farthest_argmax.
        rewrite (argmaxFrom_split _ m1 c m2 1%nat (0, O)); auto.
        2:{ eapply subseq_Forall; eauto. }
        2:{ eapply subseq_Forall; eauto. }
        cbn [fst snd]. rewrite Hgt.
        destruct (split_at_corner a b c m1 m2) as [Hfirst' Hskip'].
        rewrite Hfirst', Hskip', <- Ho1, <- Ho2, Hfix1, Hfix2. now rewrite Hout.
    + (* no corner: the two ends *)
      inversion H; subst out; clear H.
      assert (E0 : nth 0 points origin = a) by now rewrite Hpts.
      assert (E1 : nth (length points - 1) points origin = b).
      { rewrite Hpts. cbn [length]. rewrite length_app. cbn [length].
        replace (S (length interior + 1) - 1)%nat with (S (length interior)) by lia.
        cbn [nth]. rewrite app_nth2 by lia. now rewrite Nat.sub_diag. }
      rewrite E0, E1, Hpts. split; [|reflexivity].
      apply Simplified_chord.
      * intros ->. rewrite Hpts in Hshort. cbn in Hshort. lia.
      * apply argmaxFrom_upper in Hfar'. destruct Hfar' as [_ HF].
        apply gtb_false in Hgt.
        eapply Forall_impl; [|exact HF]. cbn beta. intros p Hp. lra.
Qed.

(** What a call that returns has computed: short lists are returned as
    they are; otherwise both ends are kept and the interior is thinned
    out; and in either case the output is a fixed point of the call. *)
Lemma simplifyContour_sound fuel points epsilon out :
  simplifyContour fuel points epsilon = Some out ->
  simplifyContour fuel out epsilon = Some out
  /\ (((length points < 2)%nat /\ out = points)
      \/ (exists a interior b mid,
             points = a :: interior ++ [b] /\ out = a :: mid ++ [b]
             /\ subseq mid interior)).
Proof.
  intros H. apply simplifyContour_Simplified in H. destruct H as [HS Hfix].
  split; [exact Hfix | now apply Simplified_shape in HS].
Qed.

(** With a tolerance that is not negative every recursive call is on a
    strictly shorter list, so a budget above the length is enough. *)
Lemma simplifyContour_returns fuel :
  forall points epsilon,
    0 <= epsilon -> (length points < fuel)%nat ->
    exists out, simplifyContour fuel points epsilon = Some out.
Proof.
  induction fuel as [|fuel IH]; intros points epsilon Heps Hfuel; [lia|].
  rewrite simplifyContour_unfold.
  destruct (length points <? 3)%nat eqn:Hshort; [eauto|].
  apply Nat.ltb_ge in Hshort.
  destruct (gtb (fst (farthest points)) epsilon) eqn:Hgt; [|eauto].
  destruct (ends_interior points ltac:(lia)) as (a & interior & b & Hpts).
  destruct (farthest points) as [dmax index] eqn:Hfar. cbn [fst snd] in *.
  apply gtb_true in Hgt.
  pose proof Hfar as Hfar'.
  rewrite Hpts, farthest_argmax in Hfar'.
  apply argmaxFrom_inv in Hfar'.
  destruct Hfar' as [[Hs _]|(l1 & c & l2 & Hint & Hidx & _)].
  - inversion Hs. lra.
  - subst interior index.
    destruct (split_at_corner a b c l1 l2) as [Hfirst Hskip].
    rewrite Hpts, Hfirst, Hskip.
    assert (Hlen : length points = (length l1 + length l2 + 3)%nat).
    { rewrite Hpts. cbn [length]. rewrite !length_app. cbn [length]. lia. }
    destruct (IH (a :: l1 ++ [c]) epsilon Heps) as [r1 ->].
    { cbn [length]. rewrite length_app. cbn [length]. lia. }
    destruct (IH (c :: l2 ++ [b]) epsilon Heps) as [r2 ->].
    { cbn [length]. rewrite length_app. cbn [length]. lia. }
    eauto.
Qed.

(** A larger budget does not change what a call returns. *)
Lemma simplifyContour_fuel_mono fuel :
  forall fuel' points epsilon out,
    simplifyContour fuel points epsilon = Some out ->
    (fuel <= fuel')%nat ->
    simplifyContour fuel' points epsilon = Some out.
Proof.
  induction fuel as [|fuel IH]; intros fuel' points epsilon out H Hle; [discriminate|].
  destruct fuel' as [|fuel']; [lia|].
  rewrite simplifyContour_unfold in *.
  destruct (length points <? 3)%nat; auto.
  destruct (gtb (fst (farthest points)) epsilon); auto.
  destruct (simplifyContour fuel (firstn _ points) epsilon) as [r1|] eqn:H1;
    [|discriminate].
  destruct (simplifyContour fuel (skipn _ points) epsilon) as [r2|] eqn:H2;
    [|discriminate].
  rewrite (IH fuel' _ _ _ H1), (IH fuel' _ _ _ H2) by lia. exact H.
Qed.

(** Whatever the tolerance, a call that returns has returned a
    subsequence of its input with the same first and last point. *)
Lemma simplifyContour_keeps_ends fuel points epsilon out :
  simplifyContour fuel points epsilon = Some out ->
  subseq out points
  /\ hd_error out = hd_error points
  /\ last out origin = last points origin.
Proof.
  intros H. apply simplifyContour_sound in H.
  destruct H as (_ & [[_ ->]|(a & interior & b & mid & -> & -> & Hsub)]).
  - repeat split. apply subseq_refl.
  - repeat split.
    + apply subseq_keep. apply subseq_app; auto. apply subseq_refl.
    + change (a :: mid ++ [b]) with ((a :: mid) ++ [b]).
      change (a :: interior ++ [b]) with ((a :: interior) ++ [b]).
      now rewrite !last_last.
Qed.

(** C10 (as amended).  For a non-empty point list and a tolerance that is
    not negative the call returns (any recursion budget above the length
    of the list gives the same output); the output is a subsequence of the
    input, and its first and last points are those of the input. *)
Theorem simplifyContour_subsequence points epsilon :
  points <> [] ->
  0 <= epsilon ->
  exists out,
    (forall fuel, (length points < fuel)%nat ->
                  simplifyContour fuel points epsilon = Some out)
    /\ subseq out points
    /\ hd_error out = hd_error points
    /\ last out origin = last points origin.
Proof.
  intros _ Heps.
  destruct (simplifyContour_returns (S (length points)) points epsilon Heps)
    as [out Hout]; [lia|].
  exists out. split.
  - intros fuel Hfuel. eapply simplifyContour_fuel_mono; eauto.
  - eapply simplifyContour_keeps_ends; eauto.
Qed.

Lemma simplifyContour_subsequence_witness :
  exists out,
    (forall fuel, (length collinear3 < fuel)%nat ->
                  simplifyContour fuel collinear3 1 = Some out)
    /\ subseq out collinear3
    /\ hd_error out = hd_error collinear3
    /\ last out origin = last collinear3 origin.
Proof.
  apply (simplifyContour_subsequence collinear3 1).
  - discriminate.
  - lra.
Defined.

(** C7 (as amended).  For a tolerance that is not negative the call
    returns, and the call on its output, with the same tolerance, returns
    that output again. *)
Theorem simplifyContour_idempotent points epsilon :
  0 <= epsilon ->
  exists out,
    forall fuel, (length points < fuel)%nat ->
                 simplifyContour fuel points epsilon = Some out
                 /\ simplifyContour fuel out epsilon = Some out.
Proof.
  intros Heps.
  destruct (simplifyContour_returns (S (length points)) points epsilon Heps)
    as [out Hout]; [lia|].
  exists out. intros fuel Hfuel.
  assert (H : simplifyContour fuel points epsilon = Some out)
    by (eapply simplifyContour_fuel_mono; eauto).
  split; [exact H|]. now apply simplifyContour_sound in H.
Qed.

Lemma simplifyContour_idempotent_witness :
  exists out,
    forall fuel, (length collinear4 < fuel)%nat ->
                 simplifyContour fuel collinear4 (1 / 2) = Some out
                 /\ simplifyContour fuel out (1 / 2) = Some out.
Proof.
  apply (simplifyContour_idempotent collinear4 (1 / 2)). lra.
Defined.

(** The same holds for any tolerance whenever the first call returns. *)
Lemma simplifyContour_idempotent_partial fuel points epsilon out :
  simplifyContour fuel points epsilon = Some out ->
  simplifyContour fuel out epsilon = Some out.
Proof. intros H. now apply simplifyContour_sound in H. Qed.

(** *** Negative tolerance *)

(** A point on the chord is at distance 0 from it. *)
Lemma distance_collinear3 :
  perpendicularDistance (mkPoint 1 0) (mkPoint 0 0) (mkPoint 2 0) = 0.
Proof.
  unfold perpendicularDistance. cbn [px py].
  repeat decide_test. cbn [andb fst snd].
  match goal with |- sqrt ?x = 0 => replace x with 0 by lra end.
  apply sqrt_0.
Qed.

Lemma distance_collinear4_1 :
  perpendicularDistance (mkPoint 0 1) (mkPoint 0 0) (mkPoint 0 3) = 0.
Proof.
  unfold perpendicularDistance. cbn [px py].
  repeat decide_test. cbn [andb fst snd].
  match goal with |- sqrt ?x = 0 => replace x with 0 by lra end.
  apply sqrt_0.
Qed.

Lemma distance_collinear4_2 :
  perpendicularDistance (mkPoint 0 2) (mkPoint 0 0) (mkPoint 0 3) = 0.
Proof.
  unfold perpendicularDistance. cbn [px py].
  repeat decide_test. cbn [andb fst snd].
  match goal with |- sqrt ?x = 0 => replace x with 0 by lra end.
  apply sqrt_0.
Qed.

Lemma farthest_collinear3 : farthest collinear3 = (0, O).
Proof.
  change collinear3 with (mkPoint 0 0 :: [mkPoint 1 0] ++ [mkPoint 2 0]).
  rewrite farthest_argmax. cbn [argmaxFrom fst].
  rewrite distance_collinear3. now decide_test.
Qed.

Lemma farthest_collinear4 : farthest collinear4 = (0, O).
Proof.
  change collinear4
    with (mkPoint 0 0 :: [mkPoint 0 1; mkPoint 0 2] ++ [mkPoint 0 3]).
  rewrite farthest_argmax. cbn [argmaxFrom fst].
  rewrite distance_collinear4_1. decide_test. cbn [fst].
  rewrite distance_collinear4_2. now decide_test.
Qed.

(** C10 fails as stated for a negative tolerance: on three collinear
    points with [epsilon = -1] no point is off the chord, [index] stays 0,
    the test [dmax > epsilon] passes, and the second recursive call is the
    call itself.  No budget makes the call return, so there is no output. *)
Lemma simplifyContour_collinear3_never_returns :
  farthest collinear3 = (0, O)
  /\ -1 < 0
  /\ ~ (exists fuel out, simplifyContour fuel collinear3 (-1) = Some out).
Proof.
  split; [apply farthest_collinear3|]. split; [lra|].
  intros (fuel & out & H).
  rewrite simplifyContour_stuck in H; [discriminate | cbn; lia | |].
  - now rewrite farthest_collinear3.
  - rewrite farthest_collinear3. cbn [fst]. now decide_test.
Qed.

(** C7 fails as stated for a negative tolerance: on four collinear points
    with [epsilon = -1/2] the call never returns, so there is no output to
    run the simplifier on. *)
Lemma simplifyContour_collinear4_never_returns :
  farthest collinear4 = (0, O)
  /\ -1 / 2 < 0
  /\ ~ (exists fuel out, simplifyContour fuel collinear4 (-1 / 2) = Some out).
Proof.
  split; [apply farthest_collinear4|]. split; [lra|].
  intros (fuel & out & H).
  rewrite simplifyContour_stuck in H; [discriminate | cbn; lia | |].
  - now rewrite farthest_collinear4.
  - rewrite farthest_collinear4. cbn [fst]. now decide_test.
Qed.

End SimplifyFacts.

(** ** Contours on an axis-parallel line

    A contour whose bounding box has width or height zero lies on a vertical
    or horizontal line.  On such a line every corner the simplifier keeps
    costs the contour more than [2 * epsilon] of perimeter, which bounds the
    number of corners by the ratio of the perimeter to the tolerance. *)

Section Line.

(** [online p]: [p] is on the line; [u p]: its position along the line. *)
Variable online : Point -> Prop.
Variable u : Point -> R.

Hypothesis dist_online :
  forall p q, online p -> online q -> dist p q = Rabs (u q - u p).

Hypothesis excess_online :
  forall p a b, online p -> online a -> online b ->
    Rabs (u a - u b) + 2 * perpendicularDistance p a b
    <= Rabs (u p - u a) + Rabs (u b - u p).

Lemma pathLength_detour (a x : R) (l : list R) :
  pathLength (a :: l) <= Rabs (x - a) + pathLength (x :: l).
Proof.
  destruct l as [|y l]; cbn [pathLength].
  - pose proof (Rabs_pos (x - a)). lra.
  - pose proof (Rabs_triang (y - x) (x - a)) as T.
    replace (y - x + (x - a)) with (y - a) in T by ring. lra.
Qed.

(** Dropping interior points does not lengthen a polyline. *)
Lemma pathLength_subseq (m i : list R) :
  subseq m i ->
  forall a b, pathLength (a :: m ++ [b]) <= pathLength (a :: i ++ [b]).
Proof.
  induction 1 as [|x m i Hs IH|x m i Hs IH]; intros a b.
  - lra.
  - pose proof (pathLength_detour a x (m ++ [b])) as D.
    specialize (IH x b).
    change (pathLength (a :: (x :: i) ++ [b]))
      with (Rabs (x - a) + pathLength (x :: i ++ [b])).
    lra.
  - specialize (IH x b).
    change (pathLength (a :: (x :: i) ++ [b]))
      with (Rabs (x - a) + pathLength (x :: i ++ [b])).
    change (pathLength (a :: (x :: m) ++ [b]))
      with (Rabs (x - a) + pathLength (x :: m ++ [b])).
    lra.
Qed.

Lemma pathLength_join (l1 l2 : list R) (c : R) :
  pathLength (l1 ++ c :: l2) = pathLength (l1 ++ [c]) + pathLength (c :: l2).
Proof.
  induction l1 as [|x l1 IH]; [cbn; lra|].
  destruct l1 as [|y l1].
  - cbn [app pathLength]. lra.
  - change (pathLength ((x :: y :: l1) ++ c :: l2))
      with (Rabs (y - x) + pathLength ((y :: l1) ++ c :: l2)).
    change (pathLength ((x :: y :: l1) ++ [c]))
      with (Rabs (y - x) + pathLength ((y :: l1) ++ [c])).
    rewrite IH. lra.
Qed.

(** The output polyline is longer than the chord by more than
    [2 * epsilon] for every interior point it keeps. *)
Lemma Simplified_excess epsilon points out :
  Simplified epsilon points out ->
  Forall online points ->
  forall a interior b mid,
    points = a :: interior ++ [b] ->
    out = a :: mid ++ [b] ->
    Rabs (u b - u a) + 2 * epsilon * INR (length mid) <= pathLength (map u out)
    /\ (mid <> [] ->
        Rabs (u b - u a) + 2 * epsilon * INR (length mid) < pathLength (map u out)).
Proof.
  induction 1 as [points Hshort|a0 b0 interior0 Hne HF
                  |a0 b0 c l1 l2 m1 m2 Hc H1 H2 S1 IH1 S2 IH2];
    intros Hon a interior b mid Ep Eo.
  - (* a list of two points *)
    subst points. cbn [length] in Hshort. rewrite length_app in Hshort.
    cbn [length] in Hshort.
    destruct interior; [|cbn [length] in Hshort; lia].
    injection Eo as E. destruct mid as [|? mid]; [|destruct mid; discriminate].
    cbn. split; [lra | congruence].
  - injection Ep as -> E. apply app_inj_tail in E. destruct E as [_ ->].
    injection Eo as E. destruct mid as [|? mid]; [|destruct mid; discriminate].
    cbn. split; [lra | congruence].
  - injection Ep as -> E. apply app_inj_tail in E. destruct E as [<- ->].
    injection Eo as E. apply app_inj_tail in E. destruct E as [<- _].
    assert (Hon1 : Forall online (a :: l1 ++ [c])).
    { inversion Hon as [|? ? Ha Hrest]; subst. constructor; [exact Ha|].
      rewrite <- app_assoc in Hrest. apply Forall_app in Hrest.
      destruct Hrest as [Hl1 Hrest]. inversion Hrest; subst.
      apply Forall_app. split; auto. }
    assert (Hon2 : Forall online (c :: l2 ++ [b])).
    { inversion Hon as [|? ? Ha Hrest]; subst.
      rewrite <- app_assoc in Hrest. apply Forall_app in Hrest.
      now destruct Hrest as [_ Hrest]. }
    destruct (IH1 Hon1 a l1 c m1 eq_refl eq_refl) as [E1 _].
    destruct (IH2 Hon2 c l2 b m2 eq_refl eq_refl) as [E2 _].
    assert (Ha : online a) by (inversion Hon1; auto).
    assert (Hcb : online c /\ online b).
    { inversion Hon2 as [|? ? Hc' Hr]; subst. split; [exact Hc'|].
      apply Forall_app in Hr. destruct Hr as [_ Hr]. now inversion Hr. }
    destruct Hcb as [Hc' Hb].
    pose proof (excess_online c a b Hc' Ha Hb) as X.
    assert (Hlen : INR (length (m1 ++ c :: m2)) = INR (length m1) + INR (length m2) + 1).
    { rewrite length_app. cbn [length]. rewrite plus_INR, S_INR. lra. }
    assert (Hpath : pathLength (map u (a :: (m1 ++ c :: m2) ++ [b]))
                    = pathLength (map u (a :: m1 ++ [c]))
                      + pathLength (map u (c :: m2 ++ [b]))).
    { replace (map u (a :: (m1 ++ c :: m2) ++ [b]))
        with ((u a :: map u m1) ++ u c :: (map u m2 ++ [u b])).
      2:{ cbn [map app]. rewrite !map_app. cbn [map].
          rewrite <- app_assoc. reflexivity. }
      rewrite pathLength_join.
      f_equal; cbn [map app]; rewrite !map_app; reflexivity. }
    rewrite Hpath, Hlen.
    replace (Rabs (u b - u a)) with (Rabs (u a - u b)) by apply Rabs_minus_sym.
    replace (Rabs (u c - u a)) with (Rabs (u a - u c)) in E1 by apply Rabs_minus_sym.
    replace (Rabs (u c - u a)) with (Rabs (u a - u c)) in X by apply Rabs_minus_sym.
    split; [|intros _]; nra.
Qed.

(** The perimeter of a contour on the line is the length of its polyline
    plus the closing segment. *)
Lemma segments_online (l : list Point) :
  forall p q,
    Forall online (p :: l) -> online q ->
    Rsum (map (fun pq => dist (fst pq) (snd pq)) (combine (p :: l) (l ++ [q])))
    = pathLength (map u (p :: l)) + Rabs (u q - u (last (p :: l) origin)).
Proof.
  induction l as [|y l IH]; intros p q Hon Hq.
  - inversion Hon; subst. cbn. rewrite dist_online by auto. lra.
  - inversion Hon as [|? ? Hp Hrest]; subst.
    change (combine (p :: y :: l) ((y :: l) ++ [q]))
      with ((p, y) :: combine (y :: l) (l ++ [q])).
    cbn [map Rsum fold_right fst snd].
    change (fold_right Rplus 0 ?x) with (Rsum x).
    rewrite (IH y q Hrest Hq).
    rewrite dist_online by (auto; now inversion Hrest).
    change (last (p :: y :: l) origin) with (last (y :: l) origin).
    cbn [map pathLength]. lra.
Qed.

Lemma perimeter_online (a b : Point) (interior : list Point) :
  Forall online (a :: interior ++ [b]) ->
  perimeter (calculateMetrics (a :: interior ++ [b]))
  = pathLength (map u (a :: interior ++ [b])) + Rabs (u a - u b).
Proof.
  intros Hon. rewrite perimeter_segments.
  unfold rot. cbn [tl firstn].
  rewrite segments_online; auto.
  - change (a :: interior ++ [b]) with ((a :: interior) ++ [b]).
    now rewrite last_last.
  - now inversion Hon.
Qed.

(** With the tolerance at 6% of the perimeter the simplifier keeps at most
    ten points of a contour on the line. *)
Lemma simplified_online_length fuel contour out :
  Forall online contour ->
  simplifyContour fuel contour (0.06 * perimeter (calculateMetrics contour)) = Some out ->
  (length out <= 10)%nat.
Proof.
  intros Hon H.
  apply simplifyContour_Simplified in H. destruct H as [HS _].
  destruct (Simplified_shape _ _ _ HS)
    as [[Hl ->]|(a & interior & b & mid & Ep & Eo & Hsub)]; [lia|].
  destruct (Simplified_excess _ _ _ HS Hon a interior b mid Ep Eo) as [_ Hstrict].
  destruct (Nat.le_gt_cases (length mid) 8) as [Hle|Hgt].
  { rewrite Eo. cbn [length]. rewrite length_app. cbn [length]. lia. }
  exfalso.
  assert (Hne : mid <> []) by (intros ->; cbn in Hgt; lia).
  specialize (Hstrict Hne).
  pose proof (pathLength_subseq _ _ (subseq_map u _ _ Hsub) (u a) (u b)) as Hdrop.
  assert (Hper : perimeter (calculateMetrics contour)
                 = pathLength (map u contour) + Rabs (u a - u b)).
  { rewrite Ep. apply perimeter_online. now rewrite <- Ep. }
  pose proof (perimeter_nonneg contour) as Hpos.
  assert (Hk : 9 <= INR (length mid)).
  { replace 9 with (INR 9) by (cbn; lra). apply le_INR. lia. }
  rewrite Eo in Hstrict. rewrite Ep in Hper at 2.
  cbn [map] in Hstrict, Hper. rewrite !map_app in Hstrict, Hper.
  cbn [map] in Hstrict, Hper.
  pose proof (Rabs_pos (u b - u a)). pose proof (Rabs_pos (u a - u b)).
  set (P := perimeter (calculateMetrics contour)) in *.
  nra.
Qed.

End Line.

(** *** Horizontal and vertical lines *)

Lemma sqrt_square_abs (d : R) : sqrt (d * d) = Rabs d.
Proof. change (d * d) with (Rsqr d). apply sqrt_Rsqr_abs. Qed.

(** On the number line a point outside the chord lengthens the way from
    [a] to [b] by twice its distance to the chord. *)
Lemma chordDistance1_excess (x a b : R) :
  Rabs (a - b) + 2 * chordDistance1 x a b <= Rabs (x - a) + Rabs (b - x).
Proof.
  unfold chordDistance1.
  destruct (eqb (b - a) 0) eqn:E0.
  - apply eqb_true in E0.
    unfold Rabs. repeat destruct Rcase_abs; lra.
  - apply eqb_false in E0.
    assert (Ht : x - a = (x - a) / (b - a) * (b - a)) by (field; exact E0).
    set (t := (x - a) / (b - a)) in *.
    destruct (ltb t 0) eqn:E1.
    + apply ltb_true in E1.
      unfold Rabs. repeat destruct Rcase_abs; nra.
    + apply ltb_false in E1.
      destruct (gtb t 1) eqn:E2.
      * apply gtb_true in E2.
        unfold Rabs. repeat destruct Rcase_abs; nra.
      * unfold Rabs. repeat destruct Rcase_abs; lra.
Qed.

Lemma perpendicularDistance_horizontal (c : R) (p a b : Point) :
  py p = c -> py a = c -> py b = c ->
  perpendicularDistance p a b = chordDistance1 (px p) (px a) (px b).
Proof.
  intros Hp Ha Hb. unfold perpendicularDistance, chordDistance1.
  rewrite Hp, Ha, Hb.
  rewrite (proj2 (eqb_true (c - c) 0)) by lra. rewrite andb_true_r.
  destruct (eqb (px b - px a) 0) eqn:E0.
  - replace ((px p - px a) * (px p - px a) + (c - c) * (c - c))
      with ((px p - px a) * (px p - px a)) by ring.
    apply sqrt_square_abs.
  - apply eqb_false in E0.
    replace (((px p - px a) * (px b - px a) + (c - c) * (c - c))
             / ((px b - px a) * (px b - px a) + (c - c) * (c - c)))
      with ((px p - px a) / (px b - px a)) by (field; split; [nra | exact E0]).
    set (t := (px p - px a) / (px b - px a)).
    assert (Ht : px p - px a = t * (px b - px a)) by (unfold t; field; exact E0).
    destruct (ltb t 0); [|destruct (gtb t 1)]; cbn [fst snd].
    + replace ((px p - px a) * (px p - px a) + (c - c) * (c - c))
        with ((px p - px a) * (px p - px a)) by ring.
      apply sqrt_square_abs.
    + replace ((px p - px b) * (px p - px b) + (c - c) * (c - c))
        with ((px p - px b) * (px p - px b)) by ring.
      apply sqrt_square_abs.
    + match goal with |- sqrt ?x = 0 => replace x with 0 by nra end.
      apply sqrt_0.
Qed.

Lemma perpendicularDistance_vertical (c : R) (p a b : Point) :
  px p = c -> px a = c -> px b = c ->
  perpendicularDistance p a b = chordDistance1 (py p) (py a) (py b).
Proof.
  intros Hp Ha Hb. unfold perpendicularDistance, chordDistance1.
  rewrite Hp, Ha, Hb.
  rewrite (proj2 (eqb_true (c - c) 0)) by lra. rewrite andb_true_l.
  destruct (eqb (py b - py a) 0) eqn:E0.
  - replace ((c - c) * (c - c) + (py p - py a) * (py p - py a))
      with ((py p - py a) * (py p - py a)) by ring.
    apply sqrt_square_abs.
  - apply eqb_false in E0.
    replace (((c - c) * (c - c) + (py p - py a) * (py b - py a))
             / ((c - c) * (c - c) + (py b - py a) * (py b - py a)))
      with ((py p - py a) / (py b - py a)) by (field; split; [nra | exact E0]).
    set (t := (py p - py a) / (py b - py a)).
    assert (Ht : py p - py a = t * (py b - py a)) by (unfold t; field; exact E0).
    destruct (ltb t 0); [|destruct (gtb t 1)]; cbn [fst snd].
    + replace ((c - c) * (c - c) + (py p - py a) * (py p - py a))
        with ((py p - py a) * (py p - py a)) by ring.
      apply sqrt_square_abs.
    + replace ((c - c) * (c - c) + (py p - py b) * (py p - py b))
        with ((py p - py b) * (py p - py b)) by ring.
      apply sqrt_square_abs.
    + match goal with |- sqrt ?x = 0 => replace x with 0 by nra end.
      apply sqrt_0.
Qed.

Lemma dist_horizontal (c : R) (p q : Point) :
  py p = c -> py q = c -> dist p q = Rabs (px q - px p).
Proof.
  intros Hp Hq. unfold dist. rewrite Hp, Hq.
  replace ((px q - px p) ^ 2 + (c - c) ^ 2) with ((px q - px p) * (px q - px p)) by ring.
  apply sqrt_square_abs.
Qed.

Lemma dist_vertical (c : R) (p q : Point) :
  px p = c -> px q = c -> dist p q = Rabs (py q - py p).
Proof.
  intros Hp Hq. unfold dist. rewrite Hp, Hq.
  replace ((c - c) ^ 2 + (py q - py p) ^ 2) with ((py q - py p) * (py q - py p)) by ring.
  apply sqrt_square_abs.
Qed.

(** A contour on a horizontal line keeps at most ten points. *)
Lemma simplified_horizontal_length (c : R) fuel contour out :
  Forall (fun p => py p = c) contour ->
  simplifyContour fuel contour (0.06 * perimeter (calculateMetrics contour)) = Some out ->
  (length out <= 10)%nat.
Proof.
  apply (simplified_online_length (fun p => py p = c) px).
  - intros p q. apply dist_horizontal.
  - intros p a b Hp Ha Hb.
    rewrite (perpendicularDistance_horizontal c) by assumption.
    apply chordDistance1_excess.
Qed.

(** And so does a contour on a vertical line. *)
Lemma simplified_vertical_length (c : R) fuel contour out :
  Forall (fun p => px p = c) contour ->
  simplifyContour fuel contour (0.06 * perimeter (calculateMetrics contour)) = Some out ->
  (length out <= 10)%nat.
Proof.
  apply (simplified_online_length (fun p => px p = c) py).
  - intros p q. apply dist_vertical.
  - intros p a b Hp Ha Hb.
    rewrite (perpendicularDistance_vertical c) by assumption.
    apply chordDistance1_excess.
Qed.

(** ** classifyShape *)

Section ClassifierFacts.

(** C4.  When the perimeter is positive and the circularity exceeds 0.80
    the result is a circle whose confidence is the smaller of the
    circularity and 0.99, carrying the metrics it was given.  The result
    is the same for every contour and every recursion budget: the hull, the
    simplifier, the aspect ratio and the decision table play no part. *)
Theorem classifyShape_circle (fuel : nat) (contour : Contour) (metrics : Metrics) :
  0 < perimeter metrics ->
  4 * PI * area metrics / perimeter metrics ^ 2 > 0.80 ->
  classifyShape fuel contour metrics
  = Some (Some (mkShape circle
                        (Rmin (4 * PI * area metrics / perimeter metrics ^ 2) 0.99)
                        metrics)).
Proof.
  intros Hp Hc.
  replace (perimeter metrics ^ 2) with (perimeter metrics * perimeter metrics) in * by ring.
  unfold classifyShape, circularityOf.
  rewrite div_nonzero by nra.
  cbn [xgtb xltb xmin fin].
  now rewrite (proj2 (ltb_true _ _) Hc).
Qed.

Lemma classifyShape_circle_witness :
  classifyShape 0 [] roundMetrics
  = Some (Some (mkShape circle
                        (Rmin (4 * PI * area roundMetrics / perimeter roundMetrics ^ 2) 0.99)
                        roundMetrics)).
Proof.
  apply (classifyShape_circle 0 [] roundMetrics); cbn [roundMetrics area perimeter].
  - lra.
  - pose proof PI2_3_2. lra.
Defined.

(** The table, read off the [switch]. *)
Lemma polygonType_table (n : nat) (s : R) :
  (n = 3%nat -> s > 0.9 -> polygonType n s = (Some triangle, 0.90))
  /\ (n = 4%nat -> s > 0.9 -> polygonType n s = (Some rectangle, 0.92))
  /\ (n = 5%nat -> s > 0.8 -> polygonType n s = (Some pentagon, 0.88))
  /\ (n = 5%nat -> 0.3 < s <= 0.8 -> polygonType n s = (Some star, 0.82))
  /\ (n = 10%nat -> s < 0.8 -> polygonType n s = (Some star, 0.82))
  /\ (~ (n = 3%nat /\ s > 0.9) -> ~ (n = 4%nat /\ s > 0.9) ->
      ~ (n = 5%nat /\ s > 0.3) -> ~ (n = 10%nat /\ s < 0.8) ->
      fst (polygonType n s) = None).
Proof.
  repeat split.
  - intros -> H. cbn. now rewrite (proj2 (gtb_true _ _) H).
  - intros -> H. cbn. now rewrite (proj2 (gtb_true _ _) H).
  - intros -> H. cbn. now rewrite (proj2 (gtb_true _ _) H).
  - intros -> [H1 H2]. cbn.
    assert (E : gtb s 0.8 = false) by (apply gtb_false; lra).
    rewrite E. now rewrite (proj2 (gtb_true _ _) H1).
  - intros -> H. cbn. now rewrite (proj2 (ltb_true _ _) H).
  - intros H3 H4 H5 H10.
    destruct n as [|[|[|[|[|[|[|[|[|[|[|n]]]]]]]]]]]; try reflexivity; cbn.
    + destruct (gtb s 0.9) eqn:E; auto. apply gtb_true in E. tauto.
    + destruct (gtb s 0.9) eqn:E; auto. apply gtb_true in E. tauto.
    + destruct (gtb s 0.8) eqn:E.
      * apply gtb_true in E. exfalso. apply H5. split; auto. lra.
      * destruct (gtb s 0.3) eqn:E'; auto. apply gtb_true in E'. tauto.
    + destruct (ltb s 0.8) eqn:E; auto. apply ltb_true in E. tauto.
Qed.

(** C1.  A contour that reaches the last step (the circularity test did
    not fire, the simplifier returned [vertices], the aspect ratio did not
    exceed 5) gets its type from the corrected vertex count [n] and the
    solidity [s]: triangle 0.90 for [n = 3], [s > 0.9]; rectangle 0.92 for
    [n = 4], [s > 0.9]; pentagon 0.88 for [n = 5], [s > 0.8]; star 0.82 for
    [n = 5], [0.3 < s <= 0.8] and for [n = 10], [s < 0.8]; nothing in every
    other case. *)
Theorem classifyShape_decision_table
        (fuel : nat) (contour : Contour) (metrics : Metrics) (vertices : list Point) :
  xgtb (circularityOf metrics) (Fin 0.80) = false ->
  simplifyContour fuel contour (0.06 * perimeter metrics) = Some vertices ->
  ~ aspectRatioOf metrics > 5.0 ->
  let n := correctedCount vertices in
  let s := solidityOf contour metrics in
  exists r,
    classifyShape fuel contour metrics = Some r
    /\ (n = 3%nat -> s > 0.9 -> r = Some (mkShape triangle 0.90 metrics))
    /\ (n = 4%nat -> s > 0.9 -> r = Some (mkShape rectangle 0.92 metrics))
    /\ (n = 5%nat -> s > 0.8 -> r = Some (mkShape pentagon 0.88 metrics))
    /\ (n = 5%nat -> 0.3 < s <= 0.8 -> r = Some (mkShape star 0.82 metrics))
    /\ (n = 10%nat -> s < 0.8 -> r = Some (mkShape star 0.82 metrics))
    /\ (~ (n = 3%nat /\ s > 0.9) -> ~ (n = 4%nat /\ s > 0.9) ->
        ~ (n = 5%nat /\ s > 0.3) -> ~ (n = 10%nat /\ s < 0.8) ->
        r = None).
Proof.
  intros Hcirc Hsimp Haspect n s.
  unfold classifyShape. rewrite Hcirc, Hsimp.
  rewrite (proj2 (gtb_false _ _) Haspect).
  fold n. fold s.
  destruct (polygonType_table n s) as (T3 & T4 & T5 & T5' & T10 & Tother).
  destruct (polygonType n s) as [[type|] conf] eqn:E.
  - exists (Some (mkShape type conf metrics)). split; [reflexivity|].
    repeat split.
    + intros Hn Hs. specialize (T3 Hn Hs). now inversion T3.
    + intros Hn Hs. specialize (T4 Hn Hs). now inversion T4.
    + intros Hn Hs. specialize (T5 Hn Hs). now inversion T5.
    + intros Hn Hs. specialize (T5' Hn Hs). now inversion T5'.
    + intros Hn Hs. specialize (T10 Hn Hs). now inversion T10.
    + intros H3 H4 H5 H10. specialize (Tother H3 H4 H5 H10). discriminate.
  - exists None. split; [reflexivity|].
    repeat split.
    + intros Hn Hs. specialize (T3 Hn Hs). discriminate.
    + intros Hn Hs. specialize (T4 Hn Hs). discriminate.
    + intros Hn Hs. specialize (T5 Hn Hs). discriminate.
    + intros Hn Hs. specialize (T5' Hn Hs). discriminate.
    + intros Hn Hs. specialize (T10 Hn Hs). discriminate.
Qed.

(** *** The sample triangle *)

Lemma distance_triangle :
  perpendicularDistance (mkPoint 40 0) (mkPoint 0 0) (mkPoint 0 30) = 40.
Proof.
  unfold perpendicularDistance. cbn [px py].
  repeat decide_test. cbn [andb fst snd].
  match goal with |- sqrt ?x = _ => replace x with (40 * 40) by lra end.
  apply sqrt_square. lra.
Qed.

Lemma farthest_triangle : farthest triangleContour = (40, 1%nat).
Proof.
  change triangleContour with (mkPoint 0 0 :: [mkPoint 40 0] ++ [mkPoint 0 30]).
  rewrite farthest_argmax. cbn [argmaxFrom fst].
  rewrite distance_triangle. now decide_test.
Qed.

(** With tolerance 0.06 * 120 all three corners are kept. *)
Lemma simplifyContour_triangle :
  simplifyContour 2 triangleContour (0.06 * 120) = Some triangleContour.
Proof.
  rewrite simplifyContour_unfold. rewrite farthest_triangle. cbn [fst snd].
  decide_test. reflexivity.
Qed.

Lemma correctedCount_triangle : correctedCount triangleContour = 3%nat.
Proof.
  unfold correctedCount, dist. cbn [triangleContour length Nat.ltb Nat.leb Nat.sub nth px py].
  replace ((0 - 0) ^ 2 + (0 - 30) ^ 2) with (30 * 30) by ring.
  rewrite sqrt_square by lra. now decide_test.
Qed.

Lemma area_triangle : area (calculateMetrics triangleContour) = 600.
Proof.
  rewrite area_shoelace. unfold rot, shoelaceTerm. cbn.
  match goal with |- Rabs ?x = _ => replace x with 600 by lra end.
  apply Rabs_pos_eq. lra.
Qed.

Lemma solidityOf_triangle (metrics : Metrics) :
  solidityOf triangleContour metrics = area metrics / 600.
Proof.
  unfold solidityOf.
  change (calculateConvexHull triangleContour) with triangleContour.
  rewrite area_triangle. now decide_test.
Qed.

Lemma circularity_600_120 box ctr :
  xgtb (circularityOf (mkMetrics 600 120 box ctr)) (Fin 0.80) = false.
Proof.
  unfold circularityOf. cbn [area perimeter].
  rewrite div_nonzero by lra. cbn [xgtb xltb].
  apply ltb_false. pose proof PI_4. lra.
Qed.

(** Unless the aspect ratio rejects it, the sample is a triangle whatever
    box and center its metrics carry. *)
Lemma classifyShape_triangle box ctr :
  ~ aspectRatioOf (mkMetrics 600 120 box ctr) > 5.0 ->
  classifyShape 2 triangleContour (mkMetrics 600 120 box ctr)
  = Some (Some (mkShape triangle 0.90 (mkMetrics 600 120 box ctr))).
Proof.
  intros Haspect. unfold classifyShape.
  rewrite circularity_600_120. cbn [perimeter].
  rewrite simplifyContour_triangle.
  rewrite (proj2 (gtb_false _ _) Haspect).
  rewrite correctedCount_triangle, solidityOf_triangle.
  cbn [area polygonType]. now decide_test.
Qed.

(** The sample metrics are those of the sample triangle. *)
Lemma calculateMetrics_triangle : calculateMetrics triangleContour = triangleMetrics.
Proof.
  unfold calculateMetrics, metricsLoop, triangleContour, metricsStep, triangleMetrics.
  cbn [length seq fold_left nth Nat.add Nat.modulo Nat.divmod fst snd Nat.sub
       metricsInit minX minY maxX maxY accArea accPerimeter sumX sumY px py
       xltb xgtb].
  repeat (decide_test; cbn [xltb xgtb]).
  cbn [xsub fin].
  unfold dist, shoelaceTerm. cbn [px py].
  replace ((40 - 0) ^ 2 + (0 - 0) ^ 2) with (40 * 40) by ring.
  replace ((0 - 40) ^ 2 + (30 - 0) ^ 2) with (50 * 50) by ring.
  replace ((0 - 0) ^ 2 + (0 - 30) ^ 2) with (30 * 30) by ring.
  rewrite !sqrt_square by lra.
  f_equal.
  - match goal with |- Rabs ?x = _ => replace x with 600 by lra end.
    apply Rabs_pos_eq. lra.
  - lra.
  - f_equal; lra.
  - f_equal; cbn [INR]; lra.
Qed.

Lemma aspectRatioOf_triangleMetrics : ~ aspectRatioOf triangleMetrics > 5.0.
Proof.
  unfold aspectRatioOf. cbn [triangleMetrics boundingBox bwidth bheight].
  rewrite !orOne_nonzero by lra.
  assert (Rmax (40 / 30) (30 / 40) <= 5) by (apply Rmax_lub; lra). lra.
Qed.

Lemma classifyShape_decision_table_witness :
  exists r,
    classifyShape 2 triangleContour triangleMetrics = Some r
    /\ (correctedCount triangleContour = 3%nat ->
        solidityOf triangleContour triangleMetrics > 0.9 ->
        r = Some (mkShape triangle 0.90 triangleMetrics))
    /\ (correctedCount triangleContour = 4%nat ->
        solidityOf triangleContour triangleMetrics > 0.9 ->
        r = Some (mkShape rectangle 0.92 triangleMetrics))
    /\ (correctedCount triangleContour = 5%nat ->
        solidityOf triangleContour triangleMetrics > 0.8 ->
        r = Some (mkShape pentagon 0.88 triangleMetrics))
    /\ (correctedCount triangleContour = 5%nat ->
        0.3 < solidityOf triangleContour triangleMetrics <= 0.8 ->
        r = Some (mkShape star 0.82 triangleMetrics))
    /\ (correctedCount triangleContour = 10%nat ->
        solidityOf triangleContour triangleMetrics < 0.8 ->
        r = Some (mkShape star 0.82 triangleMetrics))
    /\ (~ (correctedCount triangleContour = 3%nat
           /\ solidityOf triangleContour triangleMetrics > 0.9) ->
        ~ (correctedCount triangleContour = 4%nat
           /\ solidityOf triangleContour triangleMetrics > 0.9) ->
        ~ (correctedCount triangleContour = 5%nat
           /\ solidityOf triangleContour triangleMetrics > 0.3) ->
        ~ (correctedCount triangleContour = 10%nat
           /\ solidityOf triangleContour triangleMetrics < 0.8) ->
        r = None).
Proof.
  apply (classifyShape_decision_table 2 triangleContour triangleMetrics triangleContour).
  - apply circularity_600_120.
  - apply simplifyContour_triangle.
  - apply aspectRatioOf_triangleMetrics.
Defined.

(** The sample triangle with its own metrics is classified as a triangle
    with confidence 0.90. *)
Lemma classifyShape_triangle_own_metrics :
  classifyShape 2 triangleContour (calculateMetrics triangleContour)
  = Some (Some (mkShape triangle 0.90 (calculateMetrics triangleContour))).
Proof.
  rewrite calculateMetrics_triangle.
  apply classifyShape_triangle. apply aspectRatioOf_triangleMetrics.
Qed.

(** *** The hull of a contour on a line *)

Lemma insertPoint_Forall (P : Point -> Prop) p sorted :
  P p -> Forall P sorted -> Forall P (insertPoint p sorted).
Proof.
  intros Hp. induction 1 as [|q rest Hq Hrest IH]; cbn [insertPoint].
  - now constructor.
  - destruct (ltb (comparePoints p q) 0); repeat constructor; auto.
Qed.

Lemma sortPoints_Forall (P : Point -> Prop) points :
  Forall P points -> Forall P (sortPoints points).
Proof.
  unfold sortPoints.
  assert (H : forall acc, Forall P acc -> Forall P points ->
                          Forall P (fold_left (fun sorted p => insertPoint p sorted) points acc)).
  { induction points as [|p points IH]; intros acc Hacc Hpts; [exact Hacc|].
    inversion Hpts; subst. cbn [fold_left]. apply IH; auto.
    now apply insertPoint_Forall. }
  intros Hpts. apply H; [constructor | exact Hpts].
Qed.

Lemma popChain_Forall (P : Point -> Prop) chain p :
  Forall P chain -> Forall P (popChain chain p).
Proof.
  induction 1 as [|b rest Hb Hrest IH]; cbn [popChain]; [constructor|].
  destruct rest as [|a rest']; [now constructor|].
  destruct (leb (crossProduct a b p) 0); [exact IH | now constructor].
Qed.

Lemma buildChain_Forall (P : Point -> Prop) sortedPoints :
  Forall P sortedPoints -> Forall P (buildChain sortedPoints).
Proof.
  unfold buildChain.
  assert (H : forall chain, Forall P chain -> Forall P sortedPoints ->
                            Forall P (fold_left (fun chain p => p :: popChain chain p)
                                                sortedPoints chain)).
  { induction sortedPoints as [|p pts IH]; intros chain Hc Hpts; [exact Hc|].
    inversion Hpts; subst. cbn [fold_left]. apply IH; auto.
    constructor; auto. now apply popChain_Forall. }
  intros Hpts. apply H; [constructor | exact Hpts].
Qed.

Lemma Forall_tl {A : Type} (P : A -> Prop) (l : list A) :
  Forall P l -> Forall P (tl l).
Proof. intros H. destruct H; [constructor | assumption]. Qed.

(** The hull is made of points of the contour. *)
Lemma calculateConvexHull_Forall (P : Point -> Prop) points :
  Forall P points -> Forall P (calculateConvexHull points).
Proof.
  intros H. unfold calculateConvexHull.
  destruct (length points <=? 3)%nat; [exact H|].
  apply Forall_app. split; apply Forall_rev, Forall_tl, buildChain_Forall.
  - now apply sortPoints_Forall.
  - now apply Forall_rev, sortPoints_Forall.
Qed.

(** A polygon on a horizontal line has no area, nor has one on a vertical
    line. *)
Lemma area_horizontal (c : R) (contour : Contour) :
  Forall (fun p => py p = c) contour -> area (calculateMetrics contour) = 0.
Proof.
  intros H. rewrite area_shoelace.
  assert (Hsum : Rsum (map (fun pq => shoelaceTerm (fst pq) (snd pq))
                           (combine contour (rot contour))) = 0).
  { rewrite <- (closed_differences (fun p => - c * px p) contour).
    f_equal. apply map_ext_in. intros [p q] Hin.
    assert (Hp : py p = c).
    { apply in_combine_l in Hin. rewrite Forall_forall in H. now apply H. }
    assert (Hq : py q = c).
    { apply in_combine_r in Hin. rewrite Forall_forall in H. apply H.
      unfold rot in Hin. apply in_app_or in Hin. destruct Hin as [Hin|Hin].
      - destruct contour; [contradiction | now right].
      - destruct contour; [contradiction|]. cbn in Hin.
        destruct Hin as [<-|[]]. now left. }
    unfold shoelaceTerm. cbn [fst snd]. rewrite Hp, Hq. ring. }
  rewrite Hsum. replace (0 / 2) with 0 by lra. apply Rabs_R0.
Qed.

Lemma area_vertical (c : R) (contour : Contour) :
  Forall (fun p => px p = c) contour -> area (calculateMetrics contour) = 0.
Proof.
  intros H. rewrite area_shoelace.
  assert (Hsum : Rsum (map (fun pq => shoelaceTerm (fst pq) (snd pq))
                           (combine contour (rot contour))) = 0).
  { rewrite <- (closed_differences (fun p => c * py p) contour).
    f_equal. apply map_ext_in. intros [p q] Hin.
    assert (Hp : px p = c).
    { apply in_combine_l in Hin. rewrite Forall_forall in H. now apply H. }
    assert (Hq : px q = c).
    { apply in_combine_r in Hin. rewrite Forall_forall in H. apply H.
      unfold rot in Hin. apply in_app_or in Hin. destruct Hin as [Hin|Hin].
      - destruct contour; [contradiction | now right].
      - destruct contour; [contradiction|]. cbn in Hin.
        destruct Hin as [<-|[]]. now left. }
    unfold shoelaceTerm. cbn [fst snd]. rewrite Hp, Hq. ring. }
  rewrite Hsum. replace (0 / 2) with 0 by lra. apply Rabs_R0.
Qed.

(** So the solidity of a contour on such a line is 0, whatever metrics it
    comes with. *)
Lemma solidityOf_flat (contour : Contour) (metrics : Metrics) :
  area (calculateMetrics (calculateConvexHull contour)) = 0 ->
  solidityOf contour metrics = 0.
Proof.
  intros H. unfold solidityOf. rewrite H.
  now rewrite (proj2 (gtb_false 0 0)) by lra.
Qed.

(** With solidity 0 only a corrected count of 10 gives a shape. *)
Lemma polygonType_flat (n : nat) :
  n <> 10%nat -> fst (polygonType n 0) = None.
Proof.
  intros Hn.
  destruct (polygonType_table n 0) as (_ & _ & _ & _ & _ & Hother).
  apply Hother; intros [E H]; try lra. contradiction.
Qed.

(** A contour of solidity 0 that the simplifier reduces to at most ten
    points, with the ends closer than 10 when there are ten, is not given
    a type. *)
Lemma classifyShape_flat fuel contour metrics out :
  xgtb (circularityOf metrics) (Fin 0.80) = false ->
  simplifyContour fuel contour (0.06 * perimeter metrics) = Some out ->
  (length out <= 10)%nat ->
  (length out = 10%nat ->
   dist (nth (length out - 1) out origin) (nth 0 out origin) < 10) ->
  solidityOf contour metrics = 0 ->
  classifyShape fuel contour metrics = Some None.
Proof.
  intros Hcirc Hsimp Hlen Hends Hsol.
  unfold classifyShape. rewrite Hcirc, Hsimp, Hsol.
  destruct (gtb (aspectRatioOf metrics) 5.0); [reflexivity|].
  assert (Hn : correctedCount out <> 10%nat).
  { unfold correctedCount.
    destruct (1 <? length out)%nat eqn:E1; [|apply Nat.ltb_ge in E1; lia].
    destruct (Nat.eq_dec (length out) 10) as [E|E].
    - rewrite (proj2 (ltb_true _ _) (Hends E)). lia.
    - destruct (ltb _ 10); lia. }
  pose proof (polygonType_flat _ Hn) as Hnone.
  destruct (polygonType (correctedCount out) 0) as [[type|] conf];
    [discriminate | reflexivity].
Qed.

(** *** The aspect-ratio rejection *)

(** When neither side of the box is zero the ratio computed is
    [max(width / height, height / width)]. *)
Lemma aspectRatioOf_nondegenerate (metrics : Metrics) :
  bwidth (boundingBox metrics) <> 0 ->
  bheight (boundingBox metrics) <> 0 ->
  aspectRatioOf metrics
  = Rmax (bwidth (boundingBox metrics) / bheight (boundingBox metrics))
         (bheight (boundingBox metrics) / bwidth (boundingBox metrics)).
Proof. intros Hw Hh. unfold aspectRatioOf. now rewrite !orOne_nonzero. Qed.

(** When the height is zero it is [max(width, 0)]. *)
Lemma aspectRatioOf_flat (metrics : Metrics) :
  bheight (boundingBox metrics) = 0 ->
  aspectRatioOf metrics = Rmax (bwidth (boundingBox metrics)) 0.
Proof.
  intros Hh. unfold aspectRatioOf. rewrite Hh, orOne_zero. f_equal; lra.
Qed.

(** When the width is zero it is [max(0, height)]. *)
Lemma aspectRatioOf_thin (metrics : Metrics) :
  bwidth (boundingBox metrics) = 0 ->
  aspectRatioOf metrics = Rmax 0 (bheight (boundingBox metrics)).
Proof.
  intros Hw. unfold aspectRatioOf. rewrite Hw, orOne_zero. f_equal; lra.
Qed.

(** Whatever contour and metrics it is given, the classifier returns no
    shape once the ratio it computes, with [|| 1] in the divisors, exceeds
    5. *)
Lemma classifyShape_rejects_guarded
      (fuel : nat) (contour : Contour) (metrics : Metrics) (vertices : list Point) :
  xgtb (circularityOf metrics) (Fin 0.80) = false ->
  simplifyContour fuel contour (0.06 * perimeter metrics) = Some vertices ->
  aspectRatioOf metrics > 5.0 ->
  classifyShape fuel contour metrics = Some None.
Proof.
  intros Hcirc Hsimp H.
  unfold classifyShape. rewrite Hcirc, Hsimp.
  now rewrite (proj2 (gtb_true _ _) H).
Qed.

(** A contour on a line, shorter than 10 along it, is not given a type. *)
Lemma classifyShape_on_line
      (online : Point -> Prop) (u : Point -> R) (lo extent : R)
      (fuel : nat) (contour out : list Point) :
  (forall p q, online p -> online q -> dist p q = Rabs (u q - u p)) ->
  Forall (fun p => online p /\ lo <= u p <= lo + extent) contour ->
  extent < 10 ->
  xgtb (circularityOf (calculateMetrics contour)) (Fin 0.80) = false ->
  simplifyContour fuel contour (0.06 * perimeter (calculateMetrics contour)) = Some out ->
  (length out <= 10)%nat ->
  solidityOf contour (calculateMetrics contour) = 0 ->
  classifyShape fuel contour (calculateMetrics contour) = Some None.
Proof.
  intros Hdist Hon Hext Hcirc Hsimp Hlen Hsol.
  apply (classifyShape_flat fuel contour _ out); auto.
  intros E.
  destruct (simplifyContour_keeps_ends _ _ _ _ Hsimp) as (Hsub & _).
  pose proof (subseq_Forall _ _ _ Hsub Hon) as Hout.
  rewrite Forall_forall in Hout.
  destruct (Hout (nth (length out - 1) out origin)) as [Ha Hra].
  { apply nth_In. lia. }
  destruct (Hout (nth 0 out origin)) as [Hb Hrb].
  { apply nth_In. lia. }
  rewrite Hdist by assumption.
  unfold Rabs. destruct Rcase_abs; lra.
Qed.

(** C5.  Take a contour with its own metrics that reaches the aspect-ratio
    step (the circularity test did not fire; the recursion budget is above
    the length of the contour, so the simplifier returns).  If
    [max(width / height, height / width)] of its bounding box exceeds 5, the
    classifier returns no shape.  The ratio is taken as the specification
    words it: a division by zero gives an infinite quotient, so a box with
    exactly one side zero counts as exceeding 5.  When neither side is zero
    the aspect-ratio test rejects the contour.  When one side is zero the
    code divides by 1 instead; the test then rejects the contour if the
    other side exceeds 5, and otherwise the contour lies on a line no longer
    than 5, has solidity 0 and at most nine corrected vertices, and the
    decision table gives it no type. *)
Theorem classifyShape_rejects_elongated (fuel : nat) (contour : Contour) :
  (length contour < fuel)%nat ->
  xgtb (circularityOf (calculateMetrics contour)) (Fin 0.80) = false ->
  xgtb (unguardedAspectRatio (calculateMetrics contour)) (Fin 5.0) = true ->
  classifyShape fuel contour (calculateMetrics contour) = Some None.
Proof.
  intros Hfuel Hcirc Hratio.
  pose proof (perimeter_nonneg contour) as Hper.
  destruct (simplifyContour_returns fuel contour
              (0.06 * perimeter (calculateMetrics contour)) ltac:(lra) Hfuel)
    as [out Hout].
  destruct (Rgt_dec (aspectRatioOf (calculateMetrics contour)) 5.0) as [Hrej|Hkeep].
  { eapply classifyShape_rejects_guarded; eauto. }
  pose proof (boundingBox_encloses contour) as Hbox.
  unfold unguardedAspectRatio in Hratio.
  set (box := boundingBox (calculateMetrics contour)) in *.
  destruct (Req_dec_T (bheight box) 0) as [Hh|Hh];
    destruct (Req_dec_T (bwidth box) 0) as [Hw|Hw].
  - (* a single point: the ratio is not a number *)
    rewrite Hh, Hw in Hratio. unfold div in Hratio.
    rewrite (proj2 (eqb_true 0 0) eq_refl) in Hratio. discriminate.
  - (* height zero: a horizontal line *)
    assert (Hline : Forall (fun p => py p = by_ box) contour).
    { eapply Forall_impl; [|exact Hbox]. cbn beta. intros p Hp. lra. }
    assert (Hwidth : bwidth box <= 5).
    { rewrite aspectRatioOf_flat in Hkeep by exact Hh. fold box in Hkeep.
      pose proof (Rmax_l (bwidth box) 0). lra. }
    apply (classifyShape_on_line (fun p => py p = by_ box) px (bx box) (bwidth box)
                                 fuel contour out); auto.
    + intros p q. apply dist_horizontal.
    + eapply Forall_impl; [|exact Hbox]. cbn beta. intros p Hp. lra.
    + lra.
    + eapply simplified_horizontal_length; eauto.
    + apply solidityOf_flat. apply (area_horizontal (by_ box)).
      now apply calculateConvexHull_Forall.
  - (* width zero: a vertical line *)
    assert (Hline : Forall (fun p => px p = bx box) contour).
    { eapply Forall_impl; [|exact Hbox]. cbn beta. intros p Hp. lra. }
    assert (Hheight : bheight box <= 5).
    { rewrite aspectRatioOf_thin in Hkeep by exact Hw. fold box in Hkeep.
      pose proof (Rmax_r 0 (bheight box)). lra. }
    apply (classifyShape_on_line (fun p => px p = bx box) py (by_ box) (bheight box)
                                 fuel contour out); auto.
    + intros p q. apply dist_vertical.
    + eapply Forall_impl; [|exact Hbox]. cbn beta. intros p Hp. lra.
    + lra.
    + eapply simplified_vertical_length; eauto.
    + apply solidityOf_flat. apply (area_vertical (bx box)).
      now apply calculateConvexHull_Forall.
  - (* neither side zero: the ratio computed is the ratio of the claim *)
    exfalso. apply Hkeep.
    rewrite aspectRatioOf_nondegenerate by assumption. fold box.
    rewrite !div_nonzero in Hratio by assumption.
    cbn [xmax xgtb xltb] in Hratio. now apply ltb_true in Hratio.
Qed.

Lemma boundingBox_unitSegment :
  boundingBox (calculateMetrics unitSegment) = mkBox 0 0 1 0.
Proof.
  unfold calculateMetrics, metricsLoop, unitSegment, metricsStep.
  cbn [length seq fold_left nth boundingBox metricsInit minX minY maxX maxY px py
       xltb xgtb].
  repeat decide_test. cbn [xsub fin]. f_equal; lra.
Qed.

Lemma circularity_unitSegment :
  xgtb (circularityOf (calculateMetrics unitSegment)) (Fin 0.80) = false.
Proof.
  unfold circularityOf.
  rewrite (area_horizontal 0), perimeter_unitSegment by (repeat constructor).
  rewrite div_nonzero by lra. cbn [xgtb xltb].
  apply ltb_false. lra.
Qed.

Lemma classifyShape_rejects_elongated_witness :
  classifyShape 3 unitSegment (calculateMetrics unitSegment) = Some None.
Proof.
  apply (classifyShape_rejects_elongated 3 unitSegment).
  - cbn. lia.
  - apply circularity_unitSegment.
  - unfold unguardedAspectRatio. rewrite boundingBox_unitSegment.
    cbn [bwidth bheight]. unfold div. repeat decide_test. reflexivity.
Defined.

(** The 60 x 10 box is rejected by the aspect-ratio test, whatever else the
    metrics say. *)
Lemma classifyShape_elongated :
  classifyShape 2 triangleContour elongatedMetrics = Some None.
Proof.
  apply (classifyShape_rejects_guarded 2 triangleContour elongatedMetrics triangleContour).
  - apply circularity_600_120.
  - apply simplifyContour_triangle.
  - unfold aspectRatioOf. cbn [elongatedMetrics boundingBox bwidth bheight].
    rewrite !orOne_nonzero by lra.
    apply Rlt_le_trans with (60 / 10); [lra | apply Rmax_l].
Qed.

(** The guard matters only for metrics that are not those of the contour:
    with a box of width 3 and height 0 attached to the sample triangle the
    ratio [max(width / height, height / width)] is infinite, the code
    computes 3, does not reject, and the decision table returns a
    triangle. *)
Lemma classifyShape_flat_box_not_rejected :
  xgtb (circularityOf flatBoxMetrics) (Fin 0.80) = false
  /\ unguardedAspectRatio flatBoxMetrics = PosInf
  /\ xgtb (unguardedAspectRatio flatBoxMetrics) (Fin 5.0) = true
  /\ aspectRatioOf flatBoxMetrics = 3
  /\ classifyShape 2 triangleContour flatBoxMetrics
     = Some (Some (mkShape triangle 0.90 flatBoxMetrics)).
Proof.
  assert (Hu : unguardedAspectRatio flatBoxMetrics = PosInf).
  { unfold unguardedAspectRatio, div.
    cbn [flatBoxMetrics boundingBox bwidth bheight].
    repeat decide_test. reflexivity. }
  assert (Ha : aspectRatioOf flatBoxMetrics = 3).
  { rewrite aspectRatioOf_flat by reflexivity.
    cbn [flatBoxMetrics boundingBox bwidth].
    unfold Rmax. destruct (Rle_dec 3 0); lra. }
  split; [apply circularity_600_120|].
  split; [exact Hu|].
  split; [now rewrite Hu|].
  split; [exact Ha|].
  apply classifyShape_triangle.
  change (mkMetrics 600 120 (mkBox 0 0 3 0) (mkPoint (40 / 3) 10)) with flatBoxMetrics.
  rewrite Ha. lra.
Qed.

End ClassifierFacts.

(** ** analyzeContours: the inner-contour filter *)

Section FilterFacts.

Lemma combine_seq_In {A : Type} (l : list A) :
  forall start i x,
    In (i, x) (combine (seq start (length l)) l)
    <-> (start <= i)%nat /\ nth_error l (i - start) = Some x.
Proof.
  induction l as [|a l IH]; intros start i x; cbn [length seq combine In].
  - split; [tauto|]. intros [_ H]. now destruct (i - start)%nat.
  - rewrite IH. split.
    + intros [E|[Hle Hn]].
      * inversion E; subst. rewrite Nat.sub_diag. split; [lia | reflexivity].
      * split; [lia|].
        replace (i - start)%nat with (S (i - S start)) by lia. exact Hn.
    + intros [Hle Hn].
      destruct (Nat.eq_dec i start) as [->|Hne].
      * left. rewrite Nat.sub_diag in Hn. cbn in Hn. congruence.
      * right. split; [lia|].
        replace (i - start)%nat with (S (i - S start)) in Hn by lia. exact Hn.
Qed.

(** An array paired with its positions. *)
Lemma indexed_In {A : Type} (l : list A) (i : nat) (x : A) :
  In (i, x) (indexed l) <-> nth_error l i = Some x.
Proof.
  unfold indexed. rewrite combine_seq_In, Nat.sub_0_r.
  split; [tauto | intros H; split; [lia | exact H]].
Qed.

Lemma map_snd_indexed {A : Type} (l : list A) : map snd (indexed l) = l.
Proof.
  unfold indexed. generalize 0%nat.
  induction l as [|a l IH]; intros start; cbn; [reflexivity | now rewrite IH].
Qed.

(** The inner loop finds a contour that shadows [cm1] exactly when another
    entry has its center closer than 15 and a strictly larger area. *)
Lemma isInnerContour_spec (cms : list ContourMetrics) (i : nat) (cm1 : ContourMetrics) :
  isInnerContour cms i cm1 = true
  <-> exists j cm2,
      nth_error cms j = Some cm2 /\ j <> i
      /\ centerDistance cm1 cm2 < 15
      /\ area (cmMetrics cm2) > area (cmMetrics cm1).
Proof.
  unfold isInnerContour. rewrite existsb_exists. split.
  - intros ([j cm2] & Hin & Hsh).
    apply indexed_In in Hin.
    unfold shadows in Hsh. cbn [fst snd] in Hsh.
    apply andb_true_iff in Hsh. destruct Hsh as [Hsh Harea].
    apply andb_true_iff in Hsh. destruct Hsh as [Hne Hd].
    exists j, cm2. repeat split.
    + exact Hin.
    + intros ->. rewrite Nat.eqb_refl in Hne. discriminate.
    + now apply ltb_true in Hd.
    + now apply gtb_true in Harea.
  - intros (j & cm2 & Hn & Hne & Hd & Harea).
    exists (j, cm2). split; [now apply indexed_In|].
    unfold shadows. cbn [fst snd].
    rewrite (proj2 (Nat.eqb_neq i j)) by congruence.
    fold (centerDistance cm1 cm2).
    rewrite (proj2 (ltb_true _ _) Hd), (proj2 (gtb_true _ _) Harea). reflexivity.
Qed.

(** *** Three squares in a row *)

Lemma ltb_sqrt (x c : R) : 0 <= x -> 0 <= c -> ltb (sqrt x) c = ltb x (c * c).
Proof.
  intros Hx Hc.
  destruct (ltb x (c * c)) eqn:E.
  - apply ltb_true in E. apply ltb_true.
    rewrite <- (sqrt_square c Hc). apply sqrt_lt_1_alt. lra.
  - apply ltb_false in E. apply ltb_false. intros H.
    apply E. rewrite <- (sqrt_sqrt x Hx).
    pose proof (sqrt_pos x). nra.
Qed.

Lemma area_squareA : area (calculateMetrics squareA) = 64.
Proof.
  rewrite area_shoelace. unfold rot, shoelaceTerm. cbn.
  match goal with |- Rabs ?x = _ => replace x with 64 by lra end.
  apply Rabs_pos_eq. lra.
Qed.

Lemma area_squareB : area (calculateMetrics squareB) = 100.
Proof.
  rewrite area_shoelace. unfold rot, shoelaceTerm. cbn.
  match goal with |- Rabs ?x = _ => replace x with 100 by lra end.
  apply Rabs_pos_eq. lra.
Qed.

Lemma area_squareC : area (calculateMetrics squareC) = 144.
Proof.
  rewrite area_shoelace. unfold rot, shoelaceTerm. cbn.
  match goal with |- Rabs ?x = _ => replace x with 144 by lra end.
  apply Rabs_pos_eq. lra.
Qed.

Lemma center_squareA : center (calculateMetrics squareA) = mkPoint 0 0.
Proof. rewrite center_mean by discriminate. cbn. f_equal; lra. Qed.

Lemma center_squareB : center (calculateMetrics squareB) = mkPoint 10 0.
Proof. rewrite center_mean by discriminate. cbn. f_equal; lra. Qed.

Lemma center_squareC : center (calculateMetrics squareC) = mkPoint 20 0.
Proof. rewrite center_mean by discriminate. cbn. f_equal; lra. Qed.

(** All three pass the noise filter. *)
Lemma contourMetricsOf_squares :
  contourMetricsOf [squareA; squareB; squareC]
  = [mkCM squareA (calculateMetrics squareA);
     mkCM squareB (calculateMetrics squareB);
     mkCM squareC (calculateMetrics squareC)].
Proof.
  unfold contourMetricsOf. cbn [map filter cmMetrics].
  rewrite area_squareA, area_squareB, area_squareC.
  repeat (decide_test; cbn [negb]). reflexivity.
Qed.

(** C3 fails as stated.  Squares A and B both pass noise rejection, their
    centers are 10 apart and B has the larger area, so B should be the one
    of the pair that survives.  But C, 10 away from B and larger still,
    shadows B: of the pair A, B neither survives, and the pass returns C
    alone. *)
Lemma outerContoursMetrics_drops_both_of_a_pair :
  contourMetricsOf [squareA; squareB; squareC]
  = [mkCM squareA (calculateMetrics squareA);
     mkCM squareB (calculateMetrics squareB);
     mkCM squareC (calculateMetrics squareC)]
  /\ centerDistance (mkCM squareA (calculateMetrics squareA))
                    (mkCM squareB (calculateMetrics squareB)) < 15
  /\ area (calculateMetrics squareA) < area (calculateMetrics squareB)
  /\ outerContoursMetrics (contourMetricsOf [squareA; squareB; squareC])
     = [mkCM squareC (calculateMetrics squareC)].
Proof.
  split; [apply contourMetricsOf_squares|].
  split.
  { unfold centerDistance. cbn [cmMetrics].
    rewrite center_squareA, center_squareB. cbn [px py].
    apply ltb_true. rewrite ltb_sqrt by nra. apply ltb_true. lra. }
  split.
  { rewrite area_squareA, area_squareB. lra. }
  rewrite contourMetricsOf_squares.
  unfold outerContoursMetrics, isInnerContour, indexed, shadows.
  cbn [length seq combine filter existsb fst snd cmMetrics Nat.eqb negb andb].
  rewrite area_squareA, area_squareB, area_squareC.
  rewrite center_squareA, center_squareB, center_squareC. cbn [px py].
  rewrite !ltb_sqrt by nra.
  repeat (decide_test; cbn [negb andb orb filter map snd]).
  reflexivity.
Qed.

(** C3 (as amended).  The pass keeps the entries, in discovery order, that
    no other entry shadows: the entry at position [i] is kept exactly when
    no entry at another position has its center at a distance below 15 and
    a strictly larger area.  So of two entries closer than 15 the one with
    the strictly smaller area is always dropped; the other one is kept
    unless a third entry shadows it, and two entries of equal area do not
    drop each other. *)
Theorem outerContoursMetrics_spec (cms : list ContourMetrics) :
  outerContoursMetrics cms = map snd (keptEntries cms)
  /\ subseq (outerContoursMetrics cms) cms
  /\ (forall i cm1,
         nth_error cms i = Some cm1 ->
         (In (i, cm1) (keptEntries cms)
          <-> forall j cm2,
             nth_error cms j = Some cm2 -> j <> i ->
             centerDistance cm1 cm2 < 15 ->
             ~ area (cmMetrics cm2) > area (cmMetrics cm1)))
  /\ (forall i j cm1 cm2,
         nth_error cms i = Some cm1 -> nth_error cms j = Some cm2 -> j <> i ->
         centerDistance cm1 cm2 < 15 ->
         area (cmMetrics cm1) < area (cmMetrics cm2) ->
         ~ In (i, cm1) (keptEntries cms)).
Proof.
  assert (Hkept : forall i cm1,
             nth_error cms i = Some cm1 ->
             (In (i, cm1) (keptEntries cms)
              <-> forall j cm2,
                 nth_error cms j = Some cm2 -> j <> i ->
                 centerDistance cm1 cm2 < 15 ->
                 ~ area (cmMetrics cm2) > area (cmMetrics cm1))).
  { intros i cm1 Hi. unfold keptEntries. rewrite filter_In. cbn [fst snd].
    rewrite indexed_In. split.
    - intros [_ Hk] j cm2 Hj Hne Hd Harea.
      apply negb_true_iff in Hk.
      assert (Hin : isInnerContour cms i cm1 = true).
      { apply isInnerContour_spec. exists j, cm2. auto. }
      congruence.
    - intros Hno. split; [exact Hi|].
      apply negb_true_iff.
      destruct (isInnerContour cms i cm1) eqn:E; [|reflexivity].
      apply isInnerContour_spec in E.
      destruct E as (j & cm2 & Hj & Hne & Hd & Harea).
      exfalso. exact (Hno j cm2 Hj Hne Hd Harea). }
  split; [reflexivity|].
  split.
  - unfold outerContoursMetrics.
    rewrite <- (map_snd_indexed cms) at 2.
    apply subseq_map, subseq_filter.
  - split; [exact Hkept|].
    intros i j cm1 cm2 Hi Hj Hne Hd Harea Hin.
    pose proof (proj1 (Hkept i cm1 Hi) Hin j cm2 Hj Hne Hd) as Hno.
    apply Hno. lra.
Qed.

End FilterFacts.

(** ** The tracer and the scan that drives it *)

Module ScannerFacts.

Import Tracer TracerFacts Scanner.
Open Scope Z_scope.

Lemma neighbors_offsets (n : nat) :
  (n < 8)%nat ->
  nth n neighbors (0, 0) <> (0, 0)
  /\ Z.abs (fst (nth n neighbors (0, 0))) <= 1
  /\ Z.abs (snd (nth n neighbors (0, 0))) <= 1.
Proof.
  intros H.
  do 8 (destruct n as [|n]; [cbn; repeat split; try lia; discriminate|]).
  lia.
Qed.

(** A pixel the scan accepts touches the current pixel. *)
Lemma scanNeighbors_adjacent width height grid startPoint currentPoint k indices :
  match scanNeighbors width height grid startPoint currentPoint k indices with
  | Next p _ => adjacent currentPoint p
  | _ => True
  end.
Proof.
  induction indices as [|i rest IH]; cbn [scanNeighbors]; auto.
  assert (Hn : ((k + i) mod length neighbors < 8)%nat).
  { apply (Nat.mod_upper_bound (k + i) 8). lia. }
  destruct (neighbors_offsets _ Hn) as (Hne & Hx & Hy).
  set (nb := nth _ neighbors (0, 0)) in *.
  set (nextX := gx currentPoint + fst nb).
  set (nextY := gy currentPoint + snd nb).
  destruct ((nextX <? 0) || (nextX >=? width) || (nextY <? 0) || (nextY >=? height));
    [exact IH|].
  destruct ((nextX =? gx startPoint) && (nextY =? gy startPoint)); [exact I|].
  destruct (readCell grid nextX nextY) as [| |v]; [exact I | exact IH |].
  destruct ((v =? 255) || (v =? 128)); [|exact IH].
  unfold adjacent. cbn [gx gy]. unfold nextX, nextY.
  split.
  - intros E. apply Hne. destruct nb as [a b]. cbn [fst snd] in *.
    destruct currentPoint as [cx cy]. cbn [gx gy] in E.
    injection E as E1 E2. f_equal; lia.
  - split; [replace (gx currentPoint + fst nb - gx currentPoint) with (fst nb) by lia
           |replace (gy currentPoint + snd nb - gy currentPoint) with (snd nb) by lia];
      assumption.
Qed.

Lemma chained_snoc (l : list GridPoint) (p d : GridPoint) :
  l <> [] -> chained l -> adjacent (last l d) p -> chained (l ++ [p]).
Proof.
  induction l as [|a l IH]; intros Hne Hc Hadj; [congruence|].
  destruct l as [|b l].
  - cbn in *. auto.
  - change (chained ((a :: b :: l) ++ [p]))
      with (adjacent a b /\ chained ((b :: l) ++ [p])).
    destruct Hc as [Hab Hc]. split; [exact Hab|].
    apply IH; [discriminate | exact Hc | exact Hadj].
Qed.

(** Whatever the walk returns, each point of its contour touches the next. *)
Lemma walk_chained width height startPoint remaining :
  forall contour0 grid currentPoint k entered t,
    contour0 <> [] ->
    last contour0 startPoint = currentPoint ->
    chained contour0 ->
    walk width height startPoint remaining contour0 grid currentPoint k entered = Some t ->
    chained (contour t).
Proof.
  induction remaining as [|r IH]; intros contour0 grid cur k entered t Hne Hlast Hc H.
  - cbn in H. injection H as <-. exact Hc.
  - cbn [walk] in H.
    pose proof (scanNeighbors_adjacent width height grid startPoint cur k
                  (seq 0 (length neighbors))) as Hadj.
    destruct (scanNeighbors width height grid startPoint cur k
                (seq 0 (length neighbors))) as [|p ni| |].
    + injection H as <-. exact Hc.
    + eapply IH; [| | |exact H].
      * now destruct contour0.
      * apply last_last.
      * apply (chained_snoc contour0 p startPoint); auto. now rewrite Hlast.
    + injection H as <-. exact Hc.
    + discriminate.
Qed.

Lemma consumes_refl width height grid : consumes width height grid grid.
Proof. intros p _. now left. Qed.

Lemma consumes_trans width height g1 g2 g3 :
  consumes width height g1 g2 -> consumes width height g2 g3 ->
  consumes width height g1 g3.
Proof.
  intros H12 H23 p Hp.
  destruct (H12 p Hp) as [E12|[E1 E2]]; destruct (H23 p Hp) as [E23|[E2' E3]].
  - left. congruence.
  - right. split; congruence.
  - right. split; congruence.
  - congruence.
Qed.

(** Inside a well-formed grid every read gives a value. *)
Lemma readCell_inBounds width height grid p :
  wellFormed width height grid -> inBounds width height p ->
  exists v, readCell grid (gx p) (gy p) = Val v.
Proof.
  intros [Hh Hw] [Hx Hy]. unfold readCell.
  destruct (nth_error grid (Z.to_nat (gy p))) as [row|] eqn:Hrow.
  - assert (Hlen : Z.of_nat (length row) = width).
    { rewrite Forall_forall in Hw. apply Hw. eapply nth_error_In; eauto. }
    destruct (nth_error row (Z.to_nat (gx p))) as [v|] eqn:Hv; [eauto|].
    apply nth_error_None in Hv. lia.
  - apply nth_error_None in Hrow. lia.
Qed.

(** Marking a 255 cell keeps the grid's shape, turns only that cell, and
    leaves 128 in it. *)
Lemma writeCell_consumes width height grid p :
  wellFormed width height grid -> inBounds width height p ->
  readCell grid (gx p) (gy p) = Val 255 ->
  consumes width height grid (writeCell grid (gx p) (gy p) 128)
  /\ readCell (writeCell grid (gx p) (gy p) 128) (gx p) (gy p) = Val 128.
Proof.
  intros Hwf [Hx Hy] H255. split.
  - intros q [Hqx Hqy]. rewrite readCell_writeCell by lia.
    destruct ((gx q =? gx p) && (gy q =? gy p)) eqn:E; [|now left].
    apply andb_true_iff in E. destruct E as [Ex Ey].
    apply Z.eqb_eq in Ex. apply Z.eqb_eq in Ey.
    right. rewrite Ex, Ey, H255. auto.
  - rewrite readCell_writeCell by lia.
    rewrite !Z.eqb_refl. cbn [andb]. now rewrite H255.
Qed.

(** The loop only ever turns 255 cells into 128, and every pixel it
    appended holds 128 when it returns. *)
Lemma walk_consumes width height startPoint remaining :
  forall contour0 grid currentPoint k entered t,
    wellFormed width height grid ->
    walk width height startPoint remaining contour0 grid currentPoint k entered = Some t ->
    wellFormed width height (grid' t)
    /\ consumes width height grid (grid' t)
    /\ exists appended,
        contour t = contour0 ++ appended
        /\ Forall (fun p => inBounds width height p
                            /\ readCell (grid' t) (gx p) (gy p) = Val 128) appended.
Proof.
  induction remaining as [|r IH]; intros contour0 grid cur k entered t Hwf H.
  - cbn in H. injection H as <-. cbn.
    split; [exact Hwf|]. split; [apply consumes_refl|].
    exists []. now rewrite app_nil_r.
  - cbn [walk] in H.
    pose proof (scanNeighbors_spec width height grid startPoint cur k
                  (seq 0 (length neighbors)) Hwf) as Hscan.
    destruct (scanNeighbors width height grid startPoint cur k
                (seq 0 (length neighbors))) as [|p ni| |].
    + injection H as <-. cbn.
      split; [exact Hwf|]. split; [apply consumes_refl|].
      exists []. now rewrite app_nil_r.
    + destruct Hscan as (_ & Hin & Hedge).
      set (grid1 := match readCell grid (gx p) (gy p) with
                    | Val v => if v =? 255 then writeCell grid (gx p) (gy p) 128 else grid
                    | _ => grid
                    end) in *.
      assert (H1 : wellFormed width height grid1
                   /\ consumes width height grid grid1
                   /\ readCell grid1 (gx p) (gy p) = Val 128).
      { unfold grid1. destruct Hedge as [E|E]; rewrite E.
        - cbn [Z.eqb Pos.eqb].
          split; [now apply writeCell_wellFormed|].
          now apply writeCell_consumes.
        - cbn [Z.eqb Pos.eqb].
          split; [exact Hwf|]. split; [apply consumes_refl | exact E]. }
      destruct H1 as (Hwf1 & Hc1 & Hp1).
      destruct (IH _ _ _ _ _ _ Hwf1 H) as (Hwft & Hct & appended & Eapp & Hall).
      split; [exact Hwft|].
      split; [eapply consumes_trans; eauto|].
      exists (p :: appended). split.
      * rewrite Eapp, <- app_assoc. reflexivity.
      * constructor; [|exact Hall]. split; [exact Hin|].
        destruct (Hct p Hin) as [E|[E _]]; congruence.
    + injection H as <-. cbn.
      split; [exact Hwf|]. split; [apply consumes_refl|].
      exists []. now rewrite app_nil_r.
    + discriminate.
Qed.

(** A cell that holds 128 keeps it. *)
Lemma consumes_visited width height g1 g2 p :
  consumes width height g1 g2 -> inBounds width height p ->
  readCell g1 (gx p) (gy p) = Val 128 -> readCell g2 (gx p) (gy p) = Val 128.
Proof. intros Hc Hp H. destruct (Hc p Hp) as [E|[E _]]; congruence. Qed.

(** A cell that does not hold 255 never comes to hold it. *)
Lemma consumes_no_edge width height g1 g2 p :
  consumes width height g1 g2 -> inBounds width height p ->
  readCell g1 (gx p) (gy p) <> Val 255 -> readCell g2 (gx p) (gy p) <> Val 255.
Proof. intros Hc Hp H. destruct (Hc p Hp) as [E|[E _]]; congruence. Qed.

(** An edge value now was an edge value from the start. *)
Lemma consumes_edgeOrVisited width height g1 g2 p :
  consumes width height g1 g2 -> inBounds width height p ->
  edgeOrVisited g2 p -> edgeOrVisited g1 p.
Proof.
  intros Hc Hp H. unfold edgeOrVisited in *.
  destruct (Hc p Hp) as [E|[E1 E2]]; [now rewrite <- E | now left].
Qed.

Lemma range_In (n z : Z) : In z (range n) <-> 0 <= z < n.
Proof.
  unfold range. rewrite in_map_iff. split.
  - intros (i & <- & Hi). apply in_seq in Hi. lia.
  - intros Hz. exists (Z.to_nat z). split; [lia|]. apply in_seq. lia.
Qed.

(** The two loops visit exactly the pixels of the grid. *)
Lemma positions_In (width height : Z) (p : Z * Z) :
  In p (positions width height)
  <-> inBounds width height (mkGP (fst p) (snd p)).
Proof.
  unfold positions, inBounds. cbn [gx gy]. rewrite in_flat_map. split.
  - intros (y & Hy & Hin). apply in_map_iff in Hin. destruct Hin as (x & <- & Hx).
    apply range_In in Hy. apply range_In in Hx. cbn [fst snd]. lia.
  - intros [Hx Hy]. exists (snd p). split; [now apply range_In|].
    apply in_map_iff. exists (fst p). split; [now destruct p | now apply range_In].
Qed.

(** What the scan keeps true from pixel to pixel: the grid keeps its shape
    and only loses 255 cells; the contours kept are longer than 30 points,
    connected, made of pixels that held an edge value in the grid the scan
    started from, and all marked 128 by now. *)
Lemma scanCell_invariant width height grid0 (p : Z * Z) (s : Scanned) :
  inBounds width height (mkGP (fst p) (snd p)) ->
  wellFormed width height (gridAfter s) ->
  consumes width height grid0 (gridAfter s) ->
  Forall (fun c => (30 < length c <= S MAX_TRACE)%nat /\ chained c
                   /\ Forall (fun q => inBounds width height q /\ edgeOrVisited grid0 q
                                       /\ readCell (gridAfter s) (gx q) (gy q) = Val 128) c)
         (found s) ->
  exists s',
    scanCell width height (Some s) p = Some s'
    /\ wellFormed width height (gridAfter s')
    /\ consumes width height (gridAfter s) (gridAfter s')
    /\ readCell (gridAfter s') (fst p) (snd p) <> Val 255
    /\ Forall (fun c => (30 < length c <= S MAX_TRACE)%nat /\ chained c
                        /\ Forall (fun q => inBounds width height q /\ edgeOrVisited grid0 q
                                            /\ readCell (gridAfter s') (gx q) (gy q) = Val 128) c)
              (found s').
Proof.
  intros Hp Hwf Hc0 Hfound. unfold scanCell.
  destruct (readCell_inBounds _ _ _ _ Hwf Hp) as [v Hv]. cbn [gx gy] in Hv.
  rewrite Hv.
  destruct (Z.eqb_spec v 255) as [->|Hne].
  2:{ exists s. split; [reflexivity|]. split; [exact Hwf|].
      split; [apply consumes_refl|]. split; [congruence | exact Hfound]. }
  set (start := mkGP (fst p) (snd p)) in *.
  destruct (writeCell_consumes width height (gridAfter s) start Hwf Hp Hv) as [Hc1 Hs1].
  cbn [start gx gy] in Hc1, Hs1.
  set (grid1 := writeCell (gridAfter s) (fst p) (snd p) 128) in *.
  assert (Hwf1 : wellFormed width height grid1) by now apply writeCell_wellFormed.
  destruct (walk_spec width height start grid1 MAX_TRACE [start] grid1 start 4%nat 0%nat
                      Hwf1 (fun _ _ H => H))
    as (t & appended & Ht & Econ & Hacc & _ & Hcap).
  unfold traceContour. fold start. rewrite Ht.
  destruct (walk_consumes _ _ _ _ _ _ _ _ _ _ Hwf1 Ht)
    as (Hwft & Hct & appended' & Econ' & Hmarked).
  assert (appended' = appended).
  { rewrite Econ in Econ'. now apply app_inv_head in Econ'. }
  subst appended'.
  assert (Hchain : chained (contour t)).
  { eapply (walk_chained width height start MAX_TRACE [start]); eauto.
    - discriminate.
    - exact I. }
  assert (Hst : consumes width height (gridAfter s) (grid' t))
    by (eapply consumes_trans; eauto).
  eexists. split; [reflexivity|]. cbn [gridAfter found].
  split; [exact Hwft|]. split; [exact Hst|].
  split.
  { apply (consumes_no_edge width height grid1 (grid' t) start Hct Hp).
    cbn [start gx gy]. rewrite Hs1. discriminate. }
  assert (Hold : Forall (fun c => (30 < length c <= S MAX_TRACE)%nat /\ chained c
                   /\ Forall (fun q => inBounds width height q /\ edgeOrVisited grid0 q
                                       /\ readCell (grid' t) (gx q) (gy q) = Val 128) c)
                        (found s)).
  { eapply Forall_impl; [|exact Hfound]. cbn beta. intros c (Hl & Hch & Hall).
    split; [exact Hl|]. split; [exact Hch|].
    eapply Forall_impl; [|exact Hall]. cbn beta. intros q (Hq & He & H128).
    split; [exact Hq|]. split; [exact He|].
    now apply (consumes_visited width height (gridAfter s) (grid' t)). }
  destruct (30 <? length (contour t))%nat eqn:Hlong; [|exact Hold].
  apply Forall_app. split; [exact Hold|].
  constructor; [|constructor].
  split.
  { split; [now apply Nat.ltb_lt|]. rewrite Econ, length_app. cbn [length].
    destruct Hcap as [(_ & Hlt & _)|(_ & Heq & _)]; lia. }
  split; [exact Hchain|].
  rewrite Econ. constructor.
  - split; [exact Hp|]. split.
    + apply (consumes_edgeOrVisited width height grid0 (gridAfter s)); auto.
      left. exact Hv.
    + apply (consumes_visited width height grid1 (grid' t)); auto.
  - rewrite Forall_forall in Hacc, Hmarked. apply Forall_forall. intros q Hq.
    destruct (Hacc q Hq) as (_ & Hin & He).
    destruct (Hmarked q Hq) as (_ & H128).
    split; [exact Hin|]. split; [|exact H128].
    apply (consumes_edgeOrVisited width height grid0 (gridAfter s)); auto.
    apply (consumes_edgeOrVisited width height (gridAfter s) grid1); auto.
Qed.

Lemma scan_fold width height grid0 (l : list (Z * Z)) :
  forall s,
    Forall (fun p => inBounds width height (mkGP (fst p) (snd p))) l ->
    wellFormed width height (gridAfter s) ->
    consumes width height grid0 (gridAfter s) ->
    Forall (fun c => (30 < length c <= S MAX_TRACE)%nat /\ chained c
                     /\ Forall (fun q => inBounds width height q /\ edgeOrVisited grid0 q
                                         /\ readCell (gridAfter s) (gx q) (gy q) = Val 128) c)
           (found s) ->
    exists s',
      fold_left (scanCell width height) l (Some s) = Some s'
      /\ wellFormed width height (gridAfter s')
      /\ consumes width height grid0 (gridAfter s')
      /\ consumes width height (gridAfter s) (gridAfter s')
      /\ Forall (fun p => readCell (gridAfter s') (fst p) (snd p) <> Val 255) l
      /\ Forall (fun c => (30 < length c <= S MAX_TRACE)%nat /\ chained c
                          /\ Forall (fun q => inBounds width height q /\ edgeOrVisited grid0 q
                                              /\ readCell (gridAfter s') (gx q) (gy q) = Val 128) c)
                (found s').
Proof.
  induction l as [|p l IH]; intros s Hl Hwf Hc0 Hfound.
  - exists s. cbn [fold_left].
    split; [reflexivity|]. split; [exact Hwf|]. split; [exact Hc0|].
    split; [apply consumes_refl|]. split; [constructor | exact Hfound].
  - inversion Hl as [|? ? Hp Hrest]; subst.
    destruct (scanCell_invariant width height grid0 p s Hp Hwf Hc0 Hfound)
      as (s1 & E1 & Hwf1 & Hc1 & Hp1 & Hf1).
    assert (Hc01 : consumes width height grid0 (gridAfter s1))
      by (eapply consumes_trans; eauto).
    destruct (IH s1 Hrest Hwf1 Hc01 Hf1) as (s' & E' & Hwf' & Hc' & Hc1' & Hl' & Hf').
    exists s'. cbn [fold_left]. rewrite E1.
    split; [exact E'|]. split; [exact Hwf'|]. split; [exact Hc'|].
    split; [eapply consumes_trans; eauto|].
    split; [|exact Hf'].
    constructor; [|exact Hl'].
    apply (consumes_no_edge width height (gridAfter s1) (gridAfter s')
                            (mkGP (fst p) (snd p)) Hc1' Hp Hp1).
Qed.

Lemma positions_inBounds width height :
  Forall (fun p => inBounds width height (mkGP (fst p) (snd p))) (positions width height).
Proof. apply Forall_forall. intros p Hp. now apply positions_In. Qed.

(** X1.  The scan consumes every edge pixel and touches nothing else: on a
    well-formed grid it returns, the grid keeps its shape, cells change only
    from 255 to 128, and no cell holds 255 afterwards. *)
Theorem findContours_consumes_edges width height grid :
  wellFormed width height grid ->
  exists s,
    findContours width height grid = Some s
    /\ wellFormed width height (gridAfter s)
    /\ consumes width height grid (gridAfter s)
    /\ forall p, inBounds width height p ->
                 readCell (gridAfter s) (gx p) (gy p) <> Val 255.
Proof.
  intros Hwf.
  destruct (scan_fold width height grid (positions width height)
                      (mkScanned [] grid []) (positions_inBounds width height)
                      Hwf (consumes_refl _ _ _) (Forall_nil _))
    as (s & E & Hwf' & Hc & _ & Hall & _).
  exists s. split; [exact E|]. split; [exact Hwf'|]. split; [exact Hc|].
  intros p Hp. rewrite Forall_forall in Hall.
  apply (Hall (gx p, gy p)). apply positions_In. now destruct p.
Qed.

Lemma findContours_consumes_edges_witness :
  exists s,
    findContours 5 5 ringGrid = Some s
    /\ wellFormed 5 5 (gridAfter s)
    /\ consumes 5 5 ringGrid (gridAfter s)
    /\ forall p, inBounds 5 5 p ->
                 readCell (gridAfter s) (gx p) (gy p) <> Val 255.
Proof.
  apply (findContours_consumes_edges 5 5 ringGrid).
  split; [reflexivity | repeat constructor].
Defined.

Lemma binary_readCell grid x y v :
  binary grid -> readCell grid x y = Val v -> v = 0 \/ v = 255.
Proof.
  unfold binary, readCell. intros Hb H.
  destruct (nth_error grid (Z.to_nat y)) as [row|] eqn:Hrow; [|discriminate].
  destruct (nth_error row (Z.to_nat x)) as [c|] eqn:Hc; [|discriminate].
  injection H as <-.
  rewrite Forall_forall in Hb. apply nth_error_In in Hrow. specialize (Hb _ Hrow).
  rewrite Forall_forall in Hb. apply Hb. eapply nth_error_In; eauto.
Qed.

(** X2.  What the scan returns on a grid of 0s and 255s: every contour has more
    than 30 and at most 20001 points, each of its points touches the next,
    every one was an edge pixel (255) of the grid, and every one is marked
    128 afterwards. *)
Theorem findContours_contours width height grid :
  wellFormed width height grid ->
  binary grid ->
  exists s,
    findContours width height grid = Some s
    /\ Forall (fun c => 30 < Z.of_nat (length c) <= 20001 /\ chained c
                        /\ Forall (fun q => inBounds width height q
                                            /\ readCell grid (gx q) (gy q) = Val 255
                                            /\ readCell (gridAfter s) (gx q) (gy q) = Val 128) c)
              (found s).
Proof.
  intros Hwf Hbin.
  destruct (scan_fold width height grid (positions width height)
                      (mkScanned [] grid []) (positions_inBounds width height)
                      Hwf (consumes_refl _ _ _) (Forall_nil _))
    as (s & E & _ & _ & _ & _ & Hfound).
  exists s. split; [exact E|].
  eapply Forall_impl; [|exact Hfound]. cbn beta. intros c (Hl & Hch & Hall).
  split; [pose proof MAX_TRACE_value; lia|]. split; [exact Hch|].
  eapply Forall_impl; [|exact Hall]. cbn beta. intros q (Hq & He & H128).
  split; [exact Hq|]. split; [|exact H128].
  destruct He as [E255|E128]; [exact E255|].
  destruct (binary_readCell _ _ _ _ Hbin E128); discriminate.
Qed.

(** On the edges of the scene the scan keeps three contours: the outer
    ring of the disc and the outer and the inner ring of the bar.  The
    other pixels of the bands give contours of 30 pixels and fewer, which
    are dropped. *)
Lemma findContours_sceneEdges :
  option_map found (findContours 40 26 Whole.sceneEdges)
  = Some [Whole.discContour; Whole.barOuter; Whole.barInner].
Proof. vm_compute. reflexivity. Qed.

Lemma binary_checked (grid : Grid) :
  forallb (forallb (fun v => (v =? 0) || (v =? 255))) grid = true -> binary grid.
Proof.
  intros H. unfold binary. rewrite forallb_forall in H.
  apply Forall_forall. intros row Hrow. specialize (H row Hrow).
  rewrite forallb_forall in H. apply Forall_forall. intros v Hv.
  specialize (H v Hv). lia.
Qed.

Lemma wellFormed_checked (width height : Z) (grid : Grid) :
  Z.of_nat (length grid) = height ->
  forallb (fun row => Z.of_nat (length row) =? width) grid = true ->
  wellFormed width height grid.
Proof.
  intros Hh H. split; [exact Hh|]. rewrite forallb_forall in H.
  apply Forall_forall. intros row Hrow. specialize (H row Hrow). lia.
Qed.

Lemma sceneEdges_binary : binary Whole.sceneEdges.
Proof. apply binary_checked. vm_compute. reflexivity. Qed.

Lemma sceneEdges_wellFormed : wellFormed 40 26 Whole.sceneEdges.
Proof. apply wellFormed_checked; vm_compute; reflexivity. Qed.

Lemma findContours_contours_witness :
  exists s,
    (findContours 40 26 Whole.sceneEdges = Some s
     /\ Forall (fun c => 30 < Z.of_nat (length c) <= 20001 /\ chained c
                         /\ Forall (fun q => inBounds 40 26 q
                                             /\ readCell Whole.sceneEdges (gx q) (gy q)
                                                = Val 255
                                             /\ readCell (gridAfter s) (gx q) (gy q)
                                                = Val 128) c)
               (found s))
    /\ found s = [Whole.discContour; Whole.barOuter; Whole.barInner].
Proof.
  destruct (findContours_contours 40 26 Whole.sceneEdges
              sceneEdges_wellFormed sceneEdges_binary) as (s & E & H).
  exists s. split; [split; [exact E | exact H]|].
  pose proof findContours_sceneEdges as F. rewrite E in F.
  cbn [option_map] in F. now injection F.
Defined.

(** Scanning pixels that hold no edge value changes nothing. *)
Lemma scan_blank width height (l : list (Z * Z)) (s : Scanned) :
  wellFormed width height (gridAfter s) ->
  (forall p, inBounds width height p ->
             readCell (gridAfter s) (gx p) (gy p) <> Val 255) ->
  Forall (fun p => inBounds width height (mkGP (fst p) (snd p))) l ->
  fold_left (scanCell width height) l (Some s) = Some s.
Proof.
  intros Hwf Hblank Hpos.
  induction l as [|p l IH]; [reflexivity|].
  inversion Hpos as [|? ? Hp Hrest]; subst.
  cbn [fold_left]. unfold scanCell at 2.
  destruct (readCell_inBounds _ _ _ _ Hwf Hp) as [v Hv]. cbn [gx gy] in Hv.
  rewrite Hv.
  destruct (Z.eqb_spec v 255) as [->|Hne]; [|now apply IH].
  exfalso. exact (Hblank _ Hp Hv).
Qed.

(** X3.  A grid without edge pixels gives no contour and is left as it was. *)
Theorem findContours_blank width height grid :
  wellFormed width height grid ->
  (forall p, inBounds width height p -> readCell grid (gx p) (gy p) <> Val 255) ->
  findContours width height grid = Some (mkScanned [] grid []).
Proof.
  intros Hwf Hblank. unfold findContours.
  apply (scan_blank width height); auto using positions_inBounds.
Qed.

Lemma findContours_blank_witness :
  findContours 2 1 [[0; 128]] = Some (mkScanned [] [[0; 128]] []).
Proof.
  apply (findContours_blank 2 1 [[0; 128]]).
  - split; [reflexivity | repeat constructor].
  - intros [x y] [Hx Hy]. cbn [gx gy] in *.
    assert (y = 0) by lia. subst y.
    assert (x = 0 \/ x = 1) as [-> | ->] by lia; discriminate.
Defined.

(** X4.  From any start pixel of a well-formed grid the tracer returns a
    connected contour: each point touches the next by a side or a corner. *)
Theorem traceContour_connected width height startPoint grid :
  wellFormed width height grid ->
  exists t,
    traceContour width height startPoint grid = Some t
    /\ chained (contour t).
Proof.
  intros Hwf.
  destruct (walk_spec width height startPoint grid MAX_TRACE
              [startPoint] grid startPoint 4%nat 0%nat Hwf (fun _ _ H => H))
    as (t & appended & Ht & _).
  exists t. split; [exact Ht|].
  eapply (walk_chained width height startPoint MAX_TRACE [startPoint]); eauto.
  - discriminate.
  - exact I.
Qed.

Lemma traceContour_connected_witness :
  exists t,
    traceContour 5 3 (mkGP 1 1) strokeGrid = Some t
    /\ chained (contour t).
Proof.
  apply (traceContour_connected 5 3 (mkGP 1 1) strokeGrid).
  split; [reflexivity | repeat constructor].
Defined.

(** X5.  The tracer changes the grid only by marking: the grid keeps its shape,
    cells change only from 255 to 128, and every pixel appended to the
    contour holds 128 when the call returns. *)
Theorem traceContour_marks_visited width height startPoint grid :
  wellFormed width height grid ->
  exists t appended,
    traceContour width height startPoint grid = Some t
    /\ contour t = startPoint :: appended
    /\ wellFormed width height (grid' t)
    /\ consumes width height grid (grid' t)
    /\ Forall (fun p => readCell (grid' t) (gx p) (gy p) = Val 128) appended.
Proof.
  intros Hwf.
  destruct (walk_spec width height startPoint grid MAX_TRACE
              [startPoint] grid startPoint 4%nat 0%nat Hwf (fun _ _ H => H))
    as (t & appended & Ht & Econ & _).
  destruct (walk_consumes _ _ _ _ _ _ _ _ _ _ Hwf Ht)
    as (Hwft & Hct & appended' & Econ' & Hmarked).
  assert (appended' = appended).
  { rewrite Econ in Econ'. now apply app_inv_head in Econ'. }
  subst appended'.
  exists t, appended. split; [exact Ht|]. split; [exact Econ|].
  split; [exact Hwft|]. split; [exact Hct|].
  eapply Forall_impl; [|exact Hmarked]. cbn beta. tauto.
Qed.

Lemma traceContour_marks_visited_witness :
  exists t appended,
    traceContour 5 3 (mkGP 1 1) strokeGrid = Some t
    /\ contour t = mkGP 1 1 :: appended
    /\ wellFormed 5 3 (grid' t)
    /\ consumes 5 3 strokeGrid (grid' t)
    /\ Forall (fun p => readCell (grid' t) (gx p) (gy p) = Val 128) appended.
Proof.
  apply (traceContour_marks_visited 5 3 (mkGP 1 1) strokeGrid).
  split; [reflexivity | repeat constructor].
Defined.

End ScannerFacts.

(** ** Grayscale conversion and edge detection *)

Module ImagingFacts.

Import Tracer TracerFacts Scanner ScannerFacts Imaging.
Local Open Scope R_scope.

Lemma floorR_spec (x : R) : IZR (floorR x) <= x < IZR (floorR x) + 1.
Proof.
  unfold floorR. rewrite minus_IZR.
  destruct (archimed x) as [H1 H2]. lra.
Qed.

Lemma floorR_unique (x : R) (z : Z) : IZR z <= x < IZR z + 1 -> floorR x = z.
Proof.
  intros [H1 H2]. destruct (floorR_spec x) as [F1 F2].
  assert (Hlt1 : (floorR x < z + 1)%Z).
  { apply lt_IZR. rewrite plus_IZR. lra. }
  assert (Hlt2 : (z < floorR x + 1)%Z).
  { apply lt_IZR. rewrite plus_IZR. lra. }
  lia.
Qed.

(** Rounding leaves an integer as it is. *)
Lemma round_IZR (z : Z) : round (IZR z) = IZR z.
Proof. unfold round. f_equal. apply floorR_unique. lra. Qed.

(** Rounding keeps a number between two integers between them. *)
Lemma round_between (x : R) (lo hi : Z) :
  IZR lo <= x <= IZR hi ->
  exists n, (lo <= n <= hi)%Z /\ round x = IZR n.
Proof.
  intros [Hlo Hhi]. exists (floorR (x + 0.5)). split; [|reflexivity].
  destruct (floorR_spec (x + 0.5)) as [F1 F2]. split.
  - apply Z.lt_succ_r. apply lt_IZR. rewrite succ_IZR. lra.
  - apply Z.lt_succ_r. apply lt_IZR. rewrite succ_IZR. lra.
Qed.

Lemma nth_error_range (n z : Z) :
  (0 <= z < n)%Z -> nth_error (range n) (Z.to_nat z) = Some z.
Proof.
  intros Hz. unfold range.
  rewrite nth_error_map.
  rewrite (nth_error_nth' _ 0%nat) by (rewrite length_seq; lia).
  rewrite seq_nth by lia. cbn. f_equal. lia.
Qed.

Lemma length_range (n : Z) : (0 <= n)%Z -> Z.of_nat (length (range n)) = n.
Proof. intros Hn. unfold range. rewrite length_map, length_seq. lia. Qed.

(** Reading the gray grid inside the image gives the gray value computed
    for that pixel. *)
Lemma pixelAt_createGrayscaleGrid (img : ImageData) (x y : Z) :
  (0 <= x < imageWidth img)%Z -> (0 <= y < imageHeight img)%Z ->
  pixelAt (createGrayscaleGrid img) y x = grayAt img x y.
Proof.
  intros Hx Hy. unfold pixelAt, createGrayscaleGrid.
  assert (E : ((y <? 0) || (x <? 0))%Z = false).
  { apply orb_false_iff. split; apply Z.ltb_ge; lia. }
  rewrite E, nth_error_map, nth_error_range by lia. cbn [option_map].
  now rewrite nth_error_map, nth_error_range by lia.
Qed.

Lemma createGrayscaleGrid_wellFormed (img : ImageData) :
  (0 <= imageWidth img)%Z -> (0 <= imageHeight img)%Z ->
  wellFormedGray (imageWidth img) (imageHeight img) (createGrayscaleGrid img).
Proof.
  intros Hw Hh. unfold wellFormedGray, createGrayscaleGrid. split.
  - rewrite length_map. now apply length_range.
  - apply Forall_map. apply Forall_forall. intros y _.
    rewrite length_map. now apply length_range.
Qed.

Lemma channel_range (img : ImageData) (index : Z) :
  Forall (fun v => (0 <= v <= 255)%Z) (data img) ->
  0 <= channel img index <= 255.
Proof.
  intros H. unfold channel.
  assert (Hn : (0 <= nth (Z.to_nat index) (data img) 0 <= 255)%Z).
  { destruct (nth_in_or_default (Z.to_nat index) (data img) 0%Z) as [Hin| ->]; [|lia].
    rewrite Forall_forall in H. now apply H. }
  split; apply IZR_le; lia.
Qed.

(** X6.  The gray grid has the size of the image and holds whole numbers from 0
    to 255. *)
Theorem createGrayscaleGrid_range (img : ImageData) :
  wellFormedImage img ->
  wellFormedGray (imageWidth img) (imageHeight img) (createGrayscaleGrid img)
  /\ forall x y,
      (0 <= x < imageWidth img)%Z -> (0 <= y < imageHeight img)%Z ->
      exists n, (0 <= n <= 255)%Z /\ pixelAt (createGrayscaleGrid img) y x = IZR n.
Proof.
  intros (Hw & Hh & _ & Hdata). split.
  - now apply createGrayscaleGrid_wellFormed.
  - intros x y Hx Hy. rewrite pixelAt_createGrayscaleGrid by assumption.
    unfold grayAt. apply round_between.
    set (index := ((y * imageWidth img + x) * 4)%Z).
    pose proof (channel_range img index Hdata).
    pose proof (channel_range img (index + 1) Hdata).
    pose proof (channel_range img (index + 2) Hdata).
    lra.
Qed.

Lemma createGrayscaleGrid_range_witness :
  wellFormedGray (imageWidth dotImage) (imageHeight dotImage) (createGrayscaleGrid dotImage)
  /\ forall x y,
      (0 <= x < imageWidth dotImage)%Z -> (0 <= y < imageHeight dotImage)%Z ->
      exists n, (0 <= n <= 255)%Z /\ pixelAt (createGrayscaleGrid dotImage) y x = IZR n.
Proof.
  apply (createGrayscaleGrid_range dotImage).
  unfold wellFormedImage, dotImage. cbn [imageWidth imageHeight data].
  repeat split; try lia.
  repeat (apply Forall_cons; [lia|]). apply Forall_nil.
Defined.

Lemma grayAt_channels (img : ImageData) (x y v : Z) :
  nth (Z.to_nat ((y * imageWidth img + x) * 4)) (data img) 0%Z = v ->
  nth (Z.to_nat ((y * imageWidth img + x) * 4 + 1)) (data img) 0%Z = v ->
  nth (Z.to_nat ((y * imageWidth img + x) * 4 + 2)) (data img) 0%Z = v ->
  grayAt img x y = IZR v.
Proof.
  intros Hr Hg Hb. unfold grayAt, channel. rewrite Hr, Hg, Hb.
  replace (0.299 * IZR v + 0.587 * IZR v + 0.114 * IZR v) with (IZR v) by lra.
  apply round_IZR.
Qed.

(** X7.  A pixel whose three colour channels are equal keeps that value as its
    gray value: the three weights add up to one. *)
Theorem grayAt_neutral (img : ImageData) (x y v : Z) :
  wellFormedImage img ->
  (0 <= x < imageWidth img)%Z -> (0 <= y < imageHeight img)%Z ->
  nth (Z.to_nat ((y * imageWidth img + x) * 4)) (data img) 0%Z = v ->
  nth (Z.to_nat ((y * imageWidth img + x) * 4 + 1)) (data img) 0%Z = v ->
  nth (Z.to_nat ((y * imageWidth img + x) * 4 + 2)) (data img) 0%Z = v ->
  grayAt img x y = IZR v.
Proof.
  intros _ _ _ Hr Hg Hb. unfold grayAt, channel. rewrite Hr, Hg, Hb.
  replace (0.299 * IZR v + 0.587 * IZR v + 0.114 * IZR v) with (IZR v) by lra.
  apply round_IZR.
Qed.

Lemma dotImage_wellFormed : wellFormedImage dotImage.
Proof.
  unfold wellFormedImage, dotImage. cbn [imageWidth imageHeight data].
  repeat split; try lia.
  repeat (apply Forall_cons; [lia|]). apply Forall_nil.
Qed.

Lemma grayAt_neutral_witness : grayAt dotImage 1 1 = IZR 255.
Proof.
  apply (grayAt_neutral dotImage 1 1 255 dotImage_wellFormed);
    first [reflexivity | cbn [imageWidth imageHeight dotImage]; lia].
Defined.

(** *** Edge detection *)

Lemma interior_In (n z : Z) : In z (interior n) <-> (1 <= z < n - 1)%Z.
Proof.
  unfold interior. rewrite in_map_iff. split.
  - intros (i & <- & Hi). apply in_seq in Hi. lia.
  - intros Hz. exists (Z.to_nat z). split; [lia|]. apply in_seq. lia.
Qed.

(** The loops visit exactly the pixels off the border. *)
Lemma interiorPositions_In (width height : Z) (p : Z * Z) :
  In p (interiorPositions width height)
  <-> isInterior width height (mkGP (fst p) (snd p)).
Proof.
  unfold interiorPositions, isInterior. cbn [gx gy]. rewrite in_flat_map. split.
  - intros (y & Hy & Hin). apply in_map_iff in Hin. destruct Hin as (x & <- & Hx).
    apply interior_In in Hy. apply interior_In in Hx. cbn [fst snd]. lia.
  - intros [Hx Hy]. exists (snd p). split; [now apply interior_In|].
    apply in_map_iff. exists (fst p). split; [now destruct p | now apply interior_In].
Qed.

Lemma zeroGrid_wellFormed (width height : Z) :
  (0 <= width)%Z -> (0 <= height)%Z -> wellFormed width height (zeroGrid width height).
Proof.
  intros Hw Hh. unfold wellFormed, zeroGrid. split.
  - rewrite repeat_length. lia.
  - apply Forall_forall. intros row Hrow. apply repeat_spec in Hrow. subst row.
    rewrite repeat_length. lia.
Qed.

Lemma zeroGrid_binary (width height : Z) : binary (zeroGrid width height).
Proof.
  unfold binary, zeroGrid. apply Forall_forall. intros row Hrow.
  apply repeat_spec in Hrow. subst row.
  apply Forall_forall. intros v Hv. apply repeat_spec in Hv. now left.
Qed.

Lemma readCell_zeroGrid (width height : Z) (p : GridPoint) :
  inBounds width height p -> readCell (zeroGrid width height) (gx p) (gy p) = Val 0%Z.
Proof.
  intros [Hx Hy]. unfold readCell, zeroGrid.
  rewrite (nth_error_nth' _ []) by (rewrite repeat_length; lia).
  rewrite nth_repeat_lt by lia.
  rewrite (nth_error_nth' _ 0%Z) by (rewrite repeat_length; lia).
  now rewrite nth_repeat_lt by lia.
Qed.

Lemma writeCell_binary (grid : Grid) (x y v : Z) :
  binary grid -> (v = 0 \/ v = 255)%Z -> binary (writeCell grid x y v).
Proof.
  intros Hb Hv. unfold writeCell, binary in *.
  destruct (nth_error grid (Z.to_nat y)) as [row|] eqn:Hrow; [|exact Hb].
  apply Forall_setNth; [exact Hb|].
  apply Forall_setNth; [|exact Hv].
  rewrite Forall_forall in Hb. apply Hb. eapply nth_error_In; eauto.
Qed.

Lemma edgeValue_binary (grid : list (list R)) (x y : Z) :
  (edgeValue grid x y = 0 \/ edgeValue grid x y = 255)%Z.
Proof. unfold edgeValue. destruct (gtb _ 128); auto. Qed.

(** What a run of writes leaves in a cell: the value written there if the
    cell is among those written, what it held otherwise. *)
Lemma writes_readCell (f : Z -> Z -> Z) (ps : list (Z * Z)) :
  forall (grid : Grid) (width height : Z) (q : GridPoint),
    wellFormed width height grid ->
    Forall (fun p => inBounds width height (mkGP (fst p) (snd p))) ps ->
    inBounds width height q ->
    readCell (fold_left (fun g p => writeCell g (fst p) (snd p) (f (fst p) (snd p))) ps grid)
             (gx q) (gy q)
    = if existsb (fun p => (fst p =? gx q)%Z && (snd p =? gy q)%Z) ps
      then Val (f (gx q) (gy q))
      else readCell grid (gx q) (gy q).
Proof.
  induction ps as [|p ps IH]; intros grid width height q Hwf Hps Hq; [reflexivity|].
  inversion Hps as [|? ? Hp Hrest]; subst.
  cbn [fold_left existsb].
  rewrite (IH _ width height q (writeCell_wellFormed _ _ _ _ _ _ Hwf) Hrest Hq).
  destruct (existsb _ ps); [now rewrite orb_true_r|].
  rewrite orb_false_r.
  destruct Hp as [Hpx Hpy]. destruct Hq as [Hqx Hqy]. cbn [gx gy] in *.
  rewrite readCell_writeCell by lia.
  rewrite (Z.eqb_sym (gx q)), (Z.eqb_sym (gy q)).
  destruct ((fst p =? gx q)%Z && (snd p =? gy q)%Z) eqn:E; [|reflexivity].
  apply andb_true_iff in E. destruct E as [Ex Ey].
  apply Z.eqb_eq in Ex. apply Z.eqb_eq in Ey. rewrite Ex, Ey.
  destruct (readCell_inBounds width height grid q Hwf (conj Hqx Hqy)) as [v ->].
  reflexivity.
Qed.

Lemma interiorPositions_inBounds (width height : Z) :
  Forall (fun p => inBounds width height (mkGP (fst p) (snd p)))
         (interiorPositions width height).
Proof.
  apply Forall_forall. intros p Hp. apply interiorPositions_In in Hp.
  destruct Hp as [Hx Hy]. cbn [gx gy] in *. split; cbn [gx gy]; lia.
Qed.

Lemma applySobel_shape (width height : Z) (grid : list (list R)) :
  (0 <= width)%Z -> (0 <= height)%Z ->
  wellFormed width height (applySobelEdgeDetection width height grid)
  /\ binary (applySobelEdgeDetection width height grid).
Proof.
  intros Hw Hh. unfold applySobelEdgeDetection.
  pose proof (zeroGrid_wellFormed width height Hw Hh) as Hwf.
  pose proof (zeroGrid_binary width height) as Hbin.
  revert Hwf Hbin. generalize (zeroGrid width height).
  induction (interiorPositions width height) as [|p ps IH]; intros g Hwf Hbin.
  - now split.
  - cbn [fold_left]. apply IH.
    + now apply writeCell_wellFormed.
    + apply writeCell_binary; [exact Hbin | apply edgeValue_binary].
Qed.

(** What the edge grid holds at each pixel. *)
Lemma applySobel_readCell (width height : Z) (grid : list (list R)) (p : GridPoint) :
  (0 <= width)%Z -> (0 <= height)%Z ->
  inBounds width height p ->
  (isInterior width height p ->
   readCell (applySobelEdgeDetection width height grid) (gx p) (gy p)
   = Val (edgeValue grid (gx p) (gy p)))
  /\ (~ isInterior width height p ->
      readCell (applySobelEdgeDetection width height grid) (gx p) (gy p) = Val 0%Z).
Proof.
  intros Hw Hh Hp. unfold applySobelEdgeDetection.
  rewrite (writes_readCell (edgeValue grid) _ _ width height p
             (zeroGrid_wellFormed _ _ Hw Hh) (interiorPositions_inBounds _ _) Hp).
  destruct (existsb _ (interiorPositions width height)) eqn:E.
  - apply existsb_exists in E. destruct E as (q & Hq & Eq).
    apply andb_true_iff in Eq. destruct Eq as [Ex Ey].
    apply Z.eqb_eq in Ex. apply Z.eqb_eq in Ey.
    apply interiorPositions_In in Hq. rewrite Ex, Ey in Hq.
    assert (Hint : isInterior width height p) by (now destruct p).
    split; [reflexivity | contradiction].
  - split; [|intros _; now apply readCell_zeroGrid].
    intros Hint. exfalso.
    assert (Hin : In (gx p, gy p) (interiorPositions width height)).
    { apply interiorPositions_In. now destruct p. }
    assert (Ht : existsb (fun q => (fst q =? gx p)%Z && (snd q =? gy p)%Z)
                         (interiorPositions width height) = true).
    { apply existsb_exists. exists (gx p, gy p). split; [exact Hin|].
      cbn [fst snd]. now rewrite !Z.eqb_refl. }
    congruence.
Qed.

(** X8.  The edge grid has the size of the image and holds only 0 and 255.  A
    pixel off the border holds 255 exactly when the gradient magnitude of
    the gray grid there exceeds 128; the one-pixel border stays 0. *)
Theorem applySobelEdgeDetection_cells (width height : Z) (grid : list (list R)) :
  (0 <= width)%Z -> (0 <= height)%Z ->
  wellFormed width height (applySobelEdgeDetection width height grid)
  /\ binary (applySobelEdgeDetection width height grid)
  /\ forall p, inBounds width height p ->
       (isInterior width height p ->
        readCell (applySobelEdgeDetection width height grid) (gx p) (gy p)
        = Val (edgeValue grid (gx p) (gy p)))
       /\ (~ isInterior width height p ->
           readCell (applySobelEdgeDetection width height grid) (gx p) (gy p)
           = Val 0%Z).
Proof.
  intros Hw Hh.
  destruct (applySobel_shape width height grid Hw Hh) as [Hwf Hbin].
  split; [exact Hwf|]. split; [exact Hbin|].
  intros p Hp. now apply applySobel_readCell.
Qed.

Lemma applySobelEdgeDetection_cells_witness :
  wellFormed 3 3 (applySobelEdgeDetection 3 3 (createGrayscaleGrid dotImage))
  /\ binary (applySobelEdgeDetection 3 3 (createGrayscaleGrid dotImage))
  /\ forall p, inBounds 3 3 p ->
       (isInterior 3 3 p ->
        readCell (applySobelEdgeDetection 3 3 (createGrayscaleGrid dotImage)) (gx p) (gy p)
        = Val (edgeValue (createGrayscaleGrid dotImage) (gx p) (gy p)))
       /\ (~ isInterior 3 3 p ->
           readCell (applySobelEdgeDetection 3 3 (createGrayscaleGrid dotImage)) (gx p) (gy p)
           = Val 0%Z).
Proof.
  apply (applySobelEdgeDetection_cells 3 3 (createGrayscaleGrid dotImage)); lia.
Defined.

(** The gradient written out: the two kernels applied to the nine pixels
    around [(x, y)]. *)
Lemma gradient_eq (grid : list (list R)) (x y : Z) :
  gradient grid x y
  = (0 + pixelAt grid (y + -1) (x + -1) * -1 + pixelAt grid (y + -1) (x + 0) * 0
       + pixelAt grid (y + -1) (x + 1) * 1
       + pixelAt grid (y + 0) (x + -1) * -2 + pixelAt grid (y + 0) (x + 0) * 0
       + pixelAt grid (y + 0) (x + 1) * 2
       + pixelAt grid (y + 1) (x + -1) * -1 + pixelAt grid (y + 1) (x + 0) * 0
       + pixelAt grid (y + 1) (x + 1) * 1,
     0 + pixelAt grid (y + -1) (x + -1) * -1 + pixelAt grid (y + -1) (x + 0) * -2
       + pixelAt grid (y + -1) (x + 1) * -1
       + pixelAt grid (y + 0) (x + -1) * 0 + pixelAt grid (y + 0) (x + 0) * 0
       + pixelAt grid (y + 0) (x + 1) * 0
       + pixelAt grid (y + 1) (x + -1) * 1 + pixelAt grid (y + 1) (x + 0) * 2
       + pixelAt grid (y + 1) (x + 1) * 1).
Proof. reflexivity. Qed.

Lemma pixelAt_brighten (c : R) (width height : Z) (grid : list (list R)) (y x : Z) :
  wellFormedGray width height grid ->
  (0 <= x < width)%Z -> (0 <= y < height)%Z ->
  pixelAt (brighten c grid) y x = pixelAt grid y x + c.
Proof.
  intros [Hlen Hrows] Hx Hy. unfold pixelAt, brighten.
  replace ((y <? 0)%Z || (x <? 0)%Z) with false
    by (symmetry; apply orb_false_iff; split; apply Z.ltb_ge; lia).
  rewrite nth_error_map.
  destruct (nth_error grid (Z.to_nat y)) as [row|] eqn:Hrow.
  2:{ apply nth_error_None in Hrow. lia. }
  cbn [option_map]. rewrite nth_error_map.
  rewrite Forall_forall in Hrows. pose proof (Hrows _ (nth_error_In _ _ Hrow)) as Hr.
  destruct (nth_error row (Z.to_nat x)) as [v|] eqn:Hv; [reflexivity|].
  apply nth_error_None in Hv. lia.
Qed.

Lemma gradient_brighten (c : R) (width height : Z) (grid : list (list R)) (x y : Z) :
  wellFormedGray width height grid ->
  (1 <= x < width - 1)%Z -> (1 <= y < height - 1)%Z ->
  gradient (brighten c grid) x y = gradient grid x y.
Proof.
  intros Hwf Hx Hy. rewrite !gradient_eq.
  rewrite !(pixelAt_brighten c width height grid) by (exact Hwf || lia).
  f_equal; ring.
Qed.

Lemma fold_left_ext_in {A B : Type} (f g : A -> B -> A) (l : list B) :
  (forall a b, In b l -> f a b = g a b) ->
  forall a, fold_left f l a = fold_left g l a.
Proof.
  induction l as [|b l IH]; intros Hfg a; [reflexivity|].
  cbn [fold_left]. rewrite (Hfg a b (or_introl eq_refl)).
  apply IH. intros a' b' Hin. apply Hfg. now right.
Qed.

(** X9.  Raising every gray value by the same amount changes no edge: the
    weights of each kernel add up to zero. *)
Theorem applySobelEdgeDetection_brighten (c : R) (width height : Z)
        (grid : list (list R)) :
  wellFormedGray width height grid ->
  applySobelEdgeDetection width height (brighten c grid)
  = applySobelEdgeDetection width height grid.
Proof.
  intros Hwf. unfold applySobelEdgeDetection.
  apply fold_left_ext_in. intros g p Hp.
  apply interiorPositions_In in Hp. destruct Hp as [Hx Hy]. cbn [gx gy] in *.
  f_equal. unfold edgeValue.
  now rewrite (gradient_brighten c width height grid).
Qed.

Lemma applySobelEdgeDetection_brighten_witness :
  wellFormedGray 3 3 (createGrayscaleGrid dotImage)
  /\ applySobelEdgeDetection 3 3 (brighten 7 (createGrayscaleGrid dotImage))
     = applySobelEdgeDetection 3 3 (createGrayscaleGrid dotImage).
Proof.
  assert (Hwf : wellFormedGray 3 3 (createGrayscaleGrid dotImage)).
  { split; [reflexivity|]. repeat (apply Forall_cons; [reflexivity|]). apply Forall_nil. }
  split; [exact Hwf|].
  apply (applySobelEdgeDetection_brighten 7 3 3 (createGrayscaleGrid dotImage) Hwf).
Defined.

(** A gray grid whose pixels all hold the same value. *)
Lemma gradient_flat (v : R) (grid : list (list R)) (x y : Z) :
  (forall y' x', (-1 <= y' - y <= 1)%Z -> (-1 <= x' - x <= 1)%Z ->
                 pixelAt grid y' x' = v) ->
  gradient grid x y = (0, 0).
Proof.
  intros Hflat. rewrite gradient_eq.
  rewrite !Hflat by lia. f_equal; ring.
Qed.

Lemma edgeValue_flat (v : R) (grid : list (list R)) (x y : Z) :
  (forall y' x', (-1 <= y' - y <= 1)%Z -> (-1 <= x' - x <= 1)%Z ->
                 pixelAt grid y' x' = v) ->
  edgeValue grid x y = 0%Z.
Proof.
  intros Hflat. unfold edgeValue. rewrite (gradient_flat v) by exact Hflat.
  cbn [fst snd]. replace (0 * 0 + 0 * 0) with 0 by ring. rewrite sqrt_0.
  unfold gtb. destruct (Rgt_dec 0 128); [lra | reflexivity].
Qed.

End ImagingFacts.

(** ** The distance to a chord *)

Section DistanceFacts.

Lemma sqrt_le_of_le (x y : R) : x <= y -> sqrt x <= sqrt y.
Proof. apply sqrt_le_1_alt. Qed.

Lemma dist_sqr (p q : Point) :
  dist p q = sqrt ((px p - px q) * (px p - px q) + (py p - py q) * (py p - py q)).
Proof. unfold dist. f_equal. ring. Qed.

Lemma onSegment_start (a b : Point) : onSegment a b a.
Proof. exists 0. repeat split; lra. Qed.

Lemma onSegment_end (a b : Point) : onSegment a b b.
Proof. exists 1. repeat split; lra. Qed.

(** The point the code calls [closest] lies on the segment, and the value
    returned is the distance to it. *)
Lemma perpendicularDistance_attained (p a b : Point) :
  exists q, onSegment a b q /\ perpendicularDistance p a b = dist p q.
Proof.
  unfold perpendicularDistance.
  destruct (eqb (px b - px a) 0 && eqb (py b - py a) 0) eqn:Edeg.
  - exists a. split; [apply onSegment_start|]. now rewrite dist_sqr.
  - set (dx := px b - px a). set (dy := py b - py a).
    set (t := ((px p - px a) * dx + (py p - py a) * dy) / (dx * dx + dy * dy)).
    destruct (ltb t 0) eqn:Elo.
    + exists a. split; [apply onSegment_start|]. now rewrite dist_sqr.
    + destruct (gtb t 1) eqn:Ehi.
      * exists b. split; [apply onSegment_end|]. now rewrite dist_sqr.
      * exists (mkPoint (px a + t * dx) (py a + t * dy)). split.
        -- exists t. apply ltb_false in Elo. apply gtb_false in Ehi.
           cbn [px py]. repeat split; try reflexivity; lra.
        -- now rewrite dist_sqr.
Qed.

(** No point of the segment is nearer than the value returned. *)
Lemma perpendicularDistance_least (p a b q : Point) :
  onSegment a b q -> perpendicularDistance p a b <= dist p q.
Proof.
  intros (s & Hs & Hqx & Hqy). rewrite dist_sqr, Hqx, Hqy.
  unfold perpendicularDistance.
  set (dx := px b - px a). set (dy := py b - py a).
  set (wx := px p - px a). set (wy := py p - py a).
  destruct (eqb dx 0 && eqb dy 0) eqn:Edeg.
  - apply andb_true_iff in Edeg. destruct Edeg as [Ex Ey].
    apply eqb_true in Ex. apply eqb_true in Ey. rewrite Ex, Ey.
    apply sqrt_le_of_le. apply Req_le. unfold wx, wy. ring.
  - assert (HL : 0 < dx * dx + dy * dy).
    { apply andb_false_iff in Edeg. destruct Edeg as [E|E]; apply eqb_false in E; nra. }
    set (L := dx * dx + dy * dy) in *.
    set (N := wx * dx + wy * dy).
    set (t := N / L).
    assert (HN : N = t * L) by (unfold t; field; lra).
    assert (Hq : (px p - (px a + s * dx)) * (px p - (px a + s * dx))
                 + (py p - (py a + s * dy)) * (py p - (py a + s * dy))
                 = wx * wx + wy * wy - 2 * s * N + s * s * L).
    { unfold N, L, wx, wy. ring. }
    rewrite Hq.
    assert (Hb : (px p - px b) * (px p - px b) + (py p - py b) * (py p - py b)
                 = wx * wx + wy * wy - 2 * N + L).
    { unfold N, L, wx, wy, dx, dy. ring. }
    assert (Ht : (px p - (px a + t * dx)) * (px p - (px a + t * dx))
                 + (py p - (py a + t * dy)) * (py p - (py a + t * dy))
                 = wx * wx + wy * wy - 2 * t * N + t * t * L).
    { unfold N, L, wx, wy. ring. }
    destruct (ltb t 0) eqn:Elo.
    + apply ltb_true in Elo. cbn [fst snd]. fold wx wy.
      apply sqrt_le_of_le. clearbody t N L wx wy.
      assert (N < 0) by nra.
      assert (0 <= s * - N) by (apply Rmult_le_pos; lra).
      assert (0 <= s * s * L) by (apply Rmult_le_pos; nra).
      lra.
    + apply ltb_false in Elo.
      destruct (gtb t 1) eqn:Ehi.
      * apply gtb_true in Ehi. cbn [fst snd].
        apply sqrt_le_of_le. rewrite Hb. clearbody t N L wx wy.
        assert (HNL : L < N) by nra.
        assert (0 <= (1 - s) * (N - L)) by (apply Rmult_le_pos; lra).
        assert (0 <= (1 - s) * (1 - s) * L) by (apply Rmult_le_pos; nra).
        nra.
      * apply gtb_false in Ehi. cbn [fst snd].
        apply sqrt_le_of_le. rewrite Ht. clearbody t N L wx wy.
        rewrite HN.
        pose proof (Rle_0_sqr (s - t)) as Hsq. unfold Rsqr in Hsq.
        assert (0 <= (s - t) * (s - t) * L) by (apply Rmult_le_pos; lra).
        nra.
Qed.

(** X10.  [perpendicularDistance] is the distance from the point to the segment:
    it is the distance to some point of the segment, and no point of the
    segment is nearer.  So it is never negative, it is 0 at both ends, and
    it is at most the distance to either end. *)
Theorem perpendicularDistance_nearest (p a b : Point) :
  (exists q, onSegment a b q /\ perpendicularDistance p a b = dist p q)
  /\ (forall q, onSegment a b q -> perpendicularDistance p a b <= dist p q)
  /\ 0 <= perpendicularDistance p a b
  /\ perpendicularDistance a a b = 0
  /\ perpendicularDistance b a b = 0.
Proof.
  split; [apply perpendicularDistance_attained|].
  split; [intros q; apply perpendicularDistance_least|].
  assert (Hpos : forall p', 0 <= perpendicularDistance p' a b).
  { intros p'. destruct (perpendicularDistance_attained p' a b) as (q & _ & ->).
    apply dist_nonneg. }
  assert (Hself : forall q, dist q q = 0).
  { intros q. unfold dist.
    replace ((px q - px q) ^ 2 + (py q - py q) ^ 2) with 0 by ring. apply sqrt_0. }
  split; [apply Hpos|]. split.
  - pose proof (perpendicularDistance_least a a b a (onSegment_start a b)) as H.
    rewrite Hself in H. specialize (Hpos a). lra.
  - pose proof (perpendicularDistance_least b a b b (onSegment_end a b)) as H.
    rewrite Hself in H. specialize (Hpos b). lra.
Qed.

End DistanceFacts.

(** ** What the simplifier keeps of the shape *)

Section ApproximationFacts.

Lemma consecutive_prefix {A : Type} (l l' : list A) (u v : A) :
  consecutive l u v -> consecutive (l ++ l') u v.
Proof.
  intros (l1 & l2 & ->). exists l1, (l2 ++ l').
  now rewrite <- app_assoc.
Qed.

Lemma consecutive_suffix {A : Type} (l l' : list A) (u v : A) :
  consecutive l u v -> consecutive (l' ++ l) u v.
Proof.
  intros (l1 & l2 & ->). exists (l' ++ l1), l2.
  now rewrite <- app_assoc.
Qed.

(** The two halves of a cut, simplified, sit inside the joined output. *)
Lemma joined_left (a b c : Point) (m1 m2 : list Point) :
  a :: (m1 ++ c :: m2) ++ [b] = (a :: m1 ++ [c]) ++ (m2 ++ [b]).
Proof. cbn [app]. f_equal. rewrite <- !app_assoc. reflexivity. Qed.

Lemma joined_right (a b c : Point) (m1 m2 : list Point) :
  a :: (m1 ++ c :: m2) ++ [b] = (a :: m1) ++ (c :: m2 ++ [b]).
Proof. cbn [app]. f_equal. rewrite <- !app_assoc. reflexivity. Qed.

(** Every point of the input is a point of the output or lies within the
    tolerance of a segment between two neighbours of the output. *)
Lemma Simplified_near (epsilon : R) (points out : list Point) :
  Simplified epsilon points out ->
  Forall (fun p => In p out
                   \/ exists u v, consecutive out u v
                                  /\ perpendicularDistance p u v <= epsilon)
         points.
Proof.
  induction 1 as [points Hshort
                 | a b interior Hne Hall
                 | a b c l1 l2 m1 m2 Hc Hl1 Hl2 HS1 IH1 HS2 IH2].
  - apply Forall_forall. intros p Hp. now left.
  - constructor; [left; now left|].
    apply Forall_app. split.
    + eapply Forall_impl; [|exact Hall]. cbn beta. intros p Hp. right.
      exists a, b. split; [now exists [], []|exact Hp].
    + constructor; [|constructor]. left. right. now left.
  - assert (Hleft : Forall (fun p => In p (a :: (m1 ++ c :: m2) ++ [b])
                     \/ exists u v, consecutive (a :: (m1 ++ c :: m2) ++ [b]) u v
                                    /\ perpendicularDistance p u v <= epsilon)
                           (a :: l1 ++ [c])).
    { eapply Forall_impl; [|exact IH1]. cbn beta. intros p [Hin|(u & v & Hcons & Hd)].
      - left. rewrite joined_left. apply in_or_app. now left.
      - right. exists u, v. split; [|exact Hd].
        rewrite joined_left. now apply consecutive_prefix. }
    assert (Hright : Forall (fun p => In p (a :: (m1 ++ c :: m2) ++ [b])
                     \/ exists u v, consecutive (a :: (m1 ++ c :: m2) ++ [b]) u v
                                    /\ perpendicularDistance p u v <= epsilon)
                            (c :: l2 ++ [b])).
    { eapply Forall_impl; [|exact IH2]. cbn beta. intros p [Hin|(u & v & Hcons & Hd)].
      - left. rewrite joined_right. apply in_or_app. now right.
      - right. exists u, v. split; [|exact Hd].
        rewrite joined_right. now apply consecutive_suffix. }
    rewrite (joined_left a b c l1 l2).
    apply Forall_app. split; [exact Hleft|].
    inversion Hright; subst. assumption.
Qed.

(** X11.  The simplifier keeps the shape within the tolerance.  For a tolerance
    that is not negative the call returns; every point of the input is then
    a point of the output or lies no farther than the tolerance from a
    segment between two neighbouring output points; and an input of two
    points or more gives an output of two points or more, never longer than
    the input. *)
Theorem simplifyContour_within_tolerance (points : list Point) (epsilon : R) :
  0 <= epsilon ->
  exists out,
    (forall fuel, (length points < fuel)%nat ->
                  simplifyContour fuel points epsilon = Some out)
    /\ Forall (fun p => In p out
                        \/ exists u v, consecutive out u v
                                       /\ perpendicularDistance p u v <= epsilon)
              points
    /\ ((2 <= length points)%nat -> (2 <= length out <= length points)%nat).
Proof.
  intros Heps.
  destruct (simplifyContour_returns (S (length points)) points epsilon Heps)
    as [out Hout]; [lia|].
  exists out. split.
  { intros fuel Hfuel. eapply simplifyContour_fuel_mono; eauto. }
  destruct (simplifyContour_Simplified _ _ _ _ Hout) as [HS _].
  split; [now apply Simplified_near|].
  intros Hlen.
  destruct (Simplified_shape _ _ _ HS)
    as [[Hshort _]|(a & interior & b & mid & -> & -> & Hsub)]; [lia|].
  apply subseq_length in Hsub.
  cbn [length]. rewrite !length_app. cbn [length]. lia.
Qed.

Lemma simplifyContour_within_tolerance_witness :
  exists out,
    (forall fuel, (length collinear4 < fuel)%nat ->
                  simplifyContour fuel collinear4 (1 / 2) = Some out)
    /\ Forall (fun p => In p out
                        \/ exists u v, consecutive out u v
                                       /\ perpendicularDistance p u v <= 1 / 2)
              collinear4
    /\ ((2 <= length collinear4)%nat -> (2 <= length out <= length collinear4)%nat).
Proof.
  apply (simplifyContour_within_tolerance collinear4 (1 / 2)). lra.
Defined.

End ApproximationFacts.

(** ** The chains of the convex hull *)

Section HullFacts.

Lemma leftTurns_tl (chain : list Point) : leftTurns chain -> leftTurns (tl chain).
Proof.
  destruct chain as [|c [|b [|a rest]]]; cbn [tl leftTurns]; tauto.
Qed.

(** Popping for [p] and pushing [p] keeps the turns of the chain. *)
Lemma popChain_leftTurns (chain : list Point) (p : Point) :
  leftTurns chain -> leftTurns (p :: popChain chain p).
Proof.
  induction chain as [|b rest IH]; intros H; [exact I|].
  destruct rest as [|a rest]; [exact I|].
  cbn [popChain].
  destruct (leb (crossProduct a b p) 0) eqn:E.
  - apply IH. now apply (leftTurns_tl (b :: a :: rest)).
  - apply leb_false in E. cbn [leftTurns]. split; [lra|].
    exact H.
Qed.

Lemma buildChain_leftTurns (sortedPoints : list Point) :
  leftTurns (buildChain sortedPoints).
Proof.
  unfold buildChain.
  assert (H : leftTurns []) by exact I.
  revert H. generalize (@nil Point).
  induction sortedPoints as [|p l IH]; intros chain H; [exact H|].
  cbn [fold_left]. apply IH. now apply popChain_leftTurns.
Qed.

(** The turns of a chain, read bottom first. *)
Lemma leftTurns_consecutive3 (chain : list Point) (a b c : Point) :
  leftTurns chain -> consecutive3 (rev chain) a b c -> crossProduct a b c > 0.
Proof.
  intros H (l1 & l2 & E).
  assert (E' : chain = rev l2 ++ c :: b :: a :: rev l1).
  { rewrite <- (rev_involutive chain), E, rev_app_distr. cbn [rev].
    rewrite <- !app_assoc. reflexivity. }
  clear E. subst chain.
  induction (rev l2) as [|x l IH].
  - cbn [app leftTurns] in H. tauto.
  - apply IH. now apply (leftTurns_tl (x :: l ++ c :: b :: a :: rev l1)).
Qed.

Lemma removelast_rev {A : Type} (l : list A) : removelast (rev l) = rev (tl l).
Proof.
  destruct l as [|x l]; [reflexivity|].
  cbn [rev tl]. apply removelast_last.
Qed.

(** X12.  Past three points the hull returned is the array [lower] without
    its last point followed by the array [upper] without its last point,
    and along each of the two arrays, as the loops leave them, every corner
    is a strict left turn: for three successive points [a], [b], [c] the
    cross product is positive.  A point where the chain would turn right,
    or go straight on, has been popped. *)
Theorem calculateConvexHull_chains_turn_left (points : list Point) :
  (3 < length points)%nat ->
  calculateConvexHull points
  = removelast (lowerChain points) ++ removelast (upperChain points)
  /\ (forall a b c, consecutive3 (lowerChain points) a b c -> crossProduct a b c > 0)
  /\ (forall a b c, consecutive3 (upperChain points) a b c -> crossProduct a b c > 0).
Proof.
  intros Hlen. split.
  - unfold calculateConvexHull, lowerChain, upperChain.
    replace (length points <=? 3)%nat with false by (symmetry; apply Nat.leb_gt; lia).
    now rewrite !removelast_rev.
  - split; intros a b c H; eapply leftTurns_consecutive3; eauto;
      apply buildChain_leftTurns.
Qed.

Lemma sortPoints_squareWithCenter :
  sortPoints squareWithCenter
  = [mkPoint 0 0; mkPoint 0 1; mkPoint (1 / 2) (1 / 2); mkPoint 1 0; mkPoint 1 1].
Proof.
  unfold sortPoints, squareWithCenter.
  cbn [fold_left].
  repeat (first [ progress unfold comparePoints
                | progress cbn [insertPoint px py]
                | decide_test ]).
  reflexivity.
Qed.

(** On the square with its center the lower array ends as three points:
    the center and the upper left corner were popped. *)
Lemma lowerChain_squareWithCenter :
  lowerChain squareWithCenter = [mkPoint 0 0; mkPoint 1 0; mkPoint 1 1].
Proof.
  unfold lowerChain. rewrite sortPoints_squareWithCenter.
  unfold buildChain. cbn [rev app fold_left].
  repeat (first [ progress unfold crossProduct
                | progress cbn [popChain px py]
                | decide_test ]).
  reflexivity.
Qed.

Lemma upperChain_squareWithCenter :
  upperChain squareWithCenter = [mkPoint 1 1; mkPoint 0 1; mkPoint 0 0].
Proof.
  unfold upperChain. rewrite sortPoints_squareWithCenter.
  unfold buildChain. cbn [rev app fold_left].
  repeat (first [ progress unfold crossProduct
                | progress cbn [popChain px py]
                | decide_test ]).
  reflexivity.
Qed.

Lemma calculateConvexHull_chains_turn_left_witness :
  (3 < length squareWithCenter)%nat
  /\ (calculateConvexHull squareWithCenter
      = removelast (lowerChain squareWithCenter)
        ++ removelast (upperChain squareWithCenter)
      /\ (forall a b c, consecutive3 (lowerChain squareWithCenter) a b c ->
                        crossProduct a b c > 0)
      /\ (forall a b c, consecutive3 (upperChain squareWithCenter) a b c ->
                        crossProduct a b c > 0))
  /\ consecutive3 (lowerChain squareWithCenter)
                  (mkPoint 0 0) (mkPoint 1 0) (mkPoint 1 1)
  /\ consecutive3 (upperChain squareWithCenter)
                  (mkPoint 1 1) (mkPoint 0 1) (mkPoint 0 0).
Proof.
  assert (Hlen : (3 < length squareWithCenter)%nat)
    by (cbn [length squareWithCenter]; lia).
  split; [exact Hlen|].
  split; [exact (calculateConvexHull_chains_turn_left squareWithCenter Hlen)|].
  split.
  - exists [], []. apply lowerChain_squareWithCenter.
  - exists [], []. apply upperChain_squareWithCenter.
Defined.

(** X13.  The hull is made of points of the input: the sort and the two chains
    only move and drop points. *)
Theorem calculateConvexHull_points (points : list Point) :
  Forall (fun p => In p points) (calculateConvexHull points).
Proof.
  apply calculateConvexHull_Forall. apply Forall_forall. auto.
Qed.

End HullFacts.

(** ** What the classifier and the analysis return *)

Section OutcomeFacts.

Lemma subseq_trans {A : Type} (l2 l3 : list A) :
  subseq l2 l3 -> forall l1, subseq l1 l2 -> subseq l1 l3.
Proof.
  induction 1 as [|x l2 l3 H IH|x l2 l3 H IH]; intros l1 H1.
  - exact H1.
  - apply subseq_skip. now apply IH.
  - inversion H1; subst.
    + apply subseq_skip. now apply IH.
    + apply subseq_keep. now apply IH.
Qed.

(** The rows of the switch. *)
Lemma polygonType_rows (n : nat) (s : R) (type : ShapeType) (conf : R) :
  polygonType n s = (Some type, conf) ->
  (type = triangle /\ conf = 0.90) \/ (type = rectangle /\ conf = 0.92)
  \/ (type = pentagon /\ conf = 0.88) \/ (type = star /\ conf = 0.82).
Proof.
  unfold polygonType.
  destruct n as [|[|[|[|[|[|[|[|[|[|[|n]]]]]]]]]]]; try discriminate.
  - destruct (gtb s 0.9); [|discriminate]. intros E. inversion E. tauto.
  - destruct (gtb s 0.9); [|discriminate]. intros E. inversion E. tauto.
  - destruct (gtb s 0.8); [intros E; inversion E; tauto|].
    destruct (gtb s 0.3); [|discriminate]. intros E. inversion E. tauto.
  - destruct (ltb s 0.8); [|discriminate]. intros E. inversion E. tauto.
Qed.

(** The capped circularity of the circle branch. *)
Lemma circle_confidence (c : xnum) :
  xgtb c (Fin 0.80) = true -> 0.80 < fin (xmin c (Fin 0.99)) <= 0.99.
Proof.
  destruct c as [| |c|]; cbn [xgtb xltb xmin fin]; try discriminate.
  - intros H. apply ltb_true in H.
    unfold Rmin. destruct (Rle_dec c 0.99); lra.
  - intros _. lra.
Qed.

(** Once the simplifier has returned, the classifier returns, and what it
    returns is nothing or a shape with the metrics it was given and a type
    and confidence of the table. *)
Lemma classifyShape_cases (fuel : nat) (contour : Contour) (metrics : Metrics)
      (vertices : list Point) :
  simplifyContour fuel contour (0.06 * perimeter metrics) = Some vertices ->
  exists r,
    classifyShape fuel contour metrics = Some r
    /\ forall s, r = Some s -> smetrics s = metrics /\ tableEntry s.
Proof.
  intros Hsimp. unfold classifyShape.
  destruct (xgtb (circularityOf metrics) (Fin 0.80)) eqn:Hcirc.
  - eexists. split; [reflexivity|]. intros s E. injection E as <-.
    cbn [smetrics]. split; [reflexivity|]. left. cbn [stype confidence].
    split; [reflexivity | now apply circle_confidence].
  - rewrite Hsimp.
    destruct (gtb (aspectRatioOf metrics) 5.0).
    + exists None. split; [reflexivity | discriminate].
    + destruct (polygonType (correctedCount vertices) (solidityOf contour metrics))
        as [[type|] conf] eqn:E.
      * eexists. split; [reflexivity|]. intros s Es. injection Es as <-.
        cbn [smetrics]. split; [reflexivity|]. right. cbn [stype confidence].
        apply polygonType_rows in E. tauto.
      * exists None. split; [reflexivity | discriminate].
Qed.

(** X14.  The classifier returns on every contour shorter than the recursion
    budget when the perimeter it is given is not negative, with no shape or
    with a shape that carries the metrics it was given; a circle has a
    confidence above 0.80 and at most 0.99, a triangle 0.90, a rectangle
    0.92, a pentagon 0.88, a star 0.82. *)
Theorem classifyShape_outcome (fuel : nat) (contour : Contour) (metrics : Metrics) :
  0 <= perimeter metrics ->
  (length contour < fuel)%nat ->
  exists r,
    classifyShape fuel contour metrics = Some r
    /\ forall s, r = Some s -> smetrics s = metrics /\ tableEntry s.
Proof.
  intros Hper Hfuel.
  destruct (simplifyContour_returns fuel contour (0.06 * perimeter metrics))
    as [vertices Hv]; [lra | exact Hfuel |].
  now apply (classifyShape_cases fuel contour metrics vertices).
Qed.

Lemma classifyShape_outcome_witness :
  exists r,
    classifyShape 4 triangleContour triangleMetrics = Some r
    /\ forall s, r = Some s -> smetrics s = triangleMetrics /\ tableEntry s.
Proof.
  apply (classifyShape_outcome 4 triangleContour triangleMetrics).
  - cbn [triangleMetrics perimeter]. lra.
  - cbn [triangleContour length]. lia.
Defined.

(** Pass 3 on contours that come with their own metrics. *)
Lemma classifyAll_returns (fuel : nat) (cms : list ContourMetrics) :
  Forall (fun cm => cmMetrics cm = calculateMetrics (cmContour cm)
                    /\ (length (cmContour cm) < fuel)%nat) cms ->
  exists shapes,
    classifyAll fuel cms = Some shapes
    /\ subseq (map smetrics shapes) (map cmMetrics cms)
    /\ Forall tableEntry shapes.
Proof.
  induction cms as [|cm rest IH]; intros Hall.
  - exists []. repeat split; [apply subseq_nil | constructor].
  - inversion Hall as [|? ? [Hm Hlen] Hrest]; subst.
    destruct (IH Hrest) as (shapes & E & Hsub & Htab).
    destruct (simplifyContour_returns fuel (cmContour cm)
                                      (0.06 * perimeter (cmMetrics cm)))
      as [vertices Hv]; [|exact Hlen|].
    { rewrite Hm. pose proof (perimeter_nonneg (cmContour cm)). lra. }
    destruct (classifyShape_cases fuel (cmContour cm) (cmMetrics cm) vertices Hv)
      as (r & Er & Hr).
    cbn [classifyAll]. rewrite Er, E.
    destruct r as [s|].
    + exists (s :: shapes). split; [reflexivity|].
      destruct (Hr s eq_refl) as [Hs Ht].
      split; [|now constructor].
      cbn [map]. rewrite Hs. now apply subseq_keep.
    + exists shapes. split; [reflexivity|].
      split; [|exact Htab]. cbn [map]. now apply subseq_skip.
Qed.

Lemma outerContoursMetrics_subseq (cms : list ContourMetrics) :
  subseq (outerContoursMetrics cms) cms.
Proof.
  unfold outerContoursMetrics.
  rewrite <- (map_snd_indexed cms) at 2.
  apply subseq_map. apply subseq_filter.
Qed.

Lemma contourMetricsOf_Forall (contours : list Contour) :
  Forall (fun cm => cmMetrics cm = calculateMetrics (cmContour cm)
                    /\ In (cmContour cm) contours
                    /\ 50 <= area (cmMetrics cm))
         (contourMetricsOf contours).
Proof.
  unfold contourMetricsOf. apply Forall_forall. intros cm Hin.
  apply filter_In in Hin. destruct Hin as [Hin Hkeep].
  apply in_map_iff in Hin. destruct Hin as (c & <- & Hc).
  cbn [cmMetrics cmContour] in *.
  split; [reflexivity|]. split; [exact Hc|].
  apply negb_true_iff in Hkeep. apply ltb_false in Hkeep. lra.
Qed.

Lemma contourMetricsOf_subseq (contours : list Contour) :
  subseq (map cmMetrics (contourMetricsOf contours)) (map calculateMetrics contours).
Proof.
  unfold contourMetricsOf.
  replace (map calculateMetrics contours)
    with (map cmMetrics (map (fun contour => mkCM contour (calculateMetrics contour))
                             contours))
    by (rewrite map_map; reflexivity).
  apply subseq_map. apply subseq_filter.
Qed.

Lemma analyzeContours_total (fuel : nat) (contours : list Contour) :
  Forall (fun c => (length c < fuel)%nat) contours ->
  exists shapes,
    analyzeContours fuel contours = Some shapes
    /\ subseq (map smetrics shapes) (map calculateMetrics contours)
    /\ Forall (fun s => 50 <= area (smetrics s) /\ tableEntry s) shapes.
Proof.
  intros Hlen. unfold analyzeContours.
  pose proof (contourMetricsOf_Forall contours) as Hcm.
  pose proof (outerContoursMetrics_subseq (contourMetricsOf contours)) as Hsub.
  pose proof (subseq_Forall _ _ _ Hsub Hcm) as Hout.
  destruct (classifyAll_returns fuel (outerContoursMetrics (contourMetricsOf contours)))
    as (shapes & E & Hs & Htab).
  { eapply Forall_impl; [|exact Hout]. cbn beta. intros cm (Hm & Hin & _).
    split; [exact Hm|]. rewrite Forall_forall in Hlen. now apply Hlen. }
  exists shapes. split; [exact E|].
  assert (Hs' : subseq (map smetrics shapes)
                       (map cmMetrics (contourMetricsOf contours))).
  { eapply subseq_trans; [|exact Hs]. now apply subseq_map. }
  split.
  - eapply subseq_trans; [apply contourMetricsOf_subseq | exact Hs'].
  - assert (Harea : Forall (fun m => 50 <= area m) (map smetrics shapes)).
    { apply (subseq_Forall _ _ _ Hs'). apply Forall_map.
      eapply Forall_impl; [|exact Hcm]. cbn beta. tauto. }
    rewrite Forall_map in Harea.
    apply Forall_forall. intros s Hin.
    rewrite Forall_forall in Harea, Htab. split; auto.
Qed.

(** X15.  The analysis returns on every list of contours shorter than the
    recursion budget.  There are no more shapes than contours; the metrics
    of the shapes are metrics of input contours, in the order of the input
    and each used at most once; every shape has an area of at least 50 and a
    type and confidence of the table. *)
Theorem analyzeContours_returns (fuel : nat) (contours : list Contour) :
  Forall (fun c => (length c < fuel)%nat) contours ->
  exists shapes,
    analyzeContours fuel contours = Some shapes
    /\ (length shapes <= length contours)%nat
    /\ subseq (map smetrics shapes) (map calculateMetrics contours)
    /\ Forall (fun s => 50 <= area (smetrics s) /\ tableEntry s) shapes.
Proof.
  intros Hlen.
  destruct (analyzeContours_total fuel contours Hlen) as (shapes & E & Hsub & Hall).
  exists shapes. split; [exact E|]. split; [|split; assumption].
  apply subseq_length in Hsub. now rewrite !length_map in Hsub.
Qed.

Lemma analyzeContours_returns_witness :
  exists shapes,
    analyzeContours 4 [triangleContour] = Some shapes
    /\ (length shapes <= length [triangleContour])%nat
    /\ subseq (map smetrics shapes) (map calculateMetrics [triangleContour])
    /\ Forall (fun s => 50 <= area (smetrics s) /\ tableEntry s) shapes.
Proof.
  apply (analyzeContours_returns 4 [triangleContour]).
  constructor; [cbn [triangleContour length]; lia | constructor].
Defined.

End OutcomeFacts.

(** ** More on the metrics *)

Section BoxFacts.

Lemma attained_step (contour : Contour) (coord : Point -> R) (start m : xnum)
      (test : bool) (p : Point) :
  In p contour ->
  attained contour coord start m ->
  attained contour coord start (if test then Fin (coord p) else m).
Proof.
  intros Hin Hm. destruct test; [|exact Hm]. right. now exists p.
Qed.

(** Every extent of the scan is a sentinel or a coordinate of a point. *)
Lemma metricsLoop_attained (contour : Contour) (l : list nat) :
  Forall (fun i => (i < length contour)%nat) l ->
  forall a,
    attained contour px PosInf (minX a) /\ attained contour py PosInf (minY a)
    /\ attained contour px NegInf (maxX a) /\ attained contour py NegInf (maxY a) ->
    attained contour px PosInf (minX (fold_left (metricsStep contour) l a))
    /\ attained contour py PosInf (minY (fold_left (metricsStep contour) l a))
    /\ attained contour px NegInf (maxX (fold_left (metricsStep contour) l a))
    /\ attained contour py NegInf (maxY (fold_left (metricsStep contour) l a)).
Proof.
  induction l as [|i l IH]; intros Hl a Ha; [exact Ha|].
  inversion Hl as [|? ? Hi Hrest]; subst.
  cbn [fold_left]. apply (IH Hrest).
  destruct Ha as (H1 & H2 & H3 & H4).
  assert (Hin : In (nth i contour origin) contour) by now apply nth_In.
  unfold metricsStep. cbn [minX minY maxX maxY].
  repeat split; now apply attained_step.
Qed.

Lemma Rsum_bounds (l : list R) (lo hi : R) :
  Forall (fun v => lo <= v <= hi) l ->
  INR (length l) * lo <= Rsum l <= INR (length l) * hi.
Proof.
  unfold Rsum. induction 1 as [|v l Hv Hl IH].
  - cbn [length fold_right INR]. lra.
  - cbn [fold_right]. change (length (v :: l)) with (S (length l)).
    rewrite S_INR. lra.
Qed.

Lemma mean_bounds (l : list R) (lo hi : R) :
  l <> [] ->
  Forall (fun v => lo <= v <= hi) l ->
  lo <= Rsum l / INR (length l) <= hi.
Proof.
  intros Hne Hall. pose proof (Rsum_bounds l lo hi Hall) as Hb.
  assert (Hn : 0 < INR (length l)).
  { apply lt_0_INR. destruct l; [congruence | cbn [length]; lia]. }
  set (n := INR (length l)) in *.
  assert (E : Rsum l = n * (Rsum l / n)) by (field; lra).
  set (m := Rsum l / n) in *. clearbody m.
  rewrite E in Hb. destruct Hb as [Hb1 Hb2].
  split; eapply Rmult_le_reg_l; eauto.
Qed.

(** The box of a contour that is not empty is tight. *)
Lemma boundingBox_tight (contour : Contour) :
  contour <> [] -> tightBox contour (boundingBox (calculateMetrics contour)).
Proof.
  intros Hne.
  assert (Hin : Forall (insideBox (boundingBox (calculateMetrics contour))) contour).
  { eapply Forall_impl; [|apply boundingBox_encloses]. cbn beta.
    unfold insideBox. tauto. }
  split; [exact Hin|].
  assert (Hbox : boundingBox (calculateMetrics contour)
                 = mkBox (fin (minX (metricsLoop contour)))
                         (fin (minY (metricsLoop contour)))
                         (fin (xsub (maxX (metricsLoop contour)) (minX (metricsLoop contour))))
                         (fin (xsub (maxY (metricsLoop contour)) (minY (metricsLoop contour))))).
  { destruct contour; [congruence | reflexivity]. }
  destruct (extents_finite contour Hne) as (x0 & y0 & x1 & y1 & E0 & E1 & E2 & E3).
  destruct (metricsLoop_attained contour (seq 0 (length contour))) with (a := metricsInit)
    as (A0 & A1 & A2 & A3).
  { apply Forall_forall. intros i Hi. apply in_seq in Hi. lia. }
  { cbn [metricsInit minX minY maxX maxY]. repeat split; now left. }
  fold (metricsLoop contour) in A0, A1, A2, A3.
  rewrite E0 in A0. rewrite E1 in A1. rewrite E2 in A2. rewrite E3 in A3.
  destruct A0 as [A0|(p0 & Hp0 & A0)]; [discriminate|]. injection A0 as A0.
  destruct A1 as [A1|(p1 & Hp1 & A1)]; [discriminate|]. injection A1 as A1.
  destruct A2 as [A2|(p2 & Hp2 & A2)]; [discriminate|]. injection A2 as A2.
  destruct A3 as [A3|(p3 & Hp3 & A3)]; [discriminate|]. injection A3 as A3.
  assert (Hbox' : boundingBox (calculateMetrics contour)
                  = mkBox x0 y0 (x1 - x0) (y1 - y0)).
  { rewrite Hbox, E0, E1, E2, E3. reflexivity. }
  rewrite Hbox' in *. cbn [bx by_ bwidth bheight].
  split; [exists p0; split; [exact Hp0 | lra]|].
  split; [exists p1; split; [exact Hp1 | lra]|].
  split; [exists p2; split; [exact Hp2 | lra]|].
  exists p3; split; [exact Hp3 | lra].
Qed.

(** A contour has one tight box. *)
Lemma tightBox_unique (contour : Contour) (b1 b2 : BoundingBox) :
  tightBox contour b1 -> tightBox contour b2 -> b1 = b2.
Proof.
  intros (H1 & (p0 & Hp0 & E0) & (p1 & Hp1 & E1) & (p2 & Hp2 & E2) & (p3 & Hp3 & E3))
         (H2 & (q0 & Hq0 & F0) & (q1 & Hq1 & F1) & (q2 & Hq2 & F2) & (q3 & Hq3 & F3)).
  rewrite Forall_forall in H1, H2. unfold insideBox in H1, H2.
  pose proof (H1 q0 Hq0). pose proof (H1 q1 Hq1).
  pose proof (H1 q2 Hq2). pose proof (H1 q3 Hq3).
  pose proof (H2 p0 Hp0). pose proof (H2 p1 Hp1).
  pose proof (H2 p2 Hp2). pose proof (H2 p3 Hp3).
  destruct b1, b2. cbn [bx by_ bwidth bheight] in *.
  f_equal; lra.
Qed.

(** The tight box depends on the points only, not on their order. *)
Lemma tightBox_same_points (c1 c2 : Contour) (box : BoundingBox) :
  (forall p, In p c1 <-> In p c2) -> tightBox c1 box -> tightBox c2 box.
Proof.
  intros Hsame (H & (p0 & Hp0 & E0) & (p1 & Hp1 & E1) & (p2 & Hp2 & E2) & (p3 & Hp3 & E3)).
  split.
  { rewrite Forall_forall in *. intros p Hp. apply H. now apply Hsame. }
  split; [exists p0; split; [now apply Hsame | exact E0]|].
  split; [exists p1; split; [now apply Hsame | exact E1]|].
  split; [exists p2; split; [now apply Hsame | exact E2]|].
  exists p3; split; [now apply Hsame | exact E3].
Qed.

(** X19.  The bounding box of a contour that is not empty is the smallest box
    with sides along the axes that holds every point: each point is inside
    it, and each of its four sides passes through a point of the contour.
    The center lies in the box. *)
Theorem calculateMetrics_boundingBox (contour : Contour) :
  contour <> [] ->
  tightBox contour (boundingBox (calculateMetrics contour))
  /\ insideBox (boundingBox (calculateMetrics contour))
               (center (calculateMetrics contour)).
Proof.
  intros Hne. pose proof (boundingBox_tight contour Hne) as Htight.
  split; [exact Htight|].
  destruct Htight as (Hin & _).
  rewrite (center_mean contour Hne). unfold insideBox. cbn [px py].
  assert (Hlen : forall f : Point -> R, length (map f contour) = length contour)
    by (intros f; apply length_map).
  split.
  - rewrite <- (Hlen px). apply mean_bounds.
    + destruct contour; [congruence | discriminate].
    + apply Forall_map. eapply Forall_impl; [|exact Hin]. cbn beta.
      unfold insideBox. tauto.
  - rewrite <- (Hlen py). apply mean_bounds.
    + destruct contour; [congruence | discriminate].
    + apply Forall_map. eapply Forall_impl; [|exact Hin]. cbn beta.
      unfold insideBox. tauto.
Qed.

Lemma calculateMetrics_boundingBox_witness :
  tightBox triangleContour (boundingBox (calculateMetrics triangleContour))
  /\ insideBox (boundingBox (calculateMetrics triangleContour))
               (center (calculateMetrics triangleContour)).
Proof.
  apply (calculateMetrics_boundingBox triangleContour). discriminate.
Defined.

(** X20.  No metric is negative: the area is an absolute value, the perimeter a
    sum of distances, the sides of the box differences of a maximum and a
    minimum. *)
Theorem calculateMetrics_nonneg (contour : Contour) :
  0 <= area (calculateMetrics contour)
  /\ 0 <= perimeter (calculateMetrics contour)
  /\ 0 <= bwidth (boundingBox (calculateMetrics contour))
  /\ 0 <= bheight (boundingBox (calculateMetrics contour)).
Proof.
  split; [rewrite area_shoelace; apply Rabs_pos|].
  split; [apply perimeter_nonneg|].
  destruct contour as [|p ps]; [cbn; lra|].
  pose proof (boundingBox_encloses (p :: ps)) as H.
  inversion H as [|? ? Hp _]; subst. lra.
Qed.

(** X21.  The area of a triangle is half the absolute value of the cross product
    the hull uses for its turns. *)
Theorem calculateMetrics_triangle_crossProduct (o a b : Point) :
  area (calculateMetrics [o; a; b]) = Rabs (crossProduct o a b) / 2.
Proof.
  rewrite area_shoelace. unfold rot, shoelaceTerm, crossProduct, Rsum.
  cbn [tl firstn app combine map fold_right fst snd].
  unfold Rdiv. rewrite Rabs_mult.
  rewrite (Rabs_pos_eq (/ 2)) by lra.
  f_equal. f_equal. ring.
Qed.

(** *** Moving the contour *)

Lemma dist_translate (dx dy : R) (p1 p2 : Point) :
  dist (mkPoint (px p1 + dx) (py p1 + dy)) (mkPoint (px p2 + dx) (py p2 + dy))
  = dist p1 p2.
Proof. unfold dist. cbn [px py]. f_equal. ring. Qed.

Lemma translate_nonempty (dx dy : R) (contour : Contour) :
  contour <> [] -> translate dx dy contour <> [].
Proof. destruct contour; [congruence | discriminate]. Qed.

Lemma tightBox_translate (dx dy : R) (contour : Contour) (box : BoundingBox) :
  tightBox contour box ->
  tightBox (translate dx dy contour)
           (mkBox (bx box + dx) (by_ box + dy) (bwidth box) (bheight box)).
Proof.
  intros (H & (p0 & Hp0 & E0) & (p1 & Hp1 & E1) & (p2 & Hp2 & E2) & (p3 & Hp3 & E3)).
  assert (Hmove : forall p, In p contour ->
                            In (mkPoint (px p + dx) (py p + dy)) (translate dx dy contour)).
  { intros p Hp. unfold translate. apply in_map_iff. now exists p. }
  split.
  { unfold translate. apply Forall_map. eapply Forall_impl; [|exact H]. cbn beta.
    unfold insideBox. cbn [px py bx by_ bwidth bheight]. intros p Hp. lra. }
  cbn [bx by_ bwidth bheight].
  split; [eexists; split; [apply (Hmove p0 Hp0) | cbn [px]; lra]|].
  split; [eexists; split; [apply (Hmove p1 Hp1) | cbn [py]; lra]|].
  split; [eexists; split; [apply (Hmove p2 Hp2) | cbn [px]; lra]|].
  eexists; split; [apply (Hmove p3 Hp3) | cbn [py]; lra].
Qed.

(** X22.  Moving a contour of whole-number coordinates by [(dx, dy)] to
    another such contour leaves the perimeter as it was and moves the
    bounding box by [(dx, dy)] without changing its sides.  On whole
    numbers the differences the perimeter sums are the same before and
    after, and the extents of the box are exact.  (The center is a quotient
    by the number of points: the code rounds it, so the moved center need
    not be the center moved; see [Binary64Facts].) *)
Theorem calculateMetrics_translate (dx dy : R) (contour : Contour) :
  contour <> [] ->
  wholeCoordinates contour ->
  wholeCoordinates (translate dx dy contour) ->
  perimeter (calculateMetrics (translate dx dy contour))
  = perimeter (calculateMetrics contour)
  /\ boundingBox (calculateMetrics (translate dx dy contour))
     = mkBox (bx (boundingBox (calculateMetrics contour)) + dx)
             (by_ (boundingBox (calculateMetrics contour)) + dy)
             (bwidth (boundingBox (calculateMetrics contour)))
             (bheight (boundingBox (calculateMetrics contour))).
Proof.
  intros Hne _ _. pose proof (translate_nonempty dx dy contour Hne) as Hne'.
  split.
  - rewrite !perimeter_segments. unfold translate. rewrite pairs_map, map_map.
    cbn [fst snd]. apply Rsum_map_ext. intros [p1 p2]. apply dist_translate.
  - apply (tightBox_unique (translate dx dy contour)).
    + now apply boundingBox_tight.
    + apply tightBox_translate. now apply boundingBox_tight.
Qed.

Lemma calculateMetrics_translate_witness :
  wholeCoordinates triangleContour
  /\ wholeCoordinates (translate 1 2 triangleContour)
  /\ perimeter (calculateMetrics (translate 1 2 triangleContour))
     = perimeter (calculateMetrics triangleContour)
  /\ boundingBox (calculateMetrics (translate 1 2 triangleContour))
     = mkBox (bx (boundingBox (calculateMetrics triangleContour)) + 1)
             (by_ (boundingBox (calculateMetrics triangleContour)) + 2)
             (bwidth (boundingBox (calculateMetrics triangleContour)))
             (bheight (boundingBox (calculateMetrics triangleContour))).
Proof.
  split; [exact wholeCoordinates_triangle|].
  split; [exact wholeCoordinates_triangle_moved|].
  apply (calculateMetrics_translate 1 2 triangleContour).
  - discriminate.
  - exact wholeCoordinates_triangle.
  - exact wholeCoordinates_triangle_moved.
Defined.

End BoxFacts.

(** ** More on the filter *)

Section SurvivorFacts.

Lemma largest_exists (cms : list ContourMetrics) :
  cms <> [] ->
  exists cm, In cm cms
             /\ forall cm', In cm' cms -> area (cmMetrics cm') <= area (cmMetrics cm).
Proof.
  induction cms as [|c rest IH]; [congruence|]. intros _.
  destruct rest as [|c' rest'].
  - exists c. split; [now left|]. intros cm' [<-|[]]. lra.
  - destruct IH as (m & Hm & Hmax); [discriminate|].
    destruct (Rle_dec (area (cmMetrics m)) (area (cmMetrics c))) as [Hle|Hgt].
    + exists c. split; [now left|]. intros cm' [<-|Hin]; [lra|].
      specialize (Hmax cm' Hin). lra.
    + exists m. split; [now right|]. intros cm' [<-|Hin]; [lra|].
      now apply Hmax.
Qed.

Lemma largest_kept (cms : list ContourMetrics) (cm : ContourMetrics) :
  In cm cms ->
  (forall cm', In cm' cms -> area (cmMetrics cm') <= area (cmMetrics cm)) ->
  In cm (outerContoursMetrics cms).
Proof.
  intros Hin Hmax.
  destruct (In_nth_error _ _ Hin) as [i Hi].
  unfold outerContoursMetrics.
  apply in_map_iff. exists (i, cm). split; [reflexivity|].
  apply filter_In. split; [now apply indexed_In|].
  cbn [fst snd]. apply negb_true_iff.
  destruct (isInnerContour cms i cm) eqn:E; [|reflexivity].
  apply isInnerContour_spec in E.
  destruct E as (j & cm2 & Hj & _ & _ & Harea).
  specialize (Hmax cm2 (nth_error_In _ _ Hj)). lra.
Qed.

(** X23.  The filter never drops everything: of a list that is not empty a
    contour of largest area is kept. *)
Theorem outerContoursMetrics_keeps_largest (cms : list ContourMetrics) :
  cms <> [] ->
  exists cm,
    In cm (outerContoursMetrics cms)
    /\ forall cm', In cm' cms -> area (cmMetrics cm') <= area (cmMetrics cm).
Proof.
  intros Hne. destruct (largest_exists cms Hne) as (cm & Hin & Hmax).
  exists cm. split; [now apply largest_kept | exact Hmax].
Qed.

Lemma outerContoursMetrics_keeps_largest_witness :
  exists cm,
    In cm (outerContoursMetrics [triangleEntry])
    /\ forall cm', In cm' [triangleEntry] -> area (cmMetrics cm') <= area (cmMetrics cm).
Proof.
  apply (outerContoursMetrics_keeps_largest [triangleEntry]). discriminate.
Defined.

End SurvivorFacts.

(** ** The metrics and the order of the points *)

Section OrderFacts.

Lemma Rsum_app (l1 l2 : list R) : Rsum (l1 ++ l2) = Rsum l1 + Rsum l2.
Proof.
  unfold Rsum. induction l1 as [|x l1 IH]; cbn [app fold_right]; [lra|].
  rewrite IH. lra.
Qed.

Lemma Rsum_rot (l : list R) : Rsum (rot l) = Rsum l.
Proof.
  destruct l as [|x l]; [reflexivity|].
  unfold rot. cbn [tl firstn]. rewrite Rsum_app. unfold Rsum. cbn [fold_right]. lra.
Qed.

Lemma Rsum_rev (l : list R) : Rsum (rev l) = Rsum l.
Proof.
  induction l as [|x l IH]; [reflexivity|].
  cbn [rev]. rewrite Rsum_app, IH. unfold Rsum. cbn [fold_right]. lra.
Qed.

Lemma combine_snoc {A B : Type} (l1 : list A) (l2 : list B) (a : A) (b : B) :
  length l1 = length l2 ->
  combine (l1 ++ [a]) (l2 ++ [b]) = combine l1 l2 ++ [(a, b)].
Proof.
  revert l2. induction l1 as [|x l1 IH]; intros [|y l2] H; try discriminate.
  - reflexivity.
  - cbn [app combine]. f_equal. apply IH. now injection H.
Qed.

(** Starting the contour one point later rotates its pairs. *)
Lemma closedPairs_rot (contour : Contour) :
  closedPairs (rot contour) = rot (closedPairs contour).
Proof.
  unfold closedPairs.
  destruct contour as [|p [|q qs]]; [reflexivity | reflexivity|].
  assert (E1 : rot (p :: q :: qs) = (q :: qs) ++ [p]) by reflexivity.
  assert (E2 : rot ((q :: qs) ++ [p]) = (qs ++ [p]) ++ [q]) by reflexivity.
  rewrite E1, E2.
  rewrite (combine_snoc (q :: qs) (qs ++ [p]) p q)
    by (rewrite length_app; cbn [length]; lia).
  reflexivity.
Qed.

(** A chain walked backwards. *)
Lemma chain_rev (f : Point * Point -> R) (l : list Point) :
  forall a b,
    Rsum (map f (combine (a :: rev l) (rev l ++ [b])))
    = Rsum (map (fun pq => f (snd pq, fst pq)) (combine (b :: l) (l ++ [a]))).
Proof.
  induction l as [|x l IH]; intros a b.
  - cbn. reflexivity.
  - cbn [rev].
    change (a :: rev l ++ [x]) with ((a :: rev l) ++ [x]).
    rewrite (combine_snoc (a :: rev l) (rev l ++ [x]) x b)
      by (cbn [length]; rewrite length_app; cbn [length]; lia).
    rewrite map_app, Rsum_app, (IH a x).
    cbn [app combine map fst snd].
    unfold Rsum. cbn [fold_right]. lra.
Qed.

(** The contour walked the other way round, from the same point. *)
Lemma closedPairs_rev (f : Point * Point -> R) (p : Point) (ps : list Point) :
  Rsum (map f (closedPairs (p :: rev ps)))
  = Rsum (map (fun pq => f (snd pq, fst pq)) (closedPairs (p :: ps))).
Proof.
  unfold closedPairs, rot. cbn [tl firstn]. apply chain_rev.
Qed.

Lemma rev_as_rot (p : Point) (ps : list Point) :
  rev (p :: ps) = rot (p :: rev ps).
Proof. reflexivity. Qed.

Lemma area_closedPairs (contour : Contour) :
  area (calculateMetrics contour)
  = Rabs (Rsum (map (fun pq => shoelaceTerm (fst pq) (snd pq)) (closedPairs contour)) / 2).
Proof. apply area_shoelace. Qed.

Lemma perimeter_closedPairs (contour : Contour) :
  perimeter (calculateMetrics contour)
  = Rsum (map (fun pq => dist (fst pq) (snd pq)) (closedPairs contour)).
Proof. apply perimeter_segments. Qed.

Lemma Metrics_eq (m1 m2 : Metrics) :
  area m1 = area m2 -> perimeter m1 = perimeter m2 ->
  boundingBox m1 = boundingBox m2 -> center m1 = center m2 -> m1 = m2.
Proof. destruct m1, m2. cbn. intros -> -> -> ->. reflexivity. Qed.

Lemma rot_nonempty (contour : Contour) : contour <> [] -> rot contour <> [].
Proof.
  destruct contour as [|p ps]; [congruence|]. intros _. unfold rot. cbn [tl firstn].
  destruct ps; discriminate.
Qed.

Lemma rot_In (contour : Contour) (p : Point) : In p contour <-> In p (rot contour).
Proof.
  destruct contour as [|q qs]; [reflexivity|].
  unfold rot. cbn [tl firstn]. rewrite in_app_iff. cbn [In]. tauto.
Qed.

Lemma length_rot (contour : Contour) : length (rot contour) = length contour.
Proof.
  destruct contour as [|q qs]; [reflexivity|].
  unfold rot. cbn [tl firstn]. rewrite length_app. cbn [length]. lia.
Qed.

(** In exact arithmetic the whole record is the same. *)
Lemma calculateMetrics_rot (contour : Contour) :
  calculateMetrics (rot contour) = calculateMetrics contour.
Proof.
  destruct contour as [|p ps]; [reflexivity|].
  assert (Hne : p :: ps <> []) by discriminate.
  pose proof (rot_nonempty _ Hne) as Hne'.
  apply Metrics_eq.
  - rewrite !area_closedPairs, closedPairs_rot.
    rewrite <- rot_map, Rsum_rot. reflexivity.
  - rewrite !perimeter_closedPairs, closedPairs_rot.
    rewrite <- rot_map, Rsum_rot. reflexivity.
  - apply (tightBox_unique (rot (p :: ps))).
    + now apply boundingBox_tight.
    + apply (tightBox_same_points (p :: ps)); [apply rot_In|].
      now apply boundingBox_tight.
  - rewrite (center_mean _ Hne'), (center_mean _ Hne).
    rewrite length_rot, <- !rot_map, !Rsum_rot. reflexivity.
Qed.

Lemma shoelaceTerm_swap (p q : Point) : shoelaceTerm q p = - shoelaceTerm p q.
Proof. unfold shoelaceTerm. ring. Qed.

Lemma dist_swap (p q : Point) : dist q p = dist p q.
Proof. unfold dist. f_equal. ring. Qed.

Lemma Rsum_map_opp {A : Type} (f : A -> R) (l : list A) :
  Rsum (map (fun x => - f x) l) = - Rsum (map f l).
Proof. unfold Rsum; induction l as [|a l IH]; cbn; [lra | rewrite IH; lra]. Qed.

Lemma calculateMetrics_rev (contour : Contour) :
  calculateMetrics (rev contour) = calculateMetrics contour.
Proof.
  destruct contour as [|p ps]; [reflexivity|].
  rewrite rev_as_rot, calculateMetrics_rot.
  assert (Hne : p :: ps <> []) by discriminate.
  assert (Hne' : p :: rev ps <> []) by discriminate.
  apply Metrics_eq.
  - rewrite !area_closedPairs.
    rewrite (closedPairs_rev (fun pq => shoelaceTerm (fst pq) (snd pq))).
    cbn [fst snd].
    rewrite (Rsum_map_ext _ (fun pq => - shoelaceTerm (fst pq) (snd pq)))
      by (intros [a b]; apply shoelaceTerm_swap).
    rewrite Rsum_map_opp.
    unfold Rdiv. rewrite Ropp_mult_distr_l_reverse. apply Rabs_Ropp.
  - rewrite !perimeter_closedPairs.
    rewrite (closedPairs_rev (fun pq => dist (fst pq) (snd pq))).
    cbn [fst snd]. apply Rsum_map_ext. intros [a b]. apply dist_swap.
  - apply (tightBox_unique (p :: rev ps)).
    + now apply boundingBox_tight.
    + apply (tightBox_same_points (p :: ps)); [|now apply boundingBox_tight].
      intros q. cbn [In]. rewrite <- in_rev. tauto.
  - rewrite (center_mean _ Hne'), (center_mean _ Hne).
    cbn [length map]. rewrite length_rev, !map_rev.
    unfold Rsum. cbn [fold_right]. fold (Rsum (rev (map px ps))).
    fold (Rsum (rev (map py ps))). rewrite !Rsum_rev. reflexivity.
Qed.

(** X24.  For a contour of whole-number coordinates the area, the
    bounding box and the center do not depend on the point the contour
    starts from, nor on the way round it is walked: the contour rotated by
    one point and the contour reversed give the same three.  On whole
    numbers the sums behind them are exact, so the order of the additions
    plays no part.  (The perimeter is a sum of rounded square roots, whose
    last digit depends on the order; see [Binary64Facts].) *)
Theorem calculateMetrics_start_and_direction (contour : Contour) :
  wholeCoordinates contour ->
  (area (calculateMetrics (rot contour)) = area (calculateMetrics contour)
   /\ boundingBox (calculateMetrics (rot contour))
      = boundingBox (calculateMetrics contour)
   /\ center (calculateMetrics (rot contour)) = center (calculateMetrics contour))
  /\ (area (calculateMetrics (rev contour)) = area (calculateMetrics contour)
      /\ boundingBox (calculateMetrics (rev contour))
         = boundingBox (calculateMetrics contour)
      /\ center (calculateMetrics (rev contour)) = center (calculateMetrics contour)).
Proof.
  intros _. rewrite calculateMetrics_rot, calculateMetrics_rev.
  repeat split; reflexivity.
Qed.

Lemma calculateMetrics_start_and_direction_witness :
  wholeCoordinates triangleContour
  /\ (area (calculateMetrics (rot triangleContour))
      = area (calculateMetrics triangleContour)
      /\ boundingBox (calculateMetrics (rot triangleContour))
         = boundingBox (calculateMetrics triangleContour)
      /\ center (calculateMetrics (rot triangleContour))
         = center (calculateMetrics triangleContour))
  /\ (area (calculateMetrics (rev triangleContour))
      = area (calculateMetrics triangleContour)
      /\ boundingBox (calculateMetrics (rev triangleContour))
         = boundingBox (calculateMetrics triangleContour)
      /\ center (calculateMetrics (rev triangleContour))
         = center (calculateMetrics triangleContour)).
Proof.
  split; [exact wholeCoordinates_triangle|].
  apply (calculateMetrics_start_and_direction triangleContour).
  exact wholeCoordinates_triangle.
Defined.

End OrderFacts.

(** ** The sort of the convex hull *)

Section SortFacts.

Lemma comparePoints_before (p q : Point) : comparePoints p q < 0 -> lexLe p q.
Proof.
  unfold comparePoints, lexLe. destruct (eqb (px p) (px q)) eqn:E; intros H.
  - apply eqb_true in E. right. split; [exact E | lra].
  - left. lra.
Qed.

Lemma comparePoints_not_before (p q : Point) : ~ comparePoints p q < 0 -> lexLe q p.
Proof.
  unfold comparePoints, lexLe. destruct (eqb (px p) (px q)) eqn:E; intros H.
  - apply eqb_true in E. right. split; [now symmetry | lra].
  - apply eqb_false in E. left. lra.
Qed.

Lemma ordered_tl (l : list Point) : ordered l -> ordered (tl l).
Proof. destruct l as [|a [|b rest]]; cbn [tl ordered]; tauto. Qed.

Lemma ordered_cons (q : Point) (l : list Point) :
  (forall r, hd_error l = Some r -> lexLe q r) -> ordered l -> ordered (q :: l).
Proof.
  destruct l as [|r rest]; intros Hhd Hl; [exact I|].
  cbn [ordered]. split; [now apply Hhd | exact Hl].
Qed.

Lemma insertPoint_ordered (p : Point) (sorted : list Point) :
  ordered sorted -> ordered (insertPoint p sorted).
Proof.
  induction sorted as [|q rest IH]; intros Hs; [exact I|].
  cbn [insertPoint].
  destruct (ltb (comparePoints p q) 0) eqn:E.
  - apply ltb_true in E. cbn [ordered]. split; [now apply comparePoints_before | exact Hs].
  - apply ltb_false in E. apply comparePoints_not_before in E.
    apply ordered_cons; [|apply IH; now apply (ordered_tl (q :: rest))].
    intros r Hr. destruct rest as [|r' rest'].
    + cbn in Hr. injection Hr as <-. exact E.
    + cbn [insertPoint] in Hr. cbn [ordered] in Hs.
      destruct (ltb (comparePoints p r') 0); cbn in Hr; injection Hr as <-; tauto.
Qed.

Lemma insertPoint_In (p x : Point) (sorted : list Point) :
  In x (insertPoint p sorted) <-> x = p \/ In x sorted.
Proof.
  induction sorted as [|q rest IH]; cbn [insertPoint In].
  - intuition congruence.
  - destruct (ltb (comparePoints p q) 0); cbn [In]; [intuition congruence|].
    rewrite IH. intuition congruence.
Qed.

Lemma length_insertPoint (p : Point) (sorted : list Point) :
  length (insertPoint p sorted) = S (length sorted).
Proof.
  induction sorted as [|q rest IH]; [reflexivity|]. cbn [insertPoint].
  destruct (ltb (comparePoints p q) 0); cbn [length]; [reflexivity | now rewrite IH].
Qed.

Lemma sort_fold (points : list Point) :
  forall acc,
    ordered acc ->
    ordered (fold_left (fun sorted p => insertPoint p sorted) points acc)
    /\ length (fold_left (fun sorted p => insertPoint p sorted) points acc)
       = (length points + length acc)%nat
    /\ forall x, In x (fold_left (fun sorted p => insertPoint p sorted) points acc)
                 <-> In x points \/ In x acc.
Proof.
  induction points as [|p points IH]; intros acc Hacc; cbn [fold_left].
  - split; [exact Hacc|]. split; [reflexivity|]. intros x. cbn [In]. tauto.
  - destruct (IH (insertPoint p acc) (insertPoint_ordered p acc Hacc))
      as (Ho & Hl & Hin).
    split; [exact Ho|]. split.
    + rewrite Hl, length_insertPoint. cbn [length]. lia.
    + intros x. rewrite Hin, insertPoint_In. cbn [In]. intuition congruence.
Qed.

(** X25.  The sort that starts the hull puts the points in order of [x], and of
    [y] where the [x] are equal; it keeps their number and adds or drops
    none. *)
Theorem sortPoints_ordered (points : list Point) :
  ordered (sortPoints points)
  /\ length (sortPoints points) = length points
  /\ forall p, In p (sortPoints points) <-> In p points.
Proof.
  unfold sortPoints.
  destruct (sort_fold points [] I) as (Ho & Hl & Hin).
  split; [exact Ho|]. split.
  - rewrite Hl. cbn [length]. lia.
  - intros p. rewrite Hin. cbn [In]. tauto.
Qed.

End SortFacts.

(** ** Whole-number readings *)

Module WholeFacts.

Import Tracer TracerFacts Scanner ScannerFacts Imaging ImagingFacts Whole.
Local Open Scope R_scope.

Lemma pixelAt_IZR (grid : list (list Z)) (y x : Z) :
  pixelAt (map (map IZR) grid) y x = IZR (pixelAtZ grid y x).
Proof.
  unfold pixelAt, pixelAtZ.
  destruct ((y <? 0)%Z || (x <? 0)%Z); [reflexivity|].
  rewrite nth_error_map.
  destruct (nth_error grid (Z.to_nat y)) as [row|]; [|reflexivity].
  cbn [option_map]. rewrite nth_error_map.
  now destruct (nth_error row (Z.to_nat x)).
Qed.

Lemma gradientZ_eq (grid : list (list Z)) (x y : Z) :
  gradientZ grid x y
  = (0 + pixelAtZ grid (y + -1) (x + -1) * -1 + pixelAtZ grid (y + -1) (x + 0) * 0
       + pixelAtZ grid (y + -1) (x + 1) * 1
       + pixelAtZ grid (y + 0) (x + -1) * -2 + pixelAtZ grid (y + 0) (x + 0) * 0
       + pixelAtZ grid (y + 0) (x + 1) * 2
       + pixelAtZ grid (y + 1) (x + -1) * -1 + pixelAtZ grid (y + 1) (x + 0) * 0
       + pixelAtZ grid (y + 1) (x + 1) * 1,
     0 + pixelAtZ grid (y + -1) (x + -1) * -1 + pixelAtZ grid (y + -1) (x + 0) * -2
       + pixelAtZ grid (y + -1) (x + 1) * -1
       + pixelAtZ grid (y + 0) (x + -1) * 0 + pixelAtZ grid (y + 0) (x + 0) * 0
       + pixelAtZ grid (y + 0) (x + 1) * 0
       + pixelAtZ grid (y + 1) (x + -1) * 1 + pixelAtZ grid (y + 1) (x + 0) * 2
       + pixelAtZ grid (y + 1) (x + 1) * 1)%Z.
Proof. reflexivity. Qed.

(** On whole-number gray values the gradient is a pair of whole numbers. *)
Lemma gradient_IZR (grid : list (list Z)) (x y : Z) :
  gradient (map (map IZR) grid) x y
  = (IZR (fst (gradientZ grid x y)), IZR (snd (gradientZ grid x y))).
Proof.
  rewrite gradient_eq, gradientZ_eq, !pixelAt_IZR. cbn [fst snd].
  repeat (rewrite plus_IZR || rewrite mult_IZR). reflexivity.
Qed.

(** The edge test on whole-number gray values: the magnitude exceeds 128
    exactly when the sum of the two squares exceeds 16384. *)
Lemma edgeValue_IZR (grid : list (list Z)) (x y : Z) :
  edgeValue (map (map IZR) grid) x y = edgeValueZ grid x y.
Proof.
  unfold edgeValue, edgeValueZ. rewrite gradient_IZR. cbn [fst snd].
  set (a := fst (gradientZ grid x y)). set (b := snd (gradientZ grid x y)).
  rewrite <- !mult_IZR, <- plus_IZR.
  assert (Hs : (0 <= a * a + b * b)%Z).
  { pose proof (Z.square_nonneg a). pose proof (Z.square_nonneg b). lia. }
  replace 128 with (sqrt (IZR 16384)).
  2:{ replace (IZR 16384) with (128 * 128) by lra. apply sqrt_square. lra. }
  destruct (Z.gtb_spec (a * a + b * b) 16384) as [Hgt|Hle].
  - rewrite (proj2 (gtb_true _ _)); [reflexivity|].
    apply sqrt_lt_1_alt. split; [apply IZR_le; lia | apply IZR_lt; lia].
  - rewrite (proj2 (gtb_false _ _)); [reflexivity|].
    apply Rle_not_gt. apply sqrt_le_1_alt. apply IZR_le. lia.
Qed.

Lemma applySobel_IZR (width height : Z) (grid : list (list Z)) :
  applySobelEdgeDetection width height (map (map IZR) grid)
  = applySobelZ width height grid.
Proof.
  unfold applySobelEdgeDetection, applySobelZ.
  apply fold_left_ext_in. intros g p _. f_equal. apply edgeValue_IZR.
Qed.

(** *** The metrics of a contour of pixel positions *)

Lemma Rsum_IZR (l : list Z) : Rsum (map IZR l) = IZR (fold_right Z.add 0%Z l).
Proof.
  unfold Rsum. induction l as [|z l IH]; [reflexivity|].
  cbn [map fold_right]. rewrite IH, plus_IZR. reflexivity.
Qed.

Lemma closedPairs_toPoint (c : list GridPoint) :
  combine (map toPoint c) (rot (map toPoint c))
  = map (fun pq => (toPoint (fst pq), toPoint (snd pq))) (combine c (rot c)).
Proof. now rewrite rot_map, combine_map. Qed.

(** The area of a contour of pixel positions is half the size of a whole
    number. *)
Lemma area_whole (c : list GridPoint) :
  area (calculateMetrics (map toPoint c)) = Rabs (IZR (shoelaceZ c) / 2).
Proof.
  rewrite area_shoelace, closedPairs_toPoint, map_map. cbn [fst snd].
  unfold shoelaceZ. rewrite <- Rsum_IZR, map_map.
  do 2 f_equal. apply Rsum_map_ext. intros [p q]. cbn [fst snd].
  unfold shoelaceTerm, toPoint. cbn [px py].
  rewrite minus_IZR, !mult_IZR. reflexivity.
Qed.

Lemma sqrt_2_upper : sqrt 2 <= 14143 / 10000.
Proof.
  rewrite <- (sqrt_square (14143 / 10000)) by lra.
  apply sqrt_le_1_alt. lra.
Qed.

Lemma dist_stepUpper (p q : GridPoint) :
  10000 * dist (toPoint p) (toPoint q) <= IZR (stepUpper p q).
Proof.
  assert (E : dist (toPoint p) (toPoint q) = sqrt (IZR (squaredStep p q))).
  { unfold dist, toPoint, squaredStep. cbn [px py]. f_equal.
    rewrite plus_IZR, !mult_IZR, !minus_IZR. ring. }
  rewrite E. unfold stepUpper.
  assert (Hs : (0 <= squaredStep p q)%Z).
  { unfold squaredStep.
    pose proof (Z.square_nonneg (gx q - gx p)).
    pose proof (Z.square_nonneg (gy q - gy p)). lia. }
  set (s := squaredStep p q) in *.
  destruct (Z.eqb_spec s 0) as [->|H0]; [rewrite sqrt_0; lra|].
  destruct (Z.eqb_spec s 1) as [->|H1]; [rewrite sqrt_1; lra|].
  destruct (Z.eqb_spec s 2) as [->|H2]; [pose proof sqrt_2_upper; lra|].
  rewrite mult_IZR.
  assert (Hlt : 1 < IZR s) by (apply IZR_lt; lia).
  pose proof (sqrt_less (IZR s)) as Hless.
  assert (sqrt (IZR s) < IZR s) by (apply Hless; lra).
  lra.
Qed.

(** The perimeter of a contour of pixel positions is at most the bound
    computed in whole numbers. *)
Lemma perimeter_whole_upper (c : list GridPoint) :
  10000 * perimeter (calculateMetrics (map toPoint c)) <= IZR (perimeterUpper c).
Proof.
  rewrite perimeter_segments, closedPairs_toPoint, map_map. cbn [fst snd].
  unfold perimeterUpper. rewrite <- Rsum_IZR, map_map.
  unfold Rsum. induction (combine c (rot c)) as [|[p q] l IH].
  - cbn [map fold_right]. lra.
  - cbn [map fold_right fst snd] in *.
    pose proof (dist_stepUpper p q). lra.
Qed.

(** *** The circle test *)

Lemma PI_above_3 : 3 < PI.
Proof. pose proof PI2_3_2. lra. Qed.

(** A contour whose area is more than a fifteenth of its squared
    perimeter passes the circle test: [4 * PI / 15] is above 0.80. *)
Lemma circularity_above (metrics : Metrics) :
  0 < area metrics ->
  0.80 * (perimeter metrics * perimeter metrics) < 12 * area metrics ->
  xgtb (circularityOf metrics) (Fin 0.80) = true.
Proof.
  intros Harea Hratio. unfold circularityOf, div.
  pose proof PI_above_3 as Hpi.
  assert (Hnum : 12 * area metrics < 4 * PI * area metrics) by nra.
  set (P2 := perimeter metrics * perimeter metrics) in *.
  destruct (eqb P2 0) eqn:Ez.
  - rewrite (proj2 (eqb_false (4 * PI * area metrics) 0)) by lra.
    rewrite (proj2 (ltb_true 0 (4 * PI * area metrics))) by lra.
    reflexivity.
  - apply eqb_false in Ez. cbn [xgtb xltb]. apply ltb_true.
    assert (Hpos : 0 < P2).
    { unfold P2 in *. pose proof (Rle_0_sqr (perimeter metrics)) as Hsq.
      unfold Rsqr in Hsq. lra. }
    apply (Rmult_lt_reg_r P2); [exact Hpos|].
    replace (4 * PI * area metrics / P2 * P2) with (4 * PI * area metrics)
      by (field; lra).
    lra.
Qed.

Lemma classifyShape_round (fuel : nat) (contour : Contour) (metrics : Metrics) :
  xgtb (circularityOf metrics) (Fin 0.80) = true ->
  classifyShape fuel contour metrics
  = Some (Some (mkShape circle (fin (xmin (circularityOf metrics) (Fin 0.99)))
                        metrics)).
Proof. intros H. unfold classifyShape. now rewrite H. Qed.

(** A single contour large enough to pass the noise filter has no other
    contour to shadow it. *)
Lemma analyzeContours_single (fuel : nat) (contour : Contour) (shape : DetectedShape) :
  ~ area (calculateMetrics contour) < 50 ->
  classifyShape fuel contour (calculateMetrics contour) = Some (Some shape) ->
  analyzeContours fuel [contour] = Some [shape].
Proof.
  intros Harea Hshape. unfold analyzeContours, contourMetricsOf.
  cbn [map filter cmMetrics].
  rewrite (proj2 (ltb_false _ _) Harea). cbn [negb].
  unfold outerContoursMetrics, indexed, isInnerContour, indexed, shadows.
  cbn [length seq combine existsb fst snd Nat.eqb negb andb filter map orb].
  cbn [classifyAll cmContour cmMetrics]. now rewrite Hshape.
Qed.

(** A contour the circle test turns down: [4 * PI] is at most 16. *)
Lemma circularity_below (metrics : Metrics) :
  0 <= area metrics ->
  0 < perimeter metrics ->
  16 * area metrics <= 0.80 * (perimeter metrics * perimeter metrics) ->
  xgtb (circularityOf metrics) (Fin 0.80) = false.
Proof.
  intros Harea Hper Hratio. unfold circularityOf.
  assert (Hpos : 0 < perimeter metrics * perimeter metrics) by nra.
  rewrite div_nonzero by lra. cbn [xgtb xltb]. apply ltb_false.
  pose proof PI_4 as Hpi.
  assert (Hnum : 4 * PI * area metrics <= 16 * area metrics) by nra.
  intros Hlt.
  apply (Rmult_lt_compat_r (perimeter metrics * perimeter metrics)) in Hlt;
    [|exact Hpos].
  replace (4 * PI * area metrics / (perimeter metrics * perimeter metrics)
           * (perimeter metrics * perimeter metrics))
    with (4 * PI * area metrics) in Hlt by (field; lra).
  lra.
Qed.

Lemma dist_stepLower (p q : GridPoint) :
  IZR (stepLower p q) <= 10000 * dist (toPoint p) (toPoint q).
Proof.
  assert (E : dist (toPoint p) (toPoint q) = sqrt (IZR (squaredStep p q))).
  { unfold dist, toPoint, squaredStep. cbn [px py]. f_equal.
    rewrite plus_IZR, !mult_IZR, !minus_IZR. ring. }
  rewrite E. unfold stepLower.
  assert (Hs : (0 <= squaredStep p q)%Z).
  { unfold squaredStep.
    pose proof (Z.square_nonneg (gx q - gx p)).
    pose proof (Z.square_nonneg (gy q - gy p)). lia. }
  set (s := squaredStep p q) in *.
  destruct (Z.eqb_spec s 0) as [->|H0]; [rewrite sqrt_0; lra|].
  assert (H1 : 1 <= IZR s) by (apply IZR_le; lia).
  apply sqrt_le_1_alt in H1. rewrite sqrt_1 in H1. lra.
Qed.

Lemma perimeter_whole_lower (c : list GridPoint) :
  IZR (perimeterLower c) <= 10000 * perimeter (calculateMetrics (map toPoint c)).
Proof.
  rewrite perimeter_segments, closedPairs_toPoint, map_map. cbn [fst snd].
  unfold perimeterLower. rewrite <- Rsum_IZR, map_map.
  unfold Rsum. induction (combine c (rot c)) as [|[p q] l IH].
  - cbn [map fold_right]. lra.
  - cbn [map fold_right fst snd] in *.
    pose proof (dist_stepLower p q). lra.
Qed.

(** The center of a contour of pixel positions: two quotients of whole
    numbers. *)
Lemma center_whole (c : list GridPoint) :
  c <> [] ->
  center (calculateMetrics (map toPoint c))
  = mkPoint (IZR (sumGX c) / IZR (Z.of_nat (length c)))
            (IZR (sumGY c) / IZR (Z.of_nat (length c))).
Proof.
  intros Hne. rewrite center_mean by (destruct c; [congruence | discriminate]).
  rewrite length_map, !map_map, INR_IZR_INZ. unfold sumGX, sumGY.
  rewrite <- !Rsum_IZR, !map_map. reflexivity.
Qed.

Lemma lowest_spec (l : list Z) :
  l <> [] -> In (lowest l) l /\ Forall (fun v => (lowest l <= v)%Z) l.
Proof.
  intros Hne. unfold lowest. destruct l as [|d l]; [congruence|]. cbn [hd].
  assert (H : forall m, In (fold_right Z.min d m) (d :: m)
                        /\ (fold_right Z.min d m <= d)%Z
                        /\ Forall (fun v => (fold_right Z.min d m <= v)%Z) m).
  { induction m as [|x m (Hin & Hd & Hall)]; cbn [fold_right].
    - split; [now left|]. split; [lia | constructor].
    - destruct (Z.min_spec x (fold_right Z.min d m)) as [[Hlt ->]|[Hle ->]].
      + split; [right; now left|]. split; [lia|].
        constructor; [lia|]. eapply Forall_impl; [|exact Hall]. cbn beta. lia.
      + split; [destruct Hin as [<-|Hin]; [now left | right; now right]|].
        split; [exact Hd|]. constructor; [lia | exact Hall]. }
  destruct (H (d :: l)) as (Hin & _ & Hall).
  split; [|exact Hall].
  destruct Hin as [E|Hin]; [rewrite <- E; now left | exact Hin].
Qed.

Lemma highest_spec (l : list Z) :
  l <> [] -> In (highest l) l /\ Forall (fun v => (v <= highest l)%Z) l.
Proof.
  intros Hne. unfold highest. destruct l as [|d l]; [congruence|]. cbn [hd].
  assert (H : forall m, In (fold_right Z.max d m) (d :: m)
                        /\ (d <= fold_right Z.max d m)%Z
                        /\ Forall (fun v => (v <= fold_right Z.max d m)%Z) m).
  { induction m as [|x m (Hin & Hd & Hall)]; cbn [fold_right].
    - split; [now left|]. split; [lia | constructor].
    - destruct (Z.max_spec x (fold_right Z.max d m)) as [[Hlt ->]|[Hle ->]].
      + split; [destruct Hin as [<-|Hin]; [now left | right; now right]|].
        split; [exact Hd|]. constructor; [lia | exact Hall].
      + split; [right; now left|]. split; [lia|].
        constructor; [lia|]. eapply Forall_impl; [|exact Hall]. cbn beta. lia. }
  destruct (H (d :: l)) as (Hin & _ & Hall).
  split; [|exact Hall].
  destruct Hin as [E|Hin]; [rewrite <- E; now left | exact Hin].
Qed.

(** The bounding box of a contour of pixel positions: the least and the
    greatest coordinates, and their differences. *)
Lemma boundingBox_whole (c : list GridPoint) :
  c <> [] ->
  boundingBox (calculateMetrics (map toPoint c))
  = mkBox (IZR (lowest (map gx c))) (IZR (lowest (map gy c)))
          (IZR (highest (map gx c) - lowest (map gx c)))
          (IZR (highest (map gy c) - lowest (map gy c))).
Proof.
  intros Hne.
  assert (Hne' : map toPoint c <> []) by (destruct c; [congruence | discriminate]).
  assert (Hx : map gx c <> []) by (destruct c; [congruence | discriminate]).
  assert (Hy : map gy c <> []) by (destruct c; [congruence | discriminate]).
  destruct (lowest_spec _ Hx) as (Lx & LxAll). destruct (highest_spec _ Hx) as (Ux & UxAll).
  destruct (lowest_spec _ Hy) as (Ly & LyAll). destruct (highest_spec _ Hy) as (Uy & UyAll).
  apply (tightBox_unique (map toPoint c)); [now apply boundingBox_tight|].
  rewrite Forall_map in LxAll, UxAll, LyAll, UyAll.
  rewrite Forall_forall in LxAll, UxAll, LyAll, UyAll.
  apply in_map_iff in Lx, Ux, Ly, Uy.
  destruct Lx as (p0 & E0 & H0). destruct Ux as (p2 & E2 & H2).
  destruct Ly as (p1 & E1 & H1). destruct Uy as (p3 & E3 & H3).
  unfold tightBox. cbn [bx by_ bwidth bheight]. rewrite !minus_IZR. split.
  { apply Forall_map. apply Forall_forall. intros p Hp.
    unfold insideBox, toPoint. cbn [px py bx by_ bwidth bheight].
    pose proof (IZR_le _ _ (LxAll p Hp)). pose proof (IZR_le _ _ (UxAll p Hp)).
    pose proof (IZR_le _ _ (LyAll p Hp)). pose proof (IZR_le _ _ (UyAll p Hp)).
    lra. }
  split; [exists (toPoint p0); split; [now apply in_map | cbn [toPoint px]; now rewrite E0]|].
  split; [exists (toPoint p1); split; [now apply in_map | cbn [toPoint py]; now rewrite E1]|].
  split; [exists (toPoint p2); split; [now apply in_map | cbn [toPoint px]; rewrite E2; lra]|].
  exists (toPoint p3); split; [now apply in_map | cbn [toPoint py]; rewrite E3; lra].
Qed.

(** *** The scene *)

(** An image whose pixels all have their three channels equal is read as
    its red channel. *)
Lemma createGrayscaleGrid_neutral (img : ImageData) :
  neutral img = true ->
  createGrayscaleGrid img = map (map IZR) (redGrid img).
Proof.
  intros H. unfold neutral in H. rewrite forallb_forall in H.
  unfold createGrayscaleGrid, redGrid. rewrite map_map.
  apply map_ext_in. intros y Hy. specialize (H y Hy).
  rewrite forallb_forall in H. rewrite map_map.
  apply map_ext_in. intros x Hx. specialize (H x Hx).
  unfold neutralAt, byteAt in H. apply andb_prop in H. destruct H as [Hg Hb].
  apply Z.eqb_eq in Hg, Hb.
  unfold byteAt. apply grayAt_channels; [reflexivity | exact Hg | exact Hb].
Qed.

Lemma createGrayscaleGrid_sceneImage :
  createGrayscaleGrid sceneImage = map (map IZR) sceneGray.
Proof.
  rewrite createGrayscaleGrid_neutral by (vm_compute; reflexivity).
  replace (redGrid sceneImage) with sceneGray by (vm_compute; reflexivity).
  reflexivity.
Qed.

Lemma applySobelZ_sceneGray : applySobelZ 40 26 sceneGray = sceneEdges.
Proof. vm_compute. reflexivity. Qed.

Lemma area_discContour : area (calculateMetrics (map toPoint discContour)) = 105.
Proof.
  rewrite area_whole.
  replace (shoelaceZ discContour) with 210%Z by (vm_compute; reflexivity).
  rewrite Rabs_pos_eq; lra.
Qed.

Lemma area_barOuter : area (calculateMetrics (map toPoint barOuter)) = 124.
Proof.
  rewrite area_whole.
  replace (shoelaceZ barOuter) with 248%Z by (vm_compute; reflexivity).
  rewrite Rabs_pos_eq; lra.
Qed.

Lemma area_barInner : area (calculateMetrics (map toPoint barInner)) = 56.
Proof.
  rewrite area_whole.
  replace (shoelaceZ barInner) with (-112)%Z by (vm_compute; reflexivity).
  rewrite Rabs_left; lra.
Qed.

Lemma center_discContour :
  center (calculateMetrics (map toPoint discContour)) = mkPoint (15 / 2) (15 / 2).
Proof.
  rewrite center_whole by discriminate.
  replace (sumGX discContour) with 270%Z by (vm_compute; reflexivity).
  replace (sumGY discContour) with 270%Z by (vm_compute; reflexivity).
  replace (Z.of_nat (length discContour)) with 36%Z by (vm_compute; reflexivity).
  f_equal; lra.
Qed.

Lemma center_barOuter :
  center (calculateMetrics (map toPoint barOuter)) = mkPoint (35 / 2) 21.
Proof.
  rewrite center_whole by discriminate.
  replace (sumGX barOuter) with 1225%Z by (vm_compute; reflexivity).
  replace (sumGY barOuter) with 1470%Z by (vm_compute; reflexivity).
  replace (Z.of_nat (length barOuter)) with 70%Z by (vm_compute; reflexivity).
  f_equal; lra.
Qed.

Lemma center_barInner :
  center (calculateMetrics (map toPoint barInner)) = mkPoint (35 / 2) 21.
Proof.
  rewrite center_whole by discriminate.
  replace (sumGX barInner) with 1015%Z by (vm_compute; reflexivity).
  replace (sumGY barInner) with 1218%Z by (vm_compute; reflexivity).
  replace (Z.of_nat (length barInner)) with 58%Z by (vm_compute; reflexivity).
  f_equal; lra.
Qed.

Lemma perimeter_discContour :
  perimeter (calculateMetrics (map toPoint discContour)) <= 393144 / 10000.
Proof.
  pose proof (perimeter_whole_upper discContour) as H.
  replace (perimeterUpper discContour) with 393144%Z in H by (vm_compute; reflexivity).
  lra.
Qed.

Lemma perimeter_barOuter :
  70 <= perimeter (calculateMetrics (map toPoint barOuter)).
Proof.
  pose proof (perimeter_whole_lower barOuter) as H.
  replace (perimeterLower barOuter) with 700000%Z in H by (vm_compute; reflexivity).
  lra.
Qed.

Lemma boundingBox_barOuter :
  boundingBox (calculateMetrics (map toPoint barOuter)) = mkBox 2 19 31 4.
Proof.
  rewrite boundingBox_whole by discriminate.
  replace (lowest (map gx barOuter)) with 2%Z by (vm_compute; reflexivity).
  replace (lowest (map gy barOuter)) with 19%Z by (vm_compute; reflexivity).
  replace (highest (map gx barOuter)) with 33%Z by (vm_compute; reflexivity).
  replace (highest (map gy barOuter)) with 23%Z by (vm_compute; reflexivity).
  reflexivity.
Qed.

(** The ring of the disc is round enough: its area is 105 and its
    perimeter below 39.32. *)
Lemma classifyShape_discContour (fuel : nat) :
  classifyShape fuel (map toPoint discContour)
                (calculateMetrics (map toPoint discContour))
  = Some (Some discShape).
Proof.
  apply classifyShape_round. apply circularity_above.
  - rewrite area_discContour. lra.
  - rewrite area_discContour.
    pose proof perimeter_discContour as Hp.
    pose proof (perimeter_nonneg (map toPoint discContour)) as H0.
    set (P := perimeter (calculateMetrics (map toPoint discContour))) in *.
    assert (P * P <= 393144 / 10000 * (393144 / 10000)) by nra.
    lra.
Qed.

(** The ring of the bar is not round, the simplifier runs on its 70
    points, and its box, 31 by 4, is too long for a shape. *)
Lemma classifyShape_barOuter (fuel : nat) :
  (70 < fuel)%nat ->
  classifyShape fuel (map toPoint barOuter)
                (calculateMetrics (map toPoint barOuter))
  = Some None.
Proof.
  intros Hfuel.
  pose proof perimeter_barOuter as Hp.
  destruct (simplifyContour_returns fuel (map toPoint barOuter)
              (0.06 * perimeter (calculateMetrics (map toPoint barOuter))))
    as [vertices Hv]; [lra | rewrite length_map; exact Hfuel |].
  apply (classifyShape_rejects_guarded fuel _ _ vertices); [|exact Hv|].
  - apply circularity_below.
    + rewrite area_barOuter. lra.
    + lra.
    + rewrite area_barOuter.
      set (P := perimeter (calculateMetrics (map toPoint barOuter))) in *.
      assert (70 * 70 <= P * P) by nra. lra.
  - unfold aspectRatioOf. rewrite boundingBox_barOuter. cbn [bwidth bheight].
    rewrite !orOne_nonzero by lra.
    pose proof (Rmax_l (31 / 4) (4 / 31)). lra.
Qed.

Lemma squared_distance_nonneg (a b c d : R) : 0 <= (a - b) ^ 2 + (c - d) ^ 2.
Proof. pose proof (pow2_ge_0 (a - b)). pose proof (pow2_ge_0 (c - d)). lra. Qed.

(** Of the three contours the filter drops the inner ring of the bar,
    which has the center of the outer ring and the smaller area; the disc
    is more than 15 away from both. *)
Lemma outerContoursMetrics_scene :
  outerContoursMetrics
    [mkCM (map toPoint discContour) (calculateMetrics (map toPoint discContour));
     mkCM (map toPoint barOuter) (calculateMetrics (map toPoint barOuter));
     mkCM (map toPoint barInner) (calculateMetrics (map toPoint barInner))]
  = [mkCM (map toPoint discContour) (calculateMetrics (map toPoint discContour));
     mkCM (map toPoint barOuter) (calculateMetrics (map toPoint barOuter))].
Proof.
  unfold outerContoursMetrics, indexed, isInnerContour, indexed, shadows.
  cbn [length seq combine filter existsb fst snd Nat.eqb negb andb orb map cmMetrics].
  rewrite center_discContour, center_barOuter, center_barInner.
  rewrite area_discContour, area_barOuter, area_barInner.
  cbn [px py].
  rewrite !ltb_sqrt by (apply squared_distance_nonneg || lra).
  repeat (decide_test; cbn [negb andb orb filter map fst snd]).
  reflexivity.
Qed.

Lemma analyzeContours_scene (fuel : nat) :
  (70 < fuel)%nat ->
  analyzeContours fuel [map toPoint discContour; map toPoint barOuter;
                        map toPoint barInner]
  = Some [discShape].
Proof.
  intros Hfuel. unfold analyzeContours, contourMetricsOf.
  cbn [map filter cmMetrics].
  rewrite area_discContour, area_barOuter, area_barInner.
  repeat (decide_test; cbn [negb filter]).
  rewrite outerContoursMetrics_scene.
  cbn [classifyAll cmContour cmMetrics].
  now rewrite classifyShape_discContour, (classifyShape_barOuter fuel Hfuel).
Qed.

(** The scene is read as one circle.  The scan keeps three contours; the
    inner ring of the bar is dropped as an inner contour, the outer ring of
    the bar goes through the simplifier and is turned down for its aspect
    ratio, and the ring of the disc passes the circle test. *)
Lemma detectShapes_sceneImage (fuel : nat) :
  (70 < fuel)%nat ->
  detectShapes fuel sceneImage = Some ([discShape], 40%Z, 26%Z).
Proof.
  intros Hfuel. unfold detectShapes.
  change (imageWidth sceneImage) with 40%Z. change (imageHeight sceneImage) with 26%Z.
  rewrite createGrayscaleGrid_sceneImage, applySobel_IZR, applySobelZ_sceneGray.
  pose proof findContours_sceneEdges as F.
  destruct (findContours 40 26 sceneEdges) as [s|]; [|discriminate].
  cbn [option_map] in F. injection F as F. rewrite F. cbn [map].
  now rewrite (analyzeContours_scene fuel Hfuel).
Qed.

Lemma sceneImage_wellFormed : wellFormedImage sceneImage.
Proof.
  unfold wellFormedImage. split; [cbn; lia|]. split; [cbn; lia|]. split.
  - vm_compute. reflexivity.
  - apply Forall_forall. intros v Hv.
    unfold sceneImage, grayImage in Hv. cbn [data] in Hv.
    apply in_flat_map in Hv. destruct Hv as (g & Hg & Hv).
    assert (Hall : Forall (Forall (fun z => z = 0 \/ z = 255)%Z) sceneGray).
    { apply (binary_checked sceneGray). vm_compute. reflexivity. }
    assert (Hgray : (g = 0 \/ g = 255)%Z).
    { apply in_concat in Hg. destruct Hg as (row & Hrow & Hg).
      rewrite Forall_forall in Hall. specialize (Hall row Hrow).
      rewrite Forall_forall in Hall. now apply Hall. }
    cbn [In] in Hv. destruct Hgray; subst g; intuition lia.
Qed.

End WholeFacts.

(** ** The pipeline *)

Module PipelineFacts.

Import Tracer TracerFacts Scanner ScannerFacts Imaging ImagingFacts Whole WholeFacts.
Local Open Scope R_scope.

(** Without a pixel off the border whose gradient exceeds the threshold
    the edge grid is blank and nothing is detected. *)
Lemma detectShapes_no_edges (fuel : nat) (img : ImageData) :
  (0 <= imageWidth img)%Z -> (0 <= imageHeight img)%Z ->
  (forall p, isInterior (imageWidth img) (imageHeight img) p ->
             edgeValue (createGrayscaleGrid img) (gx p) (gy p) = 0%Z) ->
  detectShapes fuel img = Some ([], imageWidth img, imageHeight img).
Proof.
  intros Hw Hh Hflat. unfold detectShapes.
  destruct (applySobel_shape (imageWidth img) (imageHeight img)
              (createGrayscaleGrid img) Hw Hh) as (Hwf & _).
  unfold findContours.
  rewrite (scan_blank (imageWidth img) (imageHeight img));
    [reflexivity | exact Hwf | | apply positions_inBounds].
  - cbn [gridAfter]. intros p Hp.
    destruct (applySobel_readCell (imageWidth img) (imageHeight img)
                (createGrayscaleGrid img) p Hw Hh Hp) as [Hin Hout].
    destruct (Z_lt_le_dec (gx p) 1) as [Hx|Hx];
      [rewrite Hout; [discriminate | unfold isInterior; lia]|].
    destruct (Z_lt_le_dec (gx p) (imageWidth img - 1)) as [Hx'|Hx'];
      [|rewrite Hout; [discriminate | unfold isInterior; lia]].
    destruct (Z_lt_le_dec (gy p) 1) as [Hy|Hy];
      [rewrite Hout; [discriminate | unfold isInterior; lia]|].
    destruct (Z_lt_le_dec (gy p) (imageHeight img - 1)) as [Hy'|Hy'];
      [|rewrite Hout; [discriminate | unfold isInterior; lia]].
    assert (Hint : isInterior (imageWidth img) (imageHeight img) p)
      by (unfold isInterior; lia).
    rewrite (Hin Hint), (Hflat p Hint). discriminate.
Qed.

(** X16.  An image of a single gray value has no edge: nothing is detected. *)
Theorem detectShapes_plain (fuel : nat) (img : ImageData) (v : R) :
  wellFormedImage img ->
  (forall x y, (0 <= x < imageWidth img)%Z -> (0 <= y < imageHeight img)%Z ->
               grayAt img x y = v) ->
  detectShapes fuel img = Some ([], imageWidth img, imageHeight img).
Proof.
  intros (Hw & Hh & _) Hgray.
  apply detectShapes_no_edges; [exact Hw | exact Hh |].
  intros p [Hx Hy]. apply (edgeValue_flat v).
  intros y' x' Hy' Hx'.
  rewrite pixelAt_createGrayscaleGrid by lia.
  apply Hgray; lia.
Qed.

Lemma detectShapes_plain_witness :
  detectShapes 0 plainImage = Some ([], imageWidth plainImage, imageHeight plainImage).
Proof.
  apply (detectShapes_plain 0 plainImage (IZR 9)).
  - unfold wellFormedImage, plainImage. cbn [imageWidth imageHeight data].
    repeat split; try lia.
    repeat (apply Forall_cons; [lia|]). apply Forall_nil.
  - cbn [imageWidth imageHeight plainImage]. intros x y Hx Hy.
    assert (Hx' : x = 0%Z \/ x = 1%Z \/ x = 2%Z) by lia.
    assert (Hy' : y = 0%Z \/ y = 1%Z \/ y = 2%Z) by lia.
    destruct Hx' as [->|[->| ->]]; destruct Hy' as [->|[->| ->]];
      apply (grayAt_channels plainImage _ _ 9); reflexivity.
Defined.

(** X17.  An image narrower or lower than three pixels has no pixel off the
    border: nothing is detected, whatever it shows. *)
Theorem detectShapes_small (fuel : nat) (img : ImageData) :
  wellFormedImage img ->
  (imageWidth img < 3)%Z \/ (imageHeight img < 3)%Z ->
  detectShapes fuel img = Some ([], imageWidth img, imageHeight img).
Proof.
  intros (Hw & Hh & _) Hsmall.
  apply detectShapes_no_edges; [exact Hw | exact Hh |].
  intros p [Hx Hy]. lia.
Qed.

Lemma detectShapes_small_witness :
  detectShapes 0 tinyImage = Some ([], imageWidth tinyImage, imageHeight tinyImage).
Proof.
  apply (detectShapes_small 0 tinyImage).
  - unfold wellFormedImage, tinyImage. cbn [imageWidth imageHeight data].
    repeat split; try lia.
    repeat (apply Forall_cons; [lia|]). apply Forall_nil.
  - left. cbn [imageWidth tinyImage]. lia.
Defined.

Lemma length_map_toPoint (c : list GridPoint) : length (map toPoint c) = length c.
Proof. apply length_map. Qed.

(** X18.  The computing steps return on every image, given a recursion budget
    above the longest contour the tracer can return (20001 points).  The
    metrics of the shapes are metrics of traced contours, in the order the
    scan found them; every shape has an area of at least 50 and a type and
    confidence of the table; the width and the height are those of the
    image. *)
Theorem detectShapes_returns (fuel : nat) (img : ImageData) :
  wellFormedImage img ->
  (20001 < Z.of_nat fuel)%Z ->
  exists scanned shapes,
    findContours (imageWidth img) (imageHeight img)
                 (applySobelEdgeDetection (imageWidth img) (imageHeight img)
                                          (createGrayscaleGrid img))
    = Some scanned
    /\ detectShapes fuel img = Some (shapes, imageWidth img, imageHeight img)
    /\ subseq (map smetrics shapes)
              (map (fun c => calculateMetrics (map toPoint c)) (found scanned))
    /\ Forall (fun s => 50 <= area (smetrics s) /\ tableEntry s) shapes.
Proof.
  intros (Hw & Hh & _) Hfuel. unfold detectShapes.
  destruct (applySobel_shape (imageWidth img) (imageHeight img)
              (createGrayscaleGrid img) Hw Hh) as (Hwf & _).
  set (edgeGrid := applySobelEdgeDetection (imageWidth img) (imageHeight img)
                                           (createGrayscaleGrid img)) in *.
  destruct (scan_fold (imageWidth img) (imageHeight img) edgeGrid
                      (positions (imageWidth img) (imageHeight img))
                      (mkScanned [] edgeGrid [])
                      (positions_inBounds _ _) Hwf (consumes_refl _ _ _) (Forall_nil _))
    as (s & Es & _ & _ & _ & _ & Hfound).
  fold (findContours (imageWidth img) (imageHeight img) edgeGrid) in Es.
  rewrite Es.
  destruct (analyzeContours_total fuel (map (map toPoint) (found s)))
    as (shapes & Ea & Hsub & Hall).
  { apply Forall_map. eapply Forall_impl; [|exact Hfound]. cbn beta.
    intros c (Hl & _). rewrite length_map_toPoint.
    pose proof MAX_TRACE_value. lia. }
  exists s, shapes. split; [reflexivity|]. rewrite Ea.
  split; [reflexivity|]. split; [|exact Hall].
  now rewrite map_map in Hsub.
Qed.

Lemma detectShapes_returns_witness :
  exists scanned shapes,
    (findContours (imageWidth sceneImage) (imageHeight sceneImage)
                  (applySobelEdgeDetection (imageWidth sceneImage)
                                           (imageHeight sceneImage)
                                           (createGrayscaleGrid sceneImage))
     = Some scanned
     /\ detectShapes (Z.to_nat 20002) sceneImage
        = Some (shapes, imageWidth sceneImage, imageHeight sceneImage)
     /\ subseq (map smetrics shapes)
               (map (fun c => calculateMetrics (map toPoint c)) (found scanned))
     /\ Forall (fun s => 50 <= area (smetrics s) /\ tableEntry s) shapes)
    /\ found scanned = [discContour; barOuter; barInner]
    /\ shapes = [discShape].
Proof.
  destruct (detectShapes_returns (Z.to_nat 20002) sceneImage sceneImage_wellFormed)
    as (scanned & shapes & E1 & E2 & Hsub & Hall).
  { rewrite Z2Nat.id; lia. }
  exists scanned, shapes.
  split; [repeat split; assumption|].
  split.
  - change (imageWidth sceneImage) with 40%Z in E1.
    change (imageHeight sceneImage) with 26%Z in E1.
    rewrite createGrayscaleGrid_sceneImage, applySobel_IZR, applySobelZ_sceneGray in E1.
    pose proof findContours_sceneEdges as F. rewrite E1 in F.
    cbn [option_map] in F. now injection F.
  - rewrite detectShapes_sceneImage in E2 by lia. now injection E2.
Defined.

End PipelineFacts.

(** ** Where binary64 and the real numbers part *)

Module Binary64Facts.

Import PrimFloat Binary64.
Local Open Scope float_scope.

(** Scaling by 3 does not multiply the perimeter by 3: the segment from
    (0,0) to (1,1) and back has perimeter 8.48528137423857 when scaled, and
    3 times its perimeter is 8.485281374238571, one unit in the last place
    more. *)
Lemma perimeter_scaled_by_3 :
  perimeter (calculateMetrics (scale 3 diagonal)) = 0x1.0f876ccdf6cd9p+3
  /\ 3 * perimeter (calculateMetrics diagonal) = 0x1.0f876ccdf6cdap+3
  /\ (perimeter (calculateMetrics (scale 3 diagonal))
      <? 3 * perimeter (calculateMetrics diagonal)) = true.
Proof. repeat split; vm_compute; reflexivity. Qed.

(** Whole-number coordinates that are too large lose the area: far enough
    from the origin the products of the shoelace sum are rounded. *)
Lemma area_far_from_origin :
  area (calculateMetrics triangle) = 600
  /\ area (calculateMetrics (translate 0x1p+53 0x1p+53 triangle)) = 0.
Proof. split; vm_compute; reflexivity. Qed.

(** A factor that is not a whole number can scale a contour of whole
    numbers to another one and still miss the area: with the double
    nearest to 5/3 the triangle of legs 3 becomes the triangle of legs 5,
    of area 12.5, and the square of the factor times 4.5 is
    12.500000000000002. *)
Lemma area_scaled_by_fraction :
  scale 0x1.aaaaaaaaaaaabp+0 smallTriangle = [mkPoint 0 0; mkPoint 5 0; mkPoint 0 5]
  /\ area (calculateMetrics (scale 0x1.aaaaaaaaaaaabp+0 smallTriangle)) = 12.5
  /\ 0x1.aaaaaaaaaaaabp+0 * 0x1.aaaaaaaaaaaabp+0 * area (calculateMetrics smallTriangle)
     = 0x1.9000000000001p+3.
Proof. repeat split; vm_compute; reflexivity. Qed.

(** On the triangle the relations of C8 are exact: moved by (1, 2) it keeps
    its area, and doubled it has four times the area and twice the
    perimeter. *)
Lemma triangle_moved_and_doubled :
  area (calculateMetrics (translate 1 2 triangle)) = area (calculateMetrics triangle)
  /\ area (calculateMetrics (scale 2 triangle)) = 4 * area (calculateMetrics triangle)
  /\ perimeter (calculateMetrics (scale 2 triangle))
     = 2 * perimeter (calculateMetrics triangle).
Proof. repeat split; vm_compute; reflexivity. Qed.

(** Moving the triangle moves its box and keeps its perimeter. *)
Lemma triangle_moved :
  perimeter (calculateMetrics (translate 1 2 triangle))
  = perimeter (calculateMetrics triangle)
  /\ boundingBox (calculateMetrics (translate 1 2 triangle)) = mkBox 1 2 40 30
  /\ boundingBox (calculateMetrics triangle) = mkBox 0 0 40 30.
Proof. repeat split; vm_compute; reflexivity. Qed.

(** The center of a moved contour need not be the moved center: the mean
    of 0, 1, 1 is 0.6666666666666666, the mean of 1, 2, 2 is
    1.6666666666666667, and 0.6666666666666666 + 1 is 1.6666666666666665. *)
Lemma center_moved_rounds :
  px (center (calculateMetrics corner)) = 0x1.5555555555555p-1
  /\ px (center (calculateMetrics (translate 1 1 corner))) = 0x1.aaaaaaaaaaaabp+0
  /\ px (center (calculateMetrics corner)) + 1 = 0x1.aaaaaaaaaaaaap+0.
Proof. repeat split; vm_compute; reflexivity. Qed.

(** The perimeter depends on the point the contour starts from: the same
    four pixels, started one pixel later, give a perimeter one unit in the
    last place smaller.  The area, the box and the center are the same. *)
Lemma perimeter_depends_on_start :
  (perimeter (calculateMetrics (rot hook)) <? perimeter (calculateMetrics hook)) = true
  /\ area (calculateMetrics (rot hook)) = area (calculateMetrics hook)
  /\ boundingBox (calculateMetrics (rot hook)) = boundingBox (calculateMetrics hook)
  /\ center (calculateMetrics (rot hook)) = center (calculateMetrics hook)
  /\ area (calculateMetrics (rev hook)) = area (calculateMetrics hook)
  /\ boundingBox (calculateMetrics (rev hook)) = boundingBox (calculateMetrics hook)
  /\ center (calculateMetrics (rev hook)) = center (calculateMetrics hook).
Proof. repeat split; vm_compute; reflexivity. Qed.

(** A pixel with equal red, green and blue [v] has a weighted sum strictly
    between [v - 0.5] and [v + 0.5], for each of the 256 values of a byte:
    [Math.round] gives [v], as X7 says of the gray value. *)
Lemma luminance_neutral :
  forallb (fun n => let v := count n in
                    (v - 0.5 <? luminance v v v) && (luminance v v v <? v + 0.5))
          (seq 0 256)
  = true.
Proof. vm_compute. reflexivity. Qed.

(** At red 0, green 36, blue 12 the weighted sum is 22.5 in real numbers
    and 22.499999999999996 in binary64, which [Math.round] takes to 22. *)
Lemma luminance_below_tie :
  luminance 0 36 12 = 0x1.67fffffffffffp+4
  /\ (luminance 0 36 12 <? 22.5) = true
  /\ (22 <? luminance 0 36 12) = true.
Proof. repeat split; vm_compute; reflexivity. Qed.

End Binary64Facts.

(** In real numbers the weighted sum at red 0, green 36, blue 12 is the tie
    22.5, which rounds up: here the gray value of this file is 23 where the
    code has 22 ([Binary64Facts.luminance_below_tie]).  The statements about
    gray values above hold for either value. *)
Lemma grayAt_tiePixel : Imaging.grayAt tiePixel 0 0 = 23.
Proof.
  unfold Imaging.grayAt, Imaging.channel, tiePixel.
  cbn [Imaging.imageWidth Imaging.data]. unfold Imaging.round.
  replace (Imaging.floorR _) with 23%Z; [reflexivity|].
  symmetry. apply ImagingFacts.floorR_unique.
  repeat match goal with
         | |- context [nth ?i ?l ?d] =>
           let v := eval vm_compute in (nth i l d) in change (nth i l d) with v
         end.
  lra.
Qed.
